(** * Horonum: the natal-chart calculation pipeline

    A shallow embedding of the ephemeris module (Julian Day, planetary
    positions, house cusps, aspects, house placement, dignities) and of
    the pattern detection of the chart analyzer.

    Numbers.  JavaScript numbers are modelled as real numbers: every
    arithmetic operation is exact, there is no rounding, no NaN and no
    infinity (division is Rocq's total division).  [Math.floor] yields an
    integer, kept in [Z].  The remainder operator [%] keeps the sign of
    its dividend, as in the source language.  Where the spacing of the
    equal houses is concerned, which the rounding of a sum decides, the
    loop is given again with the rounding to a double written out
    ([roundDouble], [calculateHousesEqual]).  The strings that
    [toFixed(2)] makes of the degree of a position and of the angle and
    orb of an aspect are kept as the numbers they are made of.

    Host.  Two things the code reads from its environment are explicit:
    the time-zone offset behind the local-time getters of [Date], and the
    draws of [Math.random]. *)

From Stdlib Require Import Reals Lra Lia ZArith List String Ascii Bool Permutation.
From Stdlib Require Import DecimalString Sorted.
Import ListNotations.

Open Scope Z_scope.
Open Scope string_scope.
Open Scope R_scope.

(* ================================================================== *)
(** * Definitions                                                      *)
(* ================================================================== *)

(** ** Numeric primitives of the source language *)

(** [Math.floor], with its integer result kept as an integer. *)
Definition Math_floor (x : R) : Z := Int_part x.

(** Rounding toward zero, the quotient behind [%]. *)
Definition Rtrunc (x : R) : Z :=
  if Rle_dec 0 x then Int_part x else (- Int_part (- x))%Z.

(** [x % y]: the remainder has the sign of [x]. *)
Definition js_rem (x y : R) : R := x - y * IZR (Rtrunc (x / y)).

(** [Math.abs]. *)
Definition Math_abs (x : R) : R := Rabs x.

(** Comparisons as booleans. *)
Definition Rltb (x y : R) : bool := if Rlt_dec x y then true else false.
Definition Rleb (x y : R) : bool := if Rle_dec x y then true else false.
Definition Rgtb (x y : R) : bool := Rltb y x.
Definition Rgeb (x y : R) : bool := Rleb y x.

(** ** Dates *)

(** What the local-time getters of a [Date] return. [getMonth] counts
    from zero. *)
Record JsDate := mkDate {
  getFullYear : Z;
  getMonth : Z;
  getDate : Z;
  getHours : Z;
  getMinutes : Z;
  getSeconds : Z
}.

(** The host environment: the offset of local time from UTC, in minutes
    east of Greenwich, and the value [Math.random()] returns while the
    position of a given planet is computed. *)
Record Host := mkHost {
  tzOffsetMinutes : Z;
  Math_random : string -> R
}.

(** [new Date("2000-01-01T12:00:00Z")] seen through the local-time
    getters: the instant is fixed in UTC, its civil fields are shifted by
    the host's offset (offsets lie between -12h and +14h, so the local
    day is 31 December, 1 January or 2 January). *)
Definition baseDate (tz : Z) : JsDate :=
  let total := (12 * 60 + tz)%Z in
  if (total <? 0)%Z then
    mkDate 1999 11 31 ((total + 1440) / 60) ((total + 1440) mod 60) 0
  else if (total <? 1440)%Z then
    mkDate 2000 0 1 (total / 60) (total mod 60) 0
  else
    mkDate 2000 0 2 ((total - 1440) / 60) ((total - 1440) mod 60) 0.

(** ** calculateJulianDay *)

Definition calculateJulianDay (date : JsDate) : R :=
  let year := getFullYear date in
  let month := (getMonth date + 1)%Z in
  let day := getDate date in
  let hour := IZR (getHours date) + IZR (getMinutes date) / 60
              + IZR (getSeconds date) / 3600 in
  let y := if (month >? 2)%Z then year else (year - 1)%Z in
  let m := if (month >? 2)%Z then month else (month + 12)%Z in
  let a := Math_floor (IZR y / 100) in
  let b := (2 - a + Math_floor (IZR a / 4))%Z in
  IZR (Math_floor (365.25 * (IZR y + 4716)))
  + IZR (Math_floor (30.6001 * (IZR m + 1)))
  + IZR day + hour / 24 + IZR b - 1524.5.

(** Validity of a civil date and time, and the order on them. *)
Definition isLeapYear (year : Z) : bool :=
  (((year mod 4 =? 0) && negb (year mod 100 =? 0)) || (year mod 400 =? 0))%Z.

Definition daysInMonth (year month0 : Z) : Z :=
  match month0 with
  | 0 => 31 | 1 => if isLeapYear year then 29 else 28
  | 2 => 31 | 3 => 30 | 4 => 31 | 5 => 30 | 6 => 31
  | 7 => 31 | 8 => 30 | 9 => 31 | 10 => 30 | 11 => 31
  | _ => 0
  end%Z.

Definition validDate (d : JsDate) : Prop :=
  (0 <= getMonth d <= 11)%Z /\
  (1 <= getDate d <= daysInMonth (getFullYear d) (getMonth d))%Z /\
  (0 <= getHours d <= 23)%Z /\
  (0 <= getMinutes d <= 59)%Z /\
  (0 <= getSeconds d <= 59)%Z.

Definition secondsOfDay (d : JsDate) : Z :=
  (getHours d * 3600 + getMinutes d * 60 + getSeconds d)%Z.

Definition earlier (t1 t2 : JsDate) : Prop :=
  (getFullYear t1 < getFullYear t2)%Z \/
  (getFullYear t1 = getFullYear t2 /\
   ((getMonth t1 < getMonth t2)%Z \/
    (getMonth t1 = getMonth t2 /\
     ((getDate t1 < getDate t2)%Z \/
      (getDate t1 = getDate t2 /\
       (secondsOfDay t1 < secondsOfDay t2)%Z))))).

(** The integer part of the Julian Day: the day count the formula
    assigns to a civil date, with every floor written as an integer
    quotient.  [calculateJulianDay_dayNumber] ties it to the code. *)
Definition shiftedYear (d : JsDate) : Z :=
  if (getMonth d + 1 >? 2)%Z then getFullYear d else (getFullYear d - 1)%Z.

Definition shiftedMonth (d : JsDate) : Z :=
  if (getMonth d + 1 >? 2)%Z then (getMonth d + 1)%Z else (getMonth d + 1 + 12)%Z.

Definition yearStart (y : Z) : Z :=
  ((1461 * (y + 4716)) / 4 + (2 - y / 100 + (y / 100) / 4))%Z.

Definition monthStart (m : Z) : Z := ((306001 * (m + 1)) / 10000)%Z.

Definition dayNumber (d : JsDate) : Z :=
  (yearStart (shiftedYear d) + monthStart (shiftedMonth d) + getDate d)%Z.

(** ** The planet registry *)

Record PlanetInfo := mkPlanetInfo {
  name : string;
  symbol : string;
  color : string;
  orbSpeed : R
}.

(** The object [planets], with its keys in insertion order. *)
Definition planets : list (string * PlanetInfo) :=
  [ ("sun",     mkPlanetInfo "Sun"     "☉" "#FFD700" 1);
    ("moon",    mkPlanetInfo "Moon"    "☽" "#SILVER" 13.2);
    ("mercury", mkPlanetInfo "Mercury" "☿" "#B5B8B1" 4.1);
    ("venus",   mkPlanetInfo "Venus"   "♀" "#FFCC99" 1.6);
    ("mars",    mkPlanetInfo "Mars"    "♂" "#FF4500" 0.5);
    ("jupiter", mkPlanetInfo "Jupiter" "♃" "#F0E68C" 0.08);
    ("saturn",  mkPlanetInfo "Saturn"  "♄" "#696969" 0.03);
    ("uranus",  mkPlanetInfo "Uranus"  "♅" "#40E0D0" 0.01);
    ("neptune", mkPlanetInfo "Neptune" "♆" "#5D8AA8" 0.006);
    ("pluto",   mkPlanetInfo "Pluto"   "♇" "#A0522D" 0.004) ].

Definition planetKeys : list string := map fst planets.

(** Property lookup in an object whose keys are strings: the first
    entry with the key. *)
Fixpoint lookup {A : Type} (k : string) (o : list (string * A)) : option A :=
  match o with
  | [] => None
  | (k', v) :: rest => if String.eqb k k' then Some v else lookup k rest
  end.

(** ** calculatePlanetaryPositions *)

(** One emitted position.  [degree] is the number the code then formats
    with two decimals; the four registry attributes are copied in by the
    object spread and kept here as [registry]. *)
Record PlanetPosition := mkPlanetPosition {
  longitude : R;
  latitude : R;
  sign : Z;
  degree : R;
  isRetrograde : bool;
  registry : PlanetInfo
}.

(** [planet.charCodeAt(0)] (keys are never empty). *)
Definition charCodeAt0 (planet : string) : R :=
  match planet with
  | EmptyString => 0
  | String c _ => INR (nat_of_ascii c)
  end.

(** [jd - baseJD], where [baseJD] is the Julian Day the code computes
    for its base date. *)
Definition daysSinceJ2000Of (host : Host) (jd : R) : R :=
  let baseJD := calculateJulianDay (baseDate (tzOffsetMinutes host)) in
  jd - baseJD.

(** The perturbation term, from one draw [rnd] of [Math.random]. *)
Definition randomOffsetOf (daysSinceJ2000 rnd : R) : R :=
  sin (daysSinceJ2000 * (0.1 + rnd * 0.05)) * 15.

(** The base longitude of a planet, before the perturbation. *)
Definition basePosition (daysSinceJ2000 speed : R) : R :=
  js_rem (daysSinceJ2000 * speed) 360.

(** The body of the loop over the registry, for a given value of the
    perturbation term. *)
Definition positionEntry (daysSinceJ2000 : R) (planet : string)
    (info : PlanetInfo) (randomOffset : R) : PlanetPosition :=
  let speed := orbSpeed info in
  let position := basePosition daysSinceJ2000 speed in
  let degreeInZodiac := js_rem (position + randomOffset + 360) 360 in
  let signIndex := Math_floor (degreeInZodiac / 30) in
  let degreeInSign := js_rem degreeInZodiac 30 in
  let retro := Rgtb (sin (daysSinceJ2000 * 0.05 + charCodeAt0 planet)) 0.7 in
  mkPlanetPosition
    degreeInZodiac
    (sin (daysSinceJ2000 * 0.1 + INR (String.length planet)) * 5)
    signIndex
    degreeInSign
    retro
    info.

Definition calculatePlanetaryPositions (host : Host) (jd lat lon : R)
    : list (string * PlanetPosition) :=
  let daysSinceJ2000 := daysSinceJ2000Of host jd in
  map (fun entry : string * PlanetInfo =>
         let planet := fst entry in
         (planet,
          positionEntry daysSinceJ2000 planet (snd entry)
            (randomOffsetOf daysSinceJ2000 (Math_random host planet))))
      planets.

(** A host on UTC whose [Math.random] returns [rnd] at every call. *)
Definition hostUTC (rnd : R) : Host := mkHost 0 (fun _ => rnd).

(** A host on New York time in winter, five hours west of UTC. *)
Definition hostNewYork (rnd : R) : Host := mkHost (-300) (fun _ => rnd).

(** The birth data of the end-to-end scenario: 1 January 2000 at 12:00,
    read as local time. *)
Definition scenarioDate : JsDate := mkDate 2000 0 1 12 0 0.
Definition scenarioLatitude : R := 40.7128.
Definition scenarioLongitude : R := -74.0060.

(** A draw of [Math.random], about 0.244, at which the sine of the
    perturbation term is -1 for 350 days before the epoch. *)
Definition quarterTurnDraw : R := ((PI / 2 + 12 * PI) / 350 - 0.1) / 0.05.

(** ** Houses *)

Record House := mkHouse {
  number : Z;
  cusp : R;
  system : string
}.

Definition calculateLocalSiderealTime (jd lon : R) : R :=
  let T := (jd - 2451545.0) / 36525 in
  let theta := 280.46061837 + 360.98564736629 * (jd - 2451545.0)
               + 0.000387933 * T * T - T * T * T / 38710000 in
  js_rem (theta + lon) 360.

(** Where the denominator of [tanAsc] is zero the code divides to an
    infinity and this definition to 0: the value differs there, its
    range, [[0, 360)], does not. *)
Definition calculateAscendant (jd lat lon : R) : R :=
  let LMST := calculateLocalSiderealTime jd lon in
  let latRad := lat * PI / 180 in
  let lstRad := LMST * PI / 180 in
  let tanAsc := - cos lstRad / (sin lstRad * cos latRad - tan 0 * sin latRad) in
  let ascendant := atan tanAsc * 180 / PI in
  let ascendant := if Rgtb (cos lstRad) 0 then ascendant + 180 else ascendant in
  js_rem (ascendant + 360) 360.

Definition calculateMidheaven (LMST : R) : R := js_rem LMST 360.

(** [houses[i].cusp] for an index inside the array. *)
Definition cuspAt (houses : list House) (i : nat) : R :=
  cusp (nth i houses (mkHouse 0 0 EmptyString)).

Definition push {A : Type} (l : list A) (x : A) : list A := (l ++ [x])%list.

(** [houses.sort((a, b) => a.number - b.number)], as a stable insertion
    sort. *)
Fixpoint insertByNumber (h : House) (l : list House) : list House :=
  match l with
  | [] => [h]
  | h' :: rest =>
      if (number h <? number h')%Z then h :: l
      else h' :: insertByNumber h rest
  end.

Definition sortByNumber (l : list House) : list House :=
  fold_left (fun acc h => insertByNumber h acc) l [].

(** The twelve loop indices [0 .. 11]. *)
Definition indices12 : list nat := seq 0 12.

Definition calculateHouses (jd lat lon : R) (sys : string) : list House :=
  let LMST := calculateLocalSiderealTime jd lon in
  if String.eqb sys "equal" then
    let ascendant := calculateAscendant jd lat lon in
    map (fun i : nat =>
           mkHouse (Z.of_nat i + 1) (js_rem (ascendant + INR i * 30) 360) "Equal")
        indices12
  else
    let ascendant := calculateAscendant jd lat lon in
    let mc := calculateMidheaven LMST in
    let P := "Placidus" in
    let houses := push [] (mkHouse 1 ascendant P) in
    let houses := push houses (mkHouse 10 mc P) in
    let houses := push houses
      (mkHouse 2 (js_rem (ascendant + 30 + sin (lat * 0.1) * 5) 360) P) in
    let houses := push houses
      (mkHouse 3 (js_rem (ascendant + 60 + sin (lat * 0.2) * 7) 360) P) in
    let houses := push houses (mkHouse 4 (js_rem (mc + 180) 360) P) in
    let houses := push houses
      (mkHouse 5 (js_rem (cuspAt houses 3 + 180) 360) P) in
    let houses := push houses
      (mkHouse 6 (js_rem (cuspAt houses 2 + 180) 360) P) in
    let houses := push houses (mkHouse 7 (js_rem (ascendant + 180) 360) P) in
    let houses := push houses
      (mkHouse 8 (js_rem (cuspAt houses 6 + 30 + sin (lat * 0.1) * 5) 360) P) in
    let houses := push houses
      (mkHouse 9 (js_rem (cuspAt houses 6 + 60 + sin (lat * 0.2) * 7) 360) P) in
    let houses := push houses
      (mkHouse 11 (js_rem (mc + 30 + sin (lat * 0.1) * 5) 360) P) in
    let houses := push houses
      (mkHouse 12 (js_rem (mc + 60 + sin (lat * 0.2) * 7) 360) P) in
    sortByNumber houses.

(** The house with a given number in a list of houses. *)
Definition houseNumbered (n : Z) (houses : list House) : option House :=
  find (fun h => (number h =? n)%Z) houses.

(** ** calculateAspects *)

Record AspectType := mkAspectType {
  at_angle : R;
  at_orb : R;
  at_symbol : string;
  at_name : string;
  at_influence : string
}.

(** The object [aspectTypes], with its keys in insertion order, which
    is the order the [for ... in] loop visits them. *)
Definition aspectTypes : list (string * AspectType) :=
  [ ("conjunction",    mkAspectType 0   8 "☌"  "Conjunction"    "Strong");
    ("opposition",     mkAspectType 180 8 "☍"  "Opposition"     "Strong");
    ("trine",          mkAspectType 120 8 "△"  "Trine"          "Harmonious");
    ("square",         mkAspectType 90  7 "□"  "Square"         "Challenging");
    ("sextile",        mkAspectType 60  6 "⚹"  "Sextile"        "Harmonious");
    ("semisextile",    mkAspectType 30  3 "⚺"  "Semi-sextile"   "Mild");
    ("semisquare",     mkAspectType 45  3 "⚼"  "Semi-square"    "Challenging");
    ("sesquiquadrate", mkAspectType 135 3 "⚿"  "Sesquiquadrate" "Challenging");
    ("quincunx",       mkAspectType 150 5 "⚻"  "Quincunx"       "Adjustment");
    ("quintile",       mkAspectType 72  2 "Q"  "Quintile"       "Creative");
    ("biquintile",     mkAspectType 144 2 "bQ" "Biquintile"     "Creative") ].

(** An emitted aspect.  [a_angle] and [a_orb] are the numbers the code
    then formats with two decimals. *)
Record Aspect := mkAspect {
  planet1 : string;
  planet2 : string;
  a_type : string;
  a_angle : R;
  a_orb : R;
  a_symbol : string;
  a_name : string;
  a_influence : string;
  applying : bool
}.

(** The angle between two longitudes: the smaller of the two arcs. *)
Definition separation (pos1 pos2 : R) : R :=
  let angle := Math_abs (pos1 - pos2) in
  if Rgtb angle 180 then 360 - angle else angle.

(** The orb test of one aspect type. *)
Definition orbOf (angle : R) (aspect : AspectType) : R :=
  Math_abs (angle - at_angle aspect).

Definition withinOrb (angle : R) (aspect : AspectType) : bool :=
  Rleb (orbOf angle aspect) (at_orb aspect).

(** The inner loop over the aspect types: the first type whose orb test
    passes is pushed and the loop is left. *)
Fixpoint checkAspectTypes (planet1 planet2 : string) (p1 p2 : PlanetPosition)
    (angle : R) (types : list (string * AspectType)) : list Aspect :=
  match types with
  | [] => []
  | (aspectType, aspect) :: rest =>
      if withinOrb angle aspect then
        let pos1 := longitude p1 in
        let pos2 := longitude p2 in
        [ mkAspect planet1 planet2 aspectType angle (orbOf angle aspect)
            (at_symbol aspect) (at_name aspect) (at_influence aspect)
            (if Rltb pos1 pos2
             then (if Bool.eqb (isRetrograde p1) (isRetrograde p2)
                   then false else true)
             else (if Bool.eqb (isRetrograde p1) (isRetrograde p2)
                   then true else false)) ]
      else checkAspectTypes planet1 planet2 p1 p2 angle rest
  end.

(** The body of the loop over [j]: the aspects pushed for one pair. *)
Definition aspectsOfPair (e1 e2 : string * PlanetPosition) : list Aspect :=
  let angle := separation (longitude (snd e1)) (longitude (snd e2)) in
  checkAspectTypes (fst e1) (fst e2) (snd e1) (snd e2) angle aspectTypes.

(** The two nested loops, [i] over all planets and [j] over the planets
    after [i].  The positions are the entries of the object in key
    order. *)
Fixpoint calculateAspects (planetPositions : list (string * PlanetPosition))
    : list Aspect :=
  match planetPositions with
  | [] => []
  | e1 :: rest =>
      (flat_map (fun e2 => aspectsOfPair e1 e2) rest ++ calculateAspects rest)%list
  end.

(** An aspect joins the unordered pair [{a, b}]. *)
Definition joins (a b : string) (asp : Aspect) : bool :=
  (String.eqb (planet1 asp) a && String.eqb (planet2 asp) b)
  || (String.eqb (planet1 asp) b && String.eqb (planet2 asp) a).

(** [key] is the first entry of the table, in its order, whose orb test
    passes at [angle]. *)
Definition firstPassing (angle : R) (key : string) : Prop :=
  exists (before : list (string * AspectType)) aspect after,
    aspectTypes = (before ++ (key, aspect) :: after)%list /\
    withinOrb angle aspect = true /\
    Forall (fun e => withinOrb angle (snd e) = false) before.

(** ** determinePlanetHouse *)

(** The test of one house arc, with the wraparound at 0 degrees Aries. *)
Definition inHouseArc (planetLongitude houseStart houseEnd : R) : bool :=
  if Rltb houseEnd houseStart then
    Rgeb planetLongitude houseStart || Rltb planetLongitude houseEnd
  else
    Rgeb planetLongitude houseStart && Rltb planetLongitude houseEnd.

(** The loop over [i]; reading [houses[i]] outside the array raises a
    TypeError, rendered as [None]. *)
Fixpoint determinePlanetHouse_loop (planetLongitude : R) (houses : list House)
    (todo : list nat) : option Z :=
  match todo with
  | [] => Some 1%Z
  | i :: rest =>
      match nth_error houses i, nth_error houses (Nat.modulo (i + 1) 12) with
      | Some hs, Some he =>
          if inHouseArc planetLongitude (cusp hs) (cusp he)
          then Some (Z.of_nat i + 1)%Z
          else determinePlanetHouse_loop planetLongitude houses rest
      | _, _ => None
      end
  end.

Definition determinePlanetHouse (planetPosition : PlanetPosition)
    (houses : list House) : option Z :=
  determinePlanetHouse_loop (longitude planetPosition) houses indices12.

(** ** getPlanetDignity *)

(** A cell of the dignity table: [null], one sign, or an array of
    signs. *)
Inductive SignCell :=
| Null
| One (s : Z)
| Many (l : list Z).

Record DignityRow := mkDignityRow {
  rulership : SignCell;
  exaltation : SignCell;
  detriment : SignCell;
  fall : SignCell
}.

Definition dignities : list (string * DignityRow) :=
  [ ("sun",     mkDignityRow (One 4) (One 0) (One 10) (One 6));
    ("moon",    mkDignityRow (One 3) (One 1) (One 9) (One 7));
    ("mercury", mkDignityRow (Many [2; 5]%Z) Null (Many [8; 11]%Z) Null);
    ("venus",   mkDignityRow (Many [1; 6]%Z) (One 11) (Many [7; 0]%Z) (One 5));
    ("mars",    mkDignityRow (Many [0; 7]%Z) (One 9) (Many [1; 6]%Z) (One 3));
    ("jupiter", mkDignityRow (Many [8; 11]%Z) (One 3) (Many [2; 5]%Z) (One 9));
    ("saturn",  mkDignityRow (Many [9; 10]%Z) (One 6) (Many [3; 4]%Z) (One 0));
    ("uranus",  mkDignityRow (One 10) Null (One 4) Null);
    ("neptune", mkDignityRow (One 11) Null (One 5) Null);
    ("pluto",   mkDignityRow (One 7) Null (One 1) Null) ].

(** [cell === signIndex]. *)
Definition strictEq (cell : SignCell) (signIndex : Z) : bool :=
  match cell with
  | One s => (s =? signIndex)%Z
  | _ => false
  end.

(** [Array.isArray(cell) && cell.includes(signIndex)]. *)
Definition arrayIncludes (cell : SignCell) (signIndex : Z) : bool :=
  match cell with
  | Many l => existsb (fun s => (s =? signIndex)%Z) l
  | _ => false
  end.

Definition getPlanetDignity (planet : string) (signIndex : Z) : string :=
  match lookup planet dignities with
  | None => "Neutral"
  | Some planetDignity =>
      if strictEq (rulership planetDignity) signIndex
         || arrayIncludes (rulership planetDignity) signIndex
      then "Rulership"
      else if strictEq (exaltation planetDignity) signIndex
      then "Exaltation"
      else if strictEq (detriment planetDignity) signIndex
              || arrayIncludes (detriment planetDignity) signIndex
      then "Detriment"
      else if strictEq (fall planetDignity) signIndex
      then "Fall"
      else "Neutral"
  end.

(** The signs a cell stands for. *)
Definition signSet (cell : SignCell) : list Z :=
  match cell with
  | Null => []
  | One s => [s]
  | Many l => l
  end.

Definition categories : list string :=
  ["Rulership"; "Exaltation"; "Detriment"; "Fall"; "Neutral"].

(** ** calculateNatalChart *)

Record Chart := mkChart {
  c_planets : list (string * PlanetPosition);
  c_houses : list House;
  c_aspects : list Aspect;
  c_ascendant : R;
  c_midheaven : R;
  c_julianDay : R
}.

(** [date] is what [new Date(birthdate + "T" + birthtime)] yields: a
    date-time string without zone is read as local time, so the getters
    return the fields that were written. *)
Definition calculateNatalChart (host : Host) (date : JsDate) (lat lon : R)
    (houseSystem : string) : Chart :=
  let JD := calculateJulianDay date in
  let planetPositions := calculatePlanetaryPositions host JD lat lon in
  let houses := calculateHouses JD lat lon houseSystem in
  let aspects := calculateAspects planetPositions in
  mkChart planetPositions houses aspects (cuspAt houses 0) (cuspAt houses 9) JD.

(** ** The chart analyzer: findSpecialPatterns *)

(** A detected pattern.  A Grand Trine carries the triplet key and an
    element ([None] when the lookup in the element table is undefined); a
    T-Square carries the triplet key and its focal planet.  The
    interpretation text attached to each pattern is left out. *)
Inductive Pattern :=
| GrandTrine (key : string) (element : option string)
| TSquare (key : string) (focus : string).

Definition patternType (p : Pattern) : string :=
  match p with
  | GrandTrine _ _ => "Grand Trine"
  | TSquare _ _ => "T-Square"
  end.

Definition patternPlanets (p : Pattern) : string :=
  match p with
  | GrandTrine key _ => key
  | TSquare key _ => key
  end.

(** [elements[signIndex % 4]]: undefined for a negative index. *)
Definition getSignElement (signIndex : Z) : option string :=
  let i := Z.rem signIndex 4 in
  if (i <? 0)%Z then None
  else nth_error ["Fire"; "Earth"; "Air"; "Water"] (Z.to_nat i).

(** The default [sort()] of an array of strings, by code units. *)
Fixpoint insertString (s : string) (l : list string) : list string :=
  match l with
  | [] => [s]
  | t :: rest => if String.leb s t then s :: l else t :: insertString s rest
  end.

Definition sortStrings (l : list string) : list string :=
  fold_right insertString [] l.

(** [[p1, p2, p3].sort().join('-')]. *)
Definition tripleKey (p1 p2 p3 : string) : string :=
  String.concat "-" (sortStrings [p1; p2; p3]).

(** The object [trineGroups]: for each key, in insertion order, a set
    of planets, itself in insertion order. *)
Definition Groups := list (string * list string).

Definition setHas (q : string) (set : list string) : bool :=
  existsb (String.eqb q) set.

Definition setAdd (q : string) (set : list string) : list string :=
  if setHas q set then set else (set ++ [q])%list.

Definition groupOf (p : string) (g : Groups) : list string :=
  match lookup p g with
  | Some set => set
  | None => []
  end.

(** [if (!trineGroups[p]) trineGroups[p] = new Set()]. *)
Definition ensureGroup (p : string) (g : Groups) : Groups :=
  match lookup p g with
  | Some _ => g
  | None => (g ++ [(p, [])])%list
  end.

(** [trineGroups[p].add(q)]. *)
Fixpoint addToGroup (p q : string) (g : Groups) : Groups :=
  match g with
  | [] => []
  | (k, set) :: rest =>
      if String.eqb p k then (k, setAdd q set) :: rest
      else (k, set) :: addToGroup p q rest
  end.

Definition addTrine (g : Groups) (trine : Aspect) : Groups :=
  let p1 := planet1 trine in
  let p2 := planet2 trine in
  let g := ensureGroup p1 g in
  let g := ensureGroup p2 g in
  let g := addToGroup p1 p2 g in
  addToGroup p2 p1 g.

(** A loop whose body may raise: the state is threaded through the
    elements, and an error ends the loop. *)
Fixpoint foldM {A S : Type} (f : S -> A -> option S) (l : list A) (s : S)
    : option S :=
  match l with
  | [] => Some s
  | x :: rest =>
      match f s x with
      | Some s' => foldM f rest s'
      | None => None
      end
  end.

Definition hasPattern (pattern : string) (patterns : list Pattern) : bool :=
  existsb (fun p => String.eqb (patternPlanets p) pattern) patterns.

(** The body of the three nested Grand Trine loops.  Reading the
    longitude of a planet that the chart does not hold raises a
    TypeError, rendered as [None]. *)
Definition grandTrineStep (planets : list (string * PlanetPosition))
    (g : Groups) (p1 p2 p3 : string) (patterns : list Pattern)
    : option (list Pattern) :=
  if negb (String.eqb p2 p3) && setHas p3 (groupOf p2 g) then
    let pattern := tripleKey p1 p2 p3 in
    if negb (hasPattern pattern patterns) then
      match lookup p1 planets with
      | None => None
      | Some pos =>
          let signIndex1 := Math_floor (longitude pos / 30) in
          let element := getSignElement signIndex1 in
          Some (push patterns (GrandTrine pattern element))
      end
    else Some patterns
  else Some patterns.

Definition grandTrines (planets : list (string * PlanetPosition)) (g : Groups)
    (patterns : list Pattern) : option (list Pattern) :=
  foldM (fun patterns p1 =>
    foldM (fun patterns p2 =>
      foldM (fun patterns p3 => grandTrineStep planets g p1 p2 p3 patterns)
            (groupOf p1 g) patterns)
          (groupOf p1 g) patterns)
        (map fst g) patterns.

(** The body of the two nested T-Square loops. *)
Definition tSquareStep (squares : list Aspect) (p1 p2 : string)
    (square : Aspect) (patterns : list Pattern) : list Pattern :=
  if (String.eqb (planet1 square) p1 && negb (String.eqb (planet2 square) p2))
     || (String.eqb (planet1 square) p2 && negb (String.eqb (planet2 square) p1))
  then
    let p3 := if String.eqb (planet1 square) p1 || String.eqb (planet1 square) p2
              then planet2 square else planet1 square in
    let hasOtherSquare :=
      existsb (fun sq =>
        (String.eqb (planet1 sq) p3
         && (String.eqb (planet2 sq) p1 || String.eqb (planet2 sq) p2))
        || (String.eqb (planet2 sq) p3
            && (String.eqb (planet1 sq) p1 || String.eqb (planet1 sq) p2)))
        squares in
    if hasOtherSquare then
      let pattern := tripleKey p1 p2 p3 in
      if negb (hasPattern pattern patterns)
      then push patterns (TSquare pattern p3)
      else patterns
    else patterns
  else patterns.

Definition tSquares (squares oppositions : list Aspect)
    (patterns : list Pattern) : list Pattern :=
  fold_left (fun patterns opposition =>
    fold_left (fun patterns square =>
                 tSquareStep squares (planet1 opposition) (planet2 opposition)
                   square patterns)
              squares patterns)
    oppositions patterns.

Definition ofType (t : string) (aspects : list Aspect) : list Aspect :=
  filter (fun a => String.eqb (a_type a) t) aspects.

Definition trineGroupsOf (aspects : list Aspect) : Groups :=
  fold_left addTrine (ofType "trine" aspects) [].

Definition findSpecialPatterns (chartData : Chart) : option (list Pattern) :=
  let planets := c_planets chartData in
  let aspects := c_aspects chartData in
  let trineGroups := trineGroupsOf aspects in
  match grandTrines planets trineGroups [] with
  | None => None
  | Some patterns =>
      let squares := ofType "square" aspects in
      let oppositions := ofType "opposition" aspects in
      Some (tSquares squares oppositions patterns)
  end.

(** Some aspect of type [t] joins the two planets, in either order. *)
Definition aspectJoins (t : string) (aspects : list Aspect) (a b : string)
    : Prop :=
  exists asp, In asp aspects /\ a_type asp = t /\ joins a b asp = true.

(** The planets an aspect list mentions are planets of the registry and
    have a position in the chart. *)
Definition aspectsOverChart (chartData : Chart) : Prop :=
  forall asp p, In asp (c_aspects chartData) ->
    p = planet1 asp \/ p = planet2 asp ->
    In p planetKeys /\ exists pos, lookup p (c_planets chartData) = Some pos.

(** A planet name without hyphen. *)
Fixpoint noDash (s : string) : bool :=
  match s with
  | EmptyString => true
  | String c rest => negb (Ascii.eqb c "-") && noDash rest
  end.

(** A position at a given longitude, its other fields as the code
    derives them from the longitude. *)
Definition positionAt (info : PlanetInfo) (lon : R) : PlanetPosition :=
  mkPlanetPosition lon 0 (Math_floor (lon / 30)) (js_rem lon 30) false info.

(** Three positions: the Moon at 90 degrees and Mars at 270 are in
    opposition, and the Sun at 0 degrees is in square with both. *)
Definition tSquarePositions : list (string * PlanetPosition) :=
  [ ("sun",  positionAt (mkPlanetInfo "Sun"  "☉" "#FFD700" 1) 0);
    ("moon", positionAt (mkPlanetInfo "Moon" "☽" "#SILVER" 13.2) 90);
    ("mars", positionAt (mkPlanetInfo "Mars" "♂" "#FF4500" 0.5) 270) ].

Definition tSquareChart : Chart :=
  mkChart tSquarePositions [] (calculateAspects tSquarePositions) 0 0 0.

(** Three positions 120 degrees apart: each pair is in trine. *)
Definition grandTrinePositions : list (string * PlanetPosition) :=
  [ ("sun",  positionAt (mkPlanetInfo "Sun"  "☉" "#FFD700" 1) 0);
    ("moon", positionAt (mkPlanetInfo "Moon" "☽" "#SILVER" 13.2) 120);
    ("mars", positionAt (mkPlanetInfo "Mars" "♂" "#FF4500" 0.5) 240) ].

Definition grandTrineChart : Chart :=
  mkChart grandTrinePositions [] (calculateAspects grandTrinePositions) 0 0 0.

(** Two positions a quarter turn apart. *)
Definition squarePositions : list (string * PlanetPosition) :=
  [ ("sun",  positionAt (mkPlanetInfo "Sun"  "☉" "#FFD700" 1) 0);
    ("moon", positionAt (mkPlanetInfo "Moon" "☽" "#SILVER" 13.2) 90) ].

(** The Sun at 0 degrees and the Moon at 180 are in opposition, and
    Mars at 90 degrees is in square with both; Mars comes last in the key
    order. *)
Definition tSquareLastPositions : list (string * PlanetPosition) :=
  [ ("sun",  positionAt (mkPlanetInfo "Sun"  "☉" "#FFD700" 1) 0);
    ("moon", positionAt (mkPlanetInfo "Moon" "☽" "#SILVER" 13.2) 180);
    ("mars", positionAt (mkPlanetInfo "Mars" "♂" "#FF4500" 0.5) 90) ].

Definition tSquareLastChart : Chart :=
  mkChart tSquareLastPositions [] (calculateAspects tSquareLastPositions) 0 0 0.

(** What identifies an aspect in pattern detection. *)
Definition aspectLink (a : Aspect) : string * string * string :=
  (planet1 a, planet2 a, a_type a).

(** ** Invariants of the loops *)

(** The body [f] of a loop over [l] keeps the invariant [P] and never
    loses [Q]. *)
Definition keeps {A S : Type} (f : S -> A -> option S) (P Q : S -> Prop)
    (l : list A) : Prop :=
  forall s x, In x l -> P s ->
    exists s', f s x = Some s' /\ P s' /\ (Q s -> Q s').

(** A Grand Trine pattern as the loop body builds it, from three of the
    planets [node] the loops can meet. *)
Definition builtFrom (planets : list (string * PlanetPosition))
    (node : string -> Prop) (p : Pattern) : Prop :=
  exists x y z pos,
    node x /\ node y /\ node z /\ lookup x planets = Some pos /\
    p = GrandTrine (tripleKey x y z)
          (getSignElement (Math_floor (longitude pos / 30))).

Definition trineInvariant (planets : list (string * PlanetPosition))
    (node : string -> Prop) (patterns : list Pattern) : Prop :=
  NoDup (map patternPlanets patterns) /\ Forall (builtFrom planets node) patterns.

Definition hasKeyOf (K : string) (patterns : list Pattern) : Prop :=
  In K (map patternPlanets patterns).

(** The T-Square loops only append patterns, and never a key that is
    already in the list. *)
Definition extends (base patterns : list Pattern) : Prop :=
  NoDup (map patternPlanets patterns) /\ incl base patterns.

(** ** Further notions on dates *)

(** The civil day that follows a date, at the same time of day. *)
Definition nextDay (d : JsDate) : JsDate :=
  if (getDate d <? daysInMonth (getFullYear d) (getMonth d))%Z then
    mkDate (getFullYear d) (getMonth d) (getDate d + 1)
      (getHours d) (getMinutes d) (getSeconds d)
  else if (getMonth d <? 11)%Z then
    mkDate (getFullYear d) (getMonth d + 1) 1
      (getHours d) (getMinutes d) (getSeconds d)
  else
    mkDate (getFullYear d + 1) 0 1
      (getHours d) (getMinutes d) (getSeconds d).

(** ** getZodiacSign, getZodiacDegree, formatDegree *)

(** [array[i]] at an integer index: undefined outside the array. *)
Definition arrayAt {A : Type} (l : list A) (i : Z) : option A :=
  if (i <? 0)%Z then None else nth_error l (Z.to_nat i).

Definition signs : list string :=
  [ "Aries"; "Taurus"; "Gemini"; "Cancer"; "Leo"; "Virgo"; "Libra";
    "Scorpio"; "Sagittarius"; "Capricorn"; "Aquarius"; "Pisces" ].

Definition getZodiacSign (degree : R) : option string :=
  let signIndex := Z.rem (Math_floor (degree / 30)) 12 in
  arrayAt signs signIndex.


(** An integer and a possibly undefined string inside a template
    literal. *)
Definition showZ (z : Z) : string := NilZero.string_of_int (Z.to_int z).

Definition showOption (o : option string) : string :=
  match o with
  | Some s => s
  | None => "undefined"
  end.

Definition doubleQuote : string := String (ascii_of_nat 34) EmptyString.

(** The three numbers formatDegree prints. *)
Definition degreesInSignOf (degree : R) : Z :=
  let totalDegrees := js_rem degree 360 in
  Math_floor (js_rem totalDegrees 30).

Definition minutesOf (degree : R) : Z :=
  let totalDegrees := js_rem degree 360 in
  Math_floor (js_rem totalDegrees 1 * 60).

Definition secondsOf (degree : R) : Z :=
  let totalDegrees := js_rem degree 360 in
  Math_floor (js_rem (js_rem totalDegrees 1 * 60) 1 * 60).

Definition formatDegree (degree : R) : string :=
  let totalDegrees := js_rem degree 360 in
  let sign := getZodiacSign totalDegrees in
  let degreesInSign := degreesInSignOf degree in
  let minutes := minutesOf degree in
  let seconds := secondsOf degree in
  (showOption sign ++ " " ++ showZ degreesInSign ++ "° "
   ++ showZ minutes ++ "' " ++ showZ seconds ++ doubleQuote)%string.

(** ** House arcs *)

(** The test the loop of determinePlanetHouse makes at index [i]:
    whether the planet lies in the arc from cusp [i] to the next cusp.
    It is [false] when one of the two houses is missing. *)
Definition arcAt (houses : list House) (planetLongitude : R) (i : nat) : bool :=
  match nth_error houses i, nth_error houses (Nat.modulo (i + 1) 12) with
  | Some hs, Some he => inHouseArc planetLongitude (cusp hs) (cusp he)
  | _, _ => false
  end.

(** ** The chart analyzer: element and modality balance *)

(** [modalities[signIndex % 3]]. *)
Definition getSignModality (signIndex : Z) : option string :=
  arrayAt ["Cardinal"; "Fixed"; "Mutable"] (Z.rem signIndex 3).

(** What analyzeElementBalance and analyzeModalityBalance return: the
    count per category, the planet names per category, the dominant and
    the lacking category.  The interpretation text is left out. *)
Record Balance := mkBalance {
  b_counts : list (string * Z);
  b_members : list (string * list string);
  b_dominant : string;
  b_lacking : string
}.

(** [counts[key]++] and [members[key].push(name)] on an existing key. *)
Definition increment (key : string) (counts : list (string * Z))
    : list (string * Z) :=
  map (fun e => if String.eqb (fst e) key then (fst e, (snd e + 1)%Z) else e)
      counts.

Definition pushMember (key name : string) (members : list (string * list string))
    : list (string * list string) :=
  map (fun e => if String.eqb (fst e) key then (fst e, push (snd e) name) else e)
      members.

Definition countOf (key : string) (counts : list (string * Z)) : Z :=
  match lookup key counts with
  | Some n => n
  | None => 0%Z
  end.

(** [Object.keys(counts).reduce((a, b) => pick(a, b))] on a table that
    is not empty. *)
Definition reduceKeys (pick : string -> string -> string) (keys : list string)
    : string :=
  match keys with
  | [] => EmptyString
  | k :: rest => fold_left pick rest k
  end.

(** The body of the loop over the planets: the category of the planet's
    sign is looked up, its count is raised and the planet's name is
    pushed.  A category that is undefined, or not in the table, makes
    the push raise a TypeError. *)
Definition tallyStep (classify : Z -> option string)
    (state : list (string * Z) * list (string * list string))
    (entry : string * PlanetPosition)
    : option (list (string * Z) * list (string * list string)) :=
  let planet := snd entry in
  let signIndex := Math_floor (longitude planet / 30) in
  match classify signIndex with
  | None => None
  | Some key =>
      match lookup key (snd state) with
      | None => None
      | Some _ =>
          Some (increment key (fst state),
                pushMember key (name (registry planet)) (snd state))
      end
  end.

(** The common shape of the two functions, for a table of categories
    and the function that gives the category of a sign. *)
Definition analyzeBalance (table : list string) (classify : Z -> option string)
    (planets : list (string * PlanetPosition)) : option Balance :=
  let counts0 := map (fun k => (k, 0%Z)) table in
  let members0 := map (fun k => (k, @nil string)) table in
  match foldM (tallyStep classify) planets (counts0, members0) with
  | None => None
  | Some (counts, members) =>
      let keys := map fst counts in
      let dominant :=
        reduceKeys (fun a b => if (countOf a counts >? countOf b counts)%Z
                               then a else b) keys in
      let lacking :=
        reduceKeys (fun a b => if (countOf a counts <? countOf b counts)%Z
                               then a else b) keys in
      if (countOf dominant counts =? countOf lacking counts)%Z
      then Some (mkBalance counts members "Balanced" "None")
      else Some (mkBalance counts members dominant lacking)
  end.

Definition elementTable : list string := ["Fire"; "Earth"; "Air"; "Water"].
Definition modalityTable : list string := ["Cardinal"; "Fixed"; "Mutable"].

Definition analyzeElementBalance (chartData : Chart) : option Balance :=
  analyzeBalance elementTable getSignElement (c_planets chartData).

Definition analyzeModalityBalance (chartData : Chart) : option Balance :=
  analyzeBalance modalityTable getSignModality (c_planets chartData).

(** The sum of the counts of a tally. *)
Definition totalCount (counts : list (string * Z)) : Z :=
  fold_right Z.add 0%Z (map snd counts).

(** What a tally of [n] planets over [table] looks like: one count per
    category, none negative, [n] in all; either the report is balanced
    and all counts are equal, or the dominant category has the largest
    count, the lacking one the smallest, and the two counts differ. *)
Definition balanceOf (table : list string) (n : nat) (r : Balance) : Prop :=
  map fst (b_counts r) = table /\
  map fst (b_members r) = table /\
  totalCount (b_counts r) = Z.of_nat n /\
  (forall k, In k table -> (0 <= countOf k (b_counts r))%Z) /\
  ((b_dominant r = "Balanced" /\ b_lacking r = "None" /\
    forall k k', In k table -> In k' table ->
      countOf k (b_counts r) = countOf k' (b_counts r))
   \/
   (In (b_dominant r) table /\ In (b_lacking r) table /\
    (countOf (b_lacking r) (b_counts r)
     < countOf (b_dominant r) (b_counts r))%Z /\
    forall k, In k table ->
      (countOf (b_lacking r) (b_counts r) <= countOf k (b_counts r)
       <= countOf (b_dominant r) (b_counts r))%Z)).

(** The state of the tally after [n] planets. *)
Definition tallied (table : list string) (n : nat)
    (state : list (string * Z) * list (string * list string)) : Prop :=
  map fst (fst state) = table /\ map fst (snd state) = table /\
  totalCount (fst state) = Z.of_nat n /\
  Forall (fun e => (0 <= snd e)%Z) (fst state).

(** ** What backs a reported pattern *)

(** A Grand Trine is backed by three trines that close a triangle, and
    carries the element of the sign of the planet [x] of the triangle; a
    T-Square is backed by an opposition and by a square whose first
    planet is one end of the opposition and whose second planet is the
    focus. *)
Definition backedBy (chartData : Chart) (p : Pattern) : Prop :=
  let aspects := c_aspects chartData in
  match p with
  | GrandTrine key element =>
      exists x y z pos,
        y <> z /\
        aspectJoins "trine" aspects x y /\
        aspectJoins "trine" aspects x z /\
        aspectJoins "trine" aspects y z /\
        key = tripleKey x y z /\
        lookup x (c_planets chartData) = Some pos /\
        element = getSignElement (Math_floor (longitude pos / 30))
  | TSquare key focus =>
      exists opposition square,
        In opposition aspects /\ a_type opposition = "opposition" /\
        In square aspects /\ a_type square = "square" /\
        (planet1 square = planet1 opposition
         \/ planet1 square = planet2 opposition) /\
        focus = planet2 square /\
        key = tripleKey (planet1 opposition) (planet2 opposition) focus
  end.

(** The same for a Grand Trine inside the loops, in terms of the trine
    groups. *)
Definition builtInGroups (planets : list (string * PlanetPosition))
    (g : Groups) (p : Pattern) : Prop :=
  match p with
  | GrandTrine key element =>
      exists x y z pos,
        y <> z /\ In y (groupOf x g) /\ In z (groupOf x g) /\
        In z (groupOf y g) /\
        key = tripleKey x y z /\
        lookup x planets = Some pos /\
        element = getSignElement (Math_floor (longitude pos / 30))
  | TSquare _ _ => False
  end.

(** The Sun at 0 degrees and the Moon at 172 are in opposition; Mars at
    97 degrees is in square with the Sun and in no aspect with the
    Moon. *)
Definition oneSquarePositions : list (string * PlanetPosition) :=
  [ ("sun",  positionAt (mkPlanetInfo "Sun"  "☉" "#FFD700" 1) 0);
    ("moon", positionAt (mkPlanetInfo "Moon" "☽" "#SILVER" 13.2) 172);
    ("mars", positionAt (mkPlanetInfo "Mars" "♂" "#FF4500" 0.5) 97) ].

Definition oneSquareChart : Chart :=
  mkChart oneSquarePositions [] (calculateAspects oneSquarePositions) 0 0 0.

(** ** The chart analyzer: findDominantPlanets *)

(** An entry of the result; the interpretation text is left out. *)
Record DominantPlanet := mkDominant {
  d_planet : string;
  d_score : Z
}.

(** The [switch] on the aspect type. *)
Definition aspectPoints (aspectType : string) : Z :=
  if String.eqb aspectType "conjunction" then 5
  else if String.eqb aspectType "opposition" then 4
  else if String.eqb aspectType "trine" then 3
  else if String.eqb aspectType "square" then 3
  else if String.eqb aspectType "sextile" then 2
  else 1.

(** Angular, succedent and cadent houses. *)
Definition housePoints (houseNum : Z) : Z :=
  if existsb (Z.eqb houseNum) [1; 4; 7; 10]%Z then 5
  else if existsb (Z.eqb houseNum) [2; 5; 8; 11]%Z then 3
  else 1.

(** The [switch] on the dignity. *)
Definition dignityPoints (dignity : string) : Z :=
  if String.eqb dignity "Rulership" then 5
  else if String.eqb dignity "Exaltation" then 4
  else if String.eqb dignity "Detriment" then (-3)
  else if String.eqb dignity "Fall" then (-4)
  else 0.

(** [planetScores[key] += points].  On a key the object does not hold
    the sum is NaN and the order of the later sort is left to the
    engine: that case is outside the model and rendered as [None]. *)
Definition addScore (key : string) (points : Z) (scores : list (string * Z))
    : option (list (string * Z)) :=
  match lookup key scores with
  | None => None
  | Some _ =>
      Some (map (fun e => if String.eqb (fst e) key
                          then (fst e, (snd e + points)%Z) else e) scores)
  end.

Definition scoreAspect (scores : list (string * Z)) (aspect : Aspect)
    : option (list (string * Z)) :=
  let aspectPoints := aspectPoints (a_type aspect) in
  match addScore (planet1 aspect) aspectPoints scores with
  | None => None
  | Some scores => addScore (planet2 aspect) aspectPoints scores
  end.

(** The loop over the planets: house placement, then dignity.  A
    TypeError of determinePlanetHouse goes through. *)
Definition scorePlacement (houses : list House) (scores : list (string * Z))
    (entry : string * PlanetPosition) : option (list (string * Z)) :=
  let planetKey := fst entry in
  let planet := snd entry in
  match determinePlanetHouse planet houses with
  | None => None
  | Some houseNum =>
      match addScore planetKey (housePoints houseNum) scores with
      | None => None
      | Some scores =>
          let signIndex := Math_floor (longitude planet / 30) in
          let dignity := getPlanetDignity planetKey signIndex in
          addScore planetKey (dignityPoints dignity) scores
      end
  end.

(** [array.sort((a, b) => rank(b) - rank(a))]: a stable sort by
    descending rank.  Each element goes behind the elements that rank
    as high or higher. *)
Fixpoint insertByRank {A : Type} (rank : A -> Z) (e : A) (l : list A)
    : list A :=
  match l with
  | [] => [e]
  | e' :: rest =>
      if (rank e' >=? rank e)%Z then e' :: insertByRank rank e rest
      else e :: l
  end.

Definition sortByRank {A : Type} (rank : A -> Z) (l : list A) : list A :=
  fold_left (fun acc e => insertByRank rank e acc) l [].

(** [keys.sort((a, b) => planetScores[b] - planetScores[a])], on the
    entries of the score object. *)
Definition sortByScore (l : list (string * Z)) : list (string * Z) :=
  sortByRank snd l.

(** [array.map(f)] for an [f] that may raise. *)
Fixpoint mapM {A B : Type} (f : A -> option B) (l : list A) : option (list B) :=
  match l with
  | [] => Some []
  | x :: rest =>
      match f x, mapM f rest with
      | Some y, Some ys => Some (y :: ys)
      | _, _ => None
      end
  end.

Definition findDominantPlanets (chartData : Chart) : option (list DominantPlanet) :=
  let planets := c_planets chartData in
  let aspects := c_aspects chartData in
  let houses := c_houses chartData in
  let planetScores := map (fun e => (fst e, 0%Z)) planets in
  match foldM scoreAspect aspects planetScores with
  | None => None
  | Some planetScores =>
      match foldM (scorePlacement houses) planets planetScores with
      | None => None
      | Some planetScores =>
          let sortedPlanets := sortByScore planetScores in
          mapM (fun e =>
                  match lookup (fst e) planets with
                  | None => None
                  | Some planet =>
                      Some (mkDominant (name (registry planet)) (snd e))
                  end)
               (firstn 3 sortedPlanets)
      end
  end.

(** The points a planet takes from the aspects: those of every aspect
    it is the first planet of, and of every aspect it is the second
    planet of. *)
Fixpoint aspectScore (key : string) (aspects : list Aspect) : Z :=
  match aspects with
  | [] => 0
  | a :: rest =>
      ((if String.eqb (planet1 a) key then aspectPoints (a_type a) else 0)
       + (if String.eqb (planet2 a) key then aspectPoints (a_type a) else 0)
       + aspectScore key rest)%Z
  end.

(** A list in descending order of rank. *)
Definition descendingBy {A : Type} (rank : A -> Z) (l : list A) : Prop :=
  StronglySorted (fun a b => (rank b <= rank a)%Z) l.

Definition descending (l : list (string * Z)) : Prop := descendingBy snd l.

(** The points a planet takes from its placement: its house, then its
    dignity in the sign of its longitude. *)
Definition placementScore (houseNum : Z) (planetKey : string)
    (planet : PlanetPosition) : Z :=
  (housePoints houseNum
   + dignityPoints (getPlanetDignity planetKey
                      (Math_floor (longitude planet / 30))))%Z.

(** The ten registry planets, all at 0 degrees. *)
Definition conjunctPositions : list (string * PlanetPosition) :=
  map (fun e => (fst e, positionAt (snd e) 0)) planets.

Definition conjunctChart : Chart :=
  mkChart conjunctPositions [] (calculateAspects conjunctPositions) 0 0 0.

(** ** The chart analyzer: analyzeAspects *)

(** An entry of the result; the interpretation text is left out. *)
Record AspectAnalysis := mkAspectAnalysis {
  an_aspect : string;
  an_symbol : string;
  an_planets : string;
  an_angle : R;
  an_orb : R;
  an_influence : string;
  an_applying : bool
}.

Definition strengthOrder : list (string * Z) :=
  [ ("Strong", 3%Z); ("Harmonious", 2%Z); ("Challenging", 2%Z);
    ("Mild", 1%Z); ("Adjustment", 1%Z); ("Creative", 1%Z) ].

(** The body of the [forEach]: nothing is pushed for an aspect one of
    whose planets the chart does not hold. *)
Definition analysisOf (planets : list (string * PlanetPosition))
    (aspect : Aspect) : list AspectAnalysis :=
  match lookup (planet1 aspect) planets, lookup (planet2 aspect) planets with
  | Some planet1, Some planet2 =>
      [ mkAspectAnalysis (a_name aspect) (a_symbol aspect)
          (name (registry planet1) ++ " - " ++ name (registry planet2))
          (a_angle aspect) (a_orb aspect) (a_influence aspect)
          (applying aspect) ]
  | _, _ => []
  end.

Definition strengthOf (a : AspectAnalysis) : option Z :=
  lookup (an_influence a) strengthOrder.

Definition rankOf (a : AspectAnalysis) : Z :=
  match strengthOf a with
  | Some n => n
  | None => 0%Z
  end.

(** With fewer than two entries the comparator is not called.  On an
    influence that [strengthOrder] does not hold the comparator returns
    NaN and the order is left to the engine: that case is outside the
    model and rendered as [None]. *)
Definition analyzeAspects (chartData : Chart) : option (list AspectAnalysis) :=
  let aspects := c_aspects chartData in
  let planets := c_planets chartData in
  let analysis := flat_map (analysisOf planets) aspects in
  match analysis with
  | [] => Some analysis
  | [_] => Some analysis
  | _ =>
      match mapM strengthOf analysis with
      | None => None
      | Some _ => Some (sortByRank rankOf analysis)
      end
  end.

(** The entries of a list that have a given rank, in the order of the
    list. *)
Definition ofRank {A : Type} (rank : A -> Z) (r : Z) (l : list A) : list A :=
  filter (fun a => Z.eqb (rank a) r) l.

(** ** The remainder of the specification *)

(** The specification writes [mod] for the remainder that lies in
    [[0, m)]; the [%] of the code, [js_rem], keeps the sign of the
    dividend instead. *)
Definition spec_mod (x m : R) : R := x - m * IZR (Math_floor (x / m)).

(** ** Rounding to a double *)

(** The numbers of the code are IEEE 754 doubles.  Elsewhere in this
    file sums and products are those of the real numbers; for the loop
    of the equal houses the rounding of the sum is written out. *)

(** The gap between neighbouring doubles at [x], for [0 <= x < 1024]:
    [2^-43] from 512 on and half as much in each binade below, down to
    the gap [2^-1074] of the subnormal numbers. *)
Fixpoint ulpFrom (binades : nat) (bound gap x : R) : R :=
  match binades with
  | O => gap
  | S n => if Rleb bound x then gap else ulpFrom n (bound / 2) (gap / 2) x
  end.

Definition ulp (x : R) : R := ulpFrom 1031 512 (/ 2 ^ 43) x.

(** The nearest integer, the even one of the two at a tie. *)
Definition nearestEven (y : R) : Z :=
  let n := Math_floor y in
  if Rltb (y - IZR n) (/ 2) then n
  else if Rltb (/ 2) (y - IZR n) then (n + 1)%Z
  else if Z.even n then n else (n + 1)%Z.

(** Rounding to the nearest double, for [0 <= x < 1024]. *)
Definition roundDouble (x : R) : R := IZR (nearestEven (x / ulp x)) * ulp x.

(** The loop of the equal branch of calculateHouses, from the ascendant
    on, with the result of [ascendant + i * 30] rounded by [fl]: the
    product [i * 30] is an integer and [%] is exact on doubles.  With
    [fl] the identity this is the equal branch of [calculateHouses]. *)
Definition calculateHousesEqual (fl : R -> R) (ascendant : R) : list House :=
  map (fun i : nat =>
         mkHouse (Z.of_nat i + 1) (js_rem (fl (ascendant + INR i * 30)) 360)
           "Equal")
      indices12.

(** ** A chart with the Sun at a negative longitude *)





(* ================================================================== *)
(** * Theorems                                                         *)
(* ================================================================== *)

(** ** Numeric primitives *)

Lemma Math_floor_IZR_div (a b : Z) :
  (0 < b)%Z -> Math_floor (IZR a / IZR b) = (a / b)%Z.
Proof.
  intros Hb. unfold Math_floor. symmetry. apply Int_part_spec.
  assert (Hb' : 0 < IZR b) by (apply IZR_lt; exact Hb).
  pose proof (Z.div_mod a b ltac:(lia)) as Hdm.
  pose proof (Z.mod_pos_bound a b Hb) as Hm.
  assert (Ha : IZR a = IZR b * IZR (a / b) + IZR (a mod b)).
  { rewrite <- mult_IZR, <- plus_IZR. f_equal. exact Hdm. }
  assert (H0 : 0 <= IZR (a mod b)) by (apply IZR_le; lia).
  assert (H1 : IZR (a mod b) < IZR b) by (apply IZR_lt; lia).
  assert (Hq : IZR a / IZR b = IZR (a / b) + IZR (a mod b) / IZR b).
  { rewrite Ha. field. lra. }
  assert (Hf0 : 0 <= IZR (a mod b) / IZR b).
  { apply Rmult_le_pos; [exact H0 | left; apply Rinv_0_lt_compat; exact Hb']. }
  assert (Hf1 : IZR (a mod b) / IZR b < 1).
  { apply Rmult_lt_reg_r with (IZR b); [exact Hb'|].
    unfold Rdiv. rewrite Rmult_assoc, Rinv_l by lra. lra. }
  rewrite Hq. lra.
Qed.

Lemma Math_floor_bounds (x : R) :
  IZR (Math_floor x) <= x < IZR (Math_floor x) + 1.
Proof.
  unfold Math_floor. destruct (base_Int_part x). lra.
Qed.

Lemma Math_floor_unique (x : R) (z : Z) :
  IZR z <= x < IZR z + 1 -> Math_floor x = z.
Proof.
  intros [H1 H2]. unfold Math_floor. symmetry. apply Int_part_spec. lra.
Qed.

Lemma div_between (x y a b : R) :
  0 < y -> a * y <= x < b * y -> a <= x / y < b.
Proof.
  intros Hy [H1 H2].
  assert (Hx : x = x / y * y) by (field; lra).
  split.
  - apply Rmult_le_reg_r with y; [exact Hy | lra].
  - apply Rmult_lt_reg_r with y; [exact Hy | lra].
Qed.

Lemma Rtrunc_nonneg (x : R) : 0 <= x -> Rtrunc x = Math_floor x.
Proof.
  intros H. unfold Rtrunc. destruct (Rle_dec 0 x); [reflexivity | contradiction].
Qed.

Lemma Rtrunc_neg (x : R) : x < 0 -> Rtrunc x = (- Math_floor (- x))%Z.
Proof.
  intros H. unfold Rtrunc. destruct (Rle_dec 0 x); [lra | reflexivity].
Qed.

Lemma Rtrunc_bounds_nonneg (x : R) :
  0 <= x -> IZR (Rtrunc x) <= x < IZR (Rtrunc x) + 1.
Proof. intros H. rewrite Rtrunc_nonneg by exact H. apply Math_floor_bounds. Qed.

Lemma Rtrunc_bounds_neg (x : R) :
  x < 0 -> IZR (Rtrunc x) - 1 < x <= IZR (Rtrunc x).
Proof.
  intros H. rewrite Rtrunc_neg by exact H. rewrite opp_IZR.
  pose proof (Math_floor_bounds (- x)). lra.
Qed.

(** The remainder of a non-negative dividend lies in [[0, y)]. *)
Lemma js_rem_nonneg (x y : R) :
  0 <= x -> 0 < y -> 0 <= js_rem x y < y.
Proof.
  intros Hx Hy. unfold js_rem.
  assert (Hq : 0 <= x / y).
  { apply (div_between x y 0 (x / y + 1)); [exact Hy|].
    split; [lra|]. replace ((x / y + 1) * y) with (x + y) by (field; lra). lra. }
  pose proof (Rtrunc_bounds_nonneg (x / y) Hq) as [B1 B2].
  assert (Hxy : x = x / y * y) by (field; lra).
  set (q := IZR (Rtrunc (x / y))) in *.
  split; nra.
Qed.

(** The remainder of a negative dividend lies in [(-y, 0]]. *)
Lemma js_rem_neg (x y : R) :
  x < 0 -> 0 < y -> - y < js_rem x y <= 0.
Proof.
  intros Hx Hy. unfold js_rem.
  assert (Hq : x / y < 0).
  { apply (div_between x y (x / y - 1) 0); [exact Hy|].
    split; [|lra]. replace ((x / y - 1) * y) with (x - y) by (field; lra). lra. }
  pose proof (Rtrunc_bounds_neg (x / y) Hq) as [B1 B2].
  assert (Hxy : x = x / y * y) by (field; lra).
  set (q := IZR (Rtrunc (x / y))) in *.
  split; nra.
Qed.

Lemma js_rem_abs (x y : R) : 0 < y -> - y < js_rem x y < y.
Proof.
  intros Hy. destruct (Rle_dec 0 x) as [H|H].
  - pose proof (js_rem_nonneg x y H Hy). lra.
  - pose proof (js_rem_neg x y ltac:(lra) Hy). lra.
Qed.

(** A dividend already smaller than the divisor is returned unchanged. *)
Lemma js_rem_small (x y : R) : - y < x < y -> js_rem x y = x.
Proof.
  intros [H1 H2]. assert (Hy : 0 < y) by lra. unfold js_rem.
  destruct (Rle_dec 0 x) as [H|H].
  - assert (Hq : 0 <= x / y < 1) by (apply div_between; lra).
    rewrite Rtrunc_nonneg by lra.
    rewrite (Math_floor_unique (x / y) 0) by (simpl; lra). lra.
  - assert (Hq : 0 <= - x / y < 1) by (apply div_between; lra).
    assert (Hn : x / y < 0).
    { destruct (div_between x y (-1) 0 Hy); lra. }
    rewrite Rtrunc_neg by exact Hn.
    replace (- (x / y)) with (- x / y) by (field; lra).
    rewrite (Math_floor_unique (- x / y) 0) by (simpl; lra). simpl. lra.
Qed.

(** One full turn is taken off a dividend in [[y, 2y)]. *)
Lemma js_rem_once (x y : R) : y <= x < 2 * y -> 0 < y -> js_rem x y = x - y.
Proof.
  intros [H1 H2] Hy. unfold js_rem.
  assert (Hq : 1 <= x / y < 2) by (apply div_between; lra).
  rewrite Rtrunc_nonneg by lra.
  rewrite (Math_floor_unique (x / y) 1) by (simpl; lra). lra.
Qed.

Lemma Rltb_true (x y : R) : Rltb x y = true <-> x < y.
Proof. unfold Rltb. destruct (Rlt_dec x y); split; intros; auto; discriminate. Qed.

Lemma Rltb_false (x y : R) : Rltb x y = false <-> y <= x.
Proof.
  unfold Rltb. destruct (Rlt_dec x y); split; intros; auto; try discriminate; lra.
Qed.

Lemma Rleb_true (x y : R) : Rleb x y = true <-> x <= y.
Proof. unfold Rleb. destruct (Rle_dec x y); split; intros; auto; discriminate. Qed.

Lemma Rleb_false (x y : R) : Rleb x y = false <-> y < x.
Proof.
  unfold Rleb. destruct (Rle_dec x y); split; intros; auto; try discriminate; lra.
Qed.

(** ** Julian Day *)

Lemma calculateJulianDay_dayNumber (d : JsDate) :
  calculateJulianDay d
  = IZR (dayNumber d) + IZR (secondsOfDay d) / 86400 - 1524.5.
Proof.
  unfold calculateJulianDay, dayNumber, yearStart, monthStart,
    shiftedYear, shiftedMonth, secondsOfDay.
  set (y := if (getMonth d + 1 >? 2)%Z then getFullYear d
            else (getFullYear d - 1)%Z).
  set (m := if (getMonth d + 1 >? 2)%Z then (getMonth d + 1)%Z
            else (getMonth d + 1 + 12)%Z).
  replace (IZR y / 100) with (IZR y / IZR 100) by reflexivity.
  rewrite (Math_floor_IZR_div y 100) by lia.
  replace (IZR (y / 100) / 4) with (IZR (y / 100) / IZR 4) by reflexivity.
  rewrite (Math_floor_IZR_div (y / 100) 4) by lia.
  replace (365.25 * (IZR y + 4716)) with (IZR (1461 * (y + 4716)) / IZR 4)
    by (rewrite mult_IZR, plus_IZR; lra).
  rewrite Math_floor_IZR_div by lia.
  replace (30.6001 * (IZR m + 1)) with (IZR (306001 * (m + 1)) / IZR 10000)
    by (rewrite mult_IZR, plus_IZR; lra).
  rewrite Math_floor_IZR_div by lia.
  repeat rewrite plus_IZR. repeat rewrite minus_IZR.
  repeat rewrite plus_IZR. repeat rewrite mult_IZR. lra.
Qed.

(** One shifted year (March to February) is 365 days long, or 366 when
    the February that closes it belongs to a leap year. *)
Lemma yearStart_succ (y : Z) :
  yearStart (y + 1) = (yearStart y + 365 + (if isLeapYear (y + 1) then 1 else 0))%Z.
Proof.
  unfold yearStart, isLeapYear.
  destruct ((y + 1) mod 4 =? 0)%Z eqn:E4;
  destruct ((y + 1) mod 100 =? 0)%Z eqn:E100;
  destruct ((y + 1) mod 400 =? 0)%Z eqn:E400; cbn [andb orb negb];
  rewrite ?Z.eqb_eq, ?Z.eqb_neq in *;
  Z.div_mod_to_equations; lia.
Qed.

Lemma yearStart_step_ge (y : Z) : (yearStart y + 365 <= yearStart (y + 1))%Z.
Proof. rewrite yearStart_succ. destruct (isLeapYear (y + 1)); lia. Qed.

Lemma yearStart_mono (y : Z) (k : nat) :
  (yearStart y <= yearStart (y + Z.of_nat k))%Z.
Proof.
  induction k as [|k IH].
  - replace (y + Z.of_nat 0)%Z with y by lia. lia.
  - replace (y + Z.of_nat (S k))%Z with (y + Z.of_nat k + 1)%Z by lia.
    pose proof (yearStart_step_ge (y + Z.of_nat k)). lia.
Qed.

Lemma yearStart_lt (y1 y2 : Z) :
  (y1 < y2)%Z ->
  (yearStart y1 + 365 + (if isLeapYear (y1 + 1) then 1 else 0)
   <= yearStart y2)%Z.
Proof.
  intros H. rewrite <- yearStart_succ.
  replace y2 with (y1 + 1 + Z.of_nat (Z.to_nat (y2 - y1 - 1)))%Z by lia.
  apply yearStart_mono.
Qed.

Lemma month_cases (m : Z) :
  (0 <= m <= 11)%Z ->
  m = 0%Z \/ m = 1%Z \/ m = 2%Z \/ m = 3%Z \/ m = 4%Z \/ m = 5%Z \/
  m = 6%Z \/ m = 7%Z \/ m = 8%Z \/ m = 9%Z \/ m = 10%Z \/ m = 11%Z.
Proof. lia. Qed.

Ltac split_month H :=
  apply month_cases in H;
  destruct H as [H|[H|[H|[H|[H|[H|[H|[H|[H|[H|[H|H]]]]]]]]]]]; subst.

(** Evaluates the month offsets and the January/February test once the
    month is a numeral. *)
Ltac calc_months :=
  repeat match goal with
  | |- context [((306001 * ?e) / 10000)%Z] =>
      let v := eval vm_compute in ((306001 * e) / 10000)%Z in
      change ((306001 * e) / 10000)%Z with v
  | |- context [(?a >? 2)%Z] =>
      let v := eval vm_compute in (a >? 2)%Z in
      change (a >? 2)%Z with v
  end;
  cbv iota.

(** Inside its shifted year a valid date falls between day 123 (1 March)
    and day 487 or 488 (the last day of February). *)
Lemma dayInYear_bounds (t : JsDate) :
  validDate t ->
  (123 <= monthStart (shiftedMonth t) + getDate t
       <= 487 + (if isLeapYear (shiftedYear t + 1) then 1 else 0))%Z.
Proof.
  destruct t as [y m d h mi s].
  unfold validDate, shiftedYear, shiftedMonth, monthStart.
  cbn [getFullYear getMonth getDate getHours getMinutes getSeconds].
  intros (Hm & Hd & _).
  split_month Hm; cbn [daysInMonth] in Hd; calc_months;
    try replace (y - 1 + 1)%Z with y by lia;
    destruct (isLeapYear y); destruct (isLeapYear (y + 1)); lia.
Qed.

(** The shift of January and February to the end of the previous year
    keeps the calendar order. *)
Lemma shifted_order (t1 t2 : JsDate) :
  validDate t1 -> validDate t2 ->
  (getFullYear t1 < getFullYear t2)%Z \/
  (getFullYear t1 = getFullYear t2 /\
   ((getMonth t1 < getMonth t2)%Z \/
    (getMonth t1 = getMonth t2 /\ (getDate t1 < getDate t2)%Z))) ->
  (shiftedYear t1 < shiftedYear t2)%Z \/
  (shiftedYear t1 = shiftedYear t2 /\
   (monthStart (shiftedMonth t1) + getDate t1
    < monthStart (shiftedMonth t2) + getDate t2)%Z).
Proof.
  destruct t1 as [y1 m1 d1 h1 mi1 s1], t2 as [y2 m2 d2 h2 mi2 s2].
  unfold validDate, shiftedYear, shiftedMonth, monthStart.
  cbn [getFullYear getMonth getDate getHours getMinutes getSeconds].
  intros (Hm1 & Hd1 & _) (Hm2 & Hd2 & _) Hlt.
  split_month Hm1; split_month Hm2; cbn [daysInMonth] in Hd1, Hd2;
    calc_months; destruct (isLeapYear y1); destruct (isLeapYear y2); lia.
Qed.

(** The day count is strictly increasing along the calendar. *)
Lemma dayNumber_lt (t1 t2 : JsDate) :
  validDate t1 -> validDate t2 ->
  (getFullYear t1 < getFullYear t2)%Z \/
  (getFullYear t1 = getFullYear t2 /\
   ((getMonth t1 < getMonth t2)%Z \/
    (getMonth t1 = getMonth t2 /\ (getDate t1 < getDate t2)%Z))) ->
  (dayNumber t1 < dayNumber t2)%Z.
Proof.
  intros V1 V2 Hlt. unfold dayNumber.
  pose proof (dayInYear_bounds t1 V1) as B1.
  pose proof (dayInYear_bounds t2 V2) as B2.
  destruct (shifted_order t1 t2 V1 V2 Hlt) as [Hy | [Hy Hd]].
  - pose proof (yearStart_lt _ _ Hy). lia.
  - rewrite Hy. lia.
Qed.

Lemma secondsOfDay_bounds (t : JsDate) :
  validDate t -> (0 <= secondsOfDay t < 86400)%Z.
Proof. unfold validDate, secondsOfDay. intros (_ & _ & Hh & Hm & Hs). lia. Qed.

(** C6. calculateJulianDay is strictly monotone: of two valid Gregorian
    date/times, the earlier one has the strictly smaller Julian Day. *)
Theorem calculateJulianDay_strictly_monotone (t1 t2 : JsDate) :
  validDate t1 -> validDate t2 -> earlier t1 t2 ->
  calculateJulianDay t1 < calculateJulianDay t2.
Proof.
  intros V1 V2 E. rewrite !calculateJulianDay_dayNumber.
  pose proof (secondsOfDay_bounds t1 V1) as [L1 U1].
  pose proof (secondsOfDay_bounds t2 V2) as [L2 U2].
  apply IZR_le in L1, L2. apply IZR_lt in U1, U2.
  assert (Hcase : (dayNumber t1 < dayNumber t2)%Z \/
                  (dayNumber t1 = dayNumber t2 /\
                   (secondsOfDay t1 < secondsOfDay t2)%Z)).
  { unfold earlier in E.
    destruct E as [Hy | [Hy [Hm | [Hm [Hd | [Hd Hs]]]]]].
    - left. apply dayNumber_lt; auto.
    - left. apply dayNumber_lt; auto.
    - left. apply dayNumber_lt; auto.
    - right. split; [|exact Hs].
      unfold dayNumber, shiftedYear, shiftedMonth. rewrite Hy, Hm, Hd.
      reflexivity. }
  destruct Hcase as [Hd | [Hd Hs]].
  - assert (H : IZR (dayNumber t1) + 1 <= IZR (dayNumber t2)).
    { rewrite <- plus_IZR. apply IZR_le. lia. }
    lra.
  - rewrite Hd. apply IZR_lt in Hs. lra.
Qed.

(** The theorem applied to noon and one second past noon of 1 January
    2000. *)
Lemma calculateJulianDay_strictly_monotone_witness :
  calculateJulianDay (mkDate 2000 0 1 12 0 0)
  < calculateJulianDay (mkDate 2000 0 1 12 0 1).
Proof.
  apply calculateJulianDay_strictly_monotone.
  - unfold validDate; cbn; lia.
  - unfold validDate; cbn; lia.
  - unfold earlier, secondsOfDay; cbn. right. split; [reflexivity|].
    right. split; [reflexivity|]. right. split; [reflexivity|]. lia.
Defined.

(** ** Planetary positions *)

(** In a host on UTC the base date is noon of 1 January 2000 and its
    Julian Day is the J2000 epoch. *)
Lemma calculateJulianDay_baseDate_utc :
  calculateJulianDay (baseDate 0) = 2451545.
Proof.
  rewrite calculateJulianDay_dayNumber.
  replace (dayNumber (baseDate 0)) with 2453069%Z by (vm_compute; reflexivity).
  replace (secondsOfDay (baseDate 0)) with 43200%Z by (vm_compute; reflexivity).
  lra.
Qed.

Lemma randomOffsetOf_bounds (d rnd : R) : -15 <= randomOffsetOf d rnd <= 15.
Proof.
  unfold randomOffsetOf.
  pose proof (SIN_bound (d * (0.1 + rnd * 0.05))). lra.
Qed.

(** Every emitted position is the loop body at some value of the
    perturbation term inside its range. *)
Lemma calculatePlanetaryPositions_entries (host : Host) (jd lat lon : R)
    (planet : string) (p : PlanetPosition) :
  In (planet, p) (calculatePlanetaryPositions host jd lat lon) ->
  exists info off,
    In (planet, info) planets /\ -15 <= off <= 15 /\
    p = positionEntry (daysSinceJ2000Of host jd) planet info off.
Proof.
  unfold calculatePlanetaryPositions. intros H.
  apply in_map_iff in H. destruct H as [[k info] [Heq Hin]].
  cbn [fst snd] in Heq. inversion Heq; subst.
  exists info, (randomOffsetOf (daysSinceJ2000Of host jd) (Math_random host planet)).
  split; [exact Hin|]. split; [apply randomOffsetOf_bounds | reflexivity].
Qed.

(** From the epoch on, the emitted longitude and sign are in range. *)
Lemma positionEntry_range_from_epoch (d : R) (planet : string)
    (info : PlanetInfo) (off : R) :
  0 <= d -> 0 <= orbSpeed info -> -15 <= off <= 15 ->
  let p := positionEntry d planet info off in
  0 <= longitude p < 360 /\ (0 <= sign p <= 11)%Z /\
  sign p = Math_floor (longitude p / 30).
Proof.
  intros Hd Hs Hoff p. subst p. unfold positionEntry.
  cbn [longitude sign].
  assert (Hb : 0 <= basePosition d (orbSpeed info) < 360).
  { unfold basePosition. apply js_rem_nonneg; [|lra].
    apply Rmult_le_pos; assumption. }
  set (b := basePosition d (orbSpeed info)) in *.
  assert (Hl : 0 <= js_rem (b + off + 360) 360 < 360)
    by (apply js_rem_nonneg; lra).
  set (l := js_rem (b + off + 360) 360) in *.
  split; [exact Hl|]. split; [|reflexivity].
  pose proof (Math_floor_bounds (l / 30)) as [F1 F2].
  assert (Hq : 0 <= l / 30 < 12) by (apply div_between; lra).
  split.
  - apply Z.lt_succ_r. apply lt_IZR. rewrite succ_IZR. lra.
  - apply Z.lt_succ_r. apply lt_IZR. rewrite succ_IZR. simpl. lra.
Qed.

Lemma quarterTurnDraw_range : 0 <= quarterTurnDraw < 1.
Proof.
  unfold quarterTurnDraw. pose proof PI2_3_2. pose proof PI_4. lra.
Qed.

Lemma randomOffsetOf_quarterTurn : randomOffsetOf (-350) quarterTurnDraw = -15.
Proof.
  unfold randomOffsetOf, quarterTurnDraw.
  replace (-350 * (0.1 + ((PI / 2 + 12 * PI) / 350 - 0.1) / 0.05 * 0.05))
    with (- (PI / 2 + 2 * INR 6 * PI)) by (simpl INR; lra).
  rewrite sin_neg, sin_period, sin_PI2. lra.
Qed.

Lemma calculateJulianDay_1999_01_16 :
  calculateJulianDay (mkDate 1999 0 16 12 0 0) = 2451195.
Proof.
  rewrite calculateJulianDay_dayNumber.
  replace (dayNumber (mkDate 1999 0 16 12 0 0)) with 2452719%Z
    by (vm_compute; reflexivity).
  replace (secondsOfDay (mkDate 1999 0 16 12 0 0)) with 43200%Z
    by (vm_compute; reflexivity).
  lra.
Qed.

(** C1. On a host on UTC, for a birth on 16 January 1999 at noon (Julian
    Day 2451195, 350 days before the epoch) and a draw of [Math.random]
    inside [[0, 1)], the Sun is emitted with longitude -5 and sign index
    -1: the longitude leaves [[0, 360)] and the sign index leaves
    [[0, 11]]. *)
Theorem sun_longitude_negative_before_epoch :
  0 <= quarterTurnDraw < 1 /\
  calculateJulianDay (mkDate 1999 0 16 12 0 0) = 2451195 /\
  -15 <= randomOffsetOf (-350) quarterTurnDraw <= 15 /\
  forall lat lon : R,
  exists p,
    lookup "sun"
      (calculatePlanetaryPositions (hostUTC quarterTurnDraw) 2451195 lat lon)
    = Some p /\
    longitude p = -5 /\ sign p = (-1)%Z.
Proof.
  split; [exact quarterTurnDraw_range|].
  split; [exact calculateJulianDay_1999_01_16|].
  split; [apply randomOffsetOf_bounds|].
  intros lat lon.
  unfold calculatePlanetaryPositions, planets.
  cbn [map fst snd lookup].
  replace (String.eqb "sun" "sun") with true by reflexivity.
  eexists. split; [reflexivity|].
  assert (Hd : daysSinceJ2000Of (hostUTC quarterTurnDraw) 2451195 = -350).
  { unfold daysSinceJ2000Of, hostUTC. cbn [tzOffsetMinutes].
    rewrite calculateJulianDay_baseDate_utc. lra. }
  rewrite Hd. unfold hostUTC. cbn [Math_random].
  rewrite randomOffsetOf_quarterTurn.
  unfold positionEntry. cbn [longitude sign orbSpeed].
  assert (Hb : basePosition (-350) 1 = -350).
  { unfold basePosition. replace (-350 * 1) with (-350) by lra.
    apply js_rem_small. lra. }
  rewrite Hb.
  assert (Hl : js_rem (-350 + -15 + 360) 360 = -5).
  { replace (-350 + -15 + 360) with (-5) by lra. apply js_rem_small. lra. }
  rewrite Hl. split; [reflexivity|].
  apply Math_floor_unique. simpl. lra.
Qed.

(** ** Houses *)

(** The ascendant is a longitude in [[0, 360)]. *)
Lemma calculateAscendant_range (jd lat lon : R) :
  0 <= calculateAscendant jd lat lon < 360.
Proof.
  unfold calculateAscendant.
  set (lstRad := calculateLocalSiderealTime jd lon * PI / 180).
  set (t := - cos lstRad / (sin lstRad * cos (lat * PI / 180)
                            - tan 0 * sin (lat * PI / 180))).
  pose proof (atan_bound t) as [A1 A2]. pose proof PI_RGT_0 as Hpi.
  assert (B : -90 < atan t * 180 / PI < 90).
  { assert (E : atan t * 180 / PI * PI = atan t * 180) by (field; lra).
    split; apply Rmult_lt_reg_r with PI; lra. }
  apply js_rem_nonneg; [|lra].
  destruct (Rgtb (cos lstRad) 0); lra.
Qed.

(** A longitude below two turns loses at most one turn. *)
Lemma js_rem_two_turns (x : R) :
  0 <= x < 720 ->
  (x < 360 /\ js_rem x 360 = x) \/ (360 <= x /\ js_rem x 360 = x - 360).
Proof.
  intros [H1 H2]. destruct (Rlt_dec x 360) as [H|H].
  - left. split; [exact H|]. apply js_rem_small. lra.
  - right. split; [lra|]. apply js_rem_once; lra.
Qed.

Lemma equal_first_cusp (jd lat lon : R) :
  js_rem (calculateAscendant jd lat lon + INR 0 * 30) 360
  = calculateAscendant jd lat lon.
Proof.
  pose proof (calculateAscendant_range jd lat lon) as Hasc. simpl INR.
  replace (calculateAscendant jd lat lon + 0 * 30)
    with (calculateAscendant jd lat lon) by lra.
  apply js_rem_small. lra.
Qed.

Lemma calculateHouses_equal (jd lat lon : R) :
  calculateHouses jd lat lon "equal"
  = map (fun i : nat =>
           mkHouse (Z.of_nat i + 1)
             (js_rem (calculateAscendant jd lat lon + INR i * 30) 360) "Equal")
        indices12.
Proof. unfold calculateHouses. reflexivity. Qed.

(** In exact arithmetic: with the equal system calculateHouses returns
    twelve cusps numbered 1 to 12; cusp [i] is [(ascendant + i*30) % 360],
    the first cusp is the ascendant itself, and each cusp differs from
    the next one (the twelfth from the first) by 30 degrees modulo 360.
    The rounding of the sum is treated with [calculateHousesEqual]. *)
Lemma calculateHouses_equal_exact (jd lat lon : R) :
  let ascendant := calculateAscendant jd lat lon in
  let houses := calculateHouses jd lat lon "equal" in
  List.length houses = 12%nat /\
  map number houses = [1; 2; 3; 4; 5; 6; 7; 8; 9; 10; 11; 12]%Z /\
  (forall i : nat, (i < 12)%nat ->
     cuspAt houses i = js_rem (ascendant + INR i * 30) 360) /\
  cuspAt houses 0 = ascendant /\
  (forall i : nat, (i < 12)%nat ->
     let next := cuspAt houses (Nat.modulo (i + 1) 12) in
     next - cuspAt houses i = 30 \/ next - cuspAt houses i = 30 - 360).
Proof.
  intros ascendant houses. subst houses. rewrite calculateHouses_equal.
  fold ascendant. pose proof (calculateAscendant_range jd lat lon) as Hasc.
  fold ascendant in Hasc.
  unfold indices12. cbn [seq map List.length number].
  split; [reflexivity|]. split; [reflexivity|].
  split; [|split].
  - intros i Hi.
    do 12 (destruct i as [|i]; [reflexivity|]). lia.
  - unfold cuspAt. cbn [nth cusp]. apply equal_first_cusp.
  - intros i Hi. unfold cuspAt.
    do 12 (destruct i as [|i];
      [ cbn [Nat.modulo Nat.divmod Nat.add fst snd Nat.sub nth cusp];
        simpl INR;
        repeat match goal with
        | |- context [js_rem ?x 360] =>
            let H := fresh "T" in
            destruct (js_rem_two_turns x ltac:(lra)) as [[? H] | [? H]];
            rewrite H
        end; lra |]).
    lia.
Qed.

(** The sort puts the twelve houses pushed in the order 1, 10, 2, 3, 4,
    5, 6, 7, 8, 9, 11, 12 back into the order of their numbers. *)
Lemma sortByNumber_pushed (c1 c2 c3 c4 c5 c6 c7 c8 c9 c10 c11 c12 : R)
    (s : string) :
  sortByNumber
    [ mkHouse 1 c1 s; mkHouse 10 c10 s; mkHouse 2 c2 s; mkHouse 3 c3 s;
      mkHouse 4 c4 s; mkHouse 5 c5 s; mkHouse 6 c6 s; mkHouse 7 c7 s;
      mkHouse 8 c8 s; mkHouse 9 c9 s; mkHouse 11 c11 s; mkHouse 12 c12 s ]
  = [ mkHouse 1 c1 s; mkHouse 2 c2 s; mkHouse 3 c3 s; mkHouse 4 c4 s;
      mkHouse 5 c5 s; mkHouse 6 c6 s; mkHouse 7 c7 s; mkHouse 8 c8 s;
      mkHouse 9 c9 s; mkHouse 10 c10 s; mkHouse 11 c11 s; mkHouse 12 c12 s ].
Proof. reflexivity. Qed.

(** Outside the equal system the first house is the ascendant and the
    tenth is the midheaven. *)
Lemma calculateHouses_placidus_angles (jd lat lon : R) (sys : string) :
  String.eqb sys "equal" = false ->
  exists c2 c3 c4 c5 c6 c7 c8 c9 c11 c12,
    calculateHouses jd lat lon sys
    = [ mkHouse 1 (calculateAscendant jd lat lon) "Placidus";
        mkHouse 2 c2 "Placidus"; mkHouse 3 c3 "Placidus";
        mkHouse 4 c4 "Placidus"; mkHouse 5 c5 "Placidus";
        mkHouse 6 c6 "Placidus"; mkHouse 7 c7 "Placidus";
        mkHouse 8 c8 "Placidus"; mkHouse 9 c9 "Placidus";
        mkHouse 10 (calculateMidheaven (calculateLocalSiderealTime jd lon))
          "Placidus";
        mkHouse 11 c11 "Placidus"; mkHouse 12 c12 "Placidus" ].
Proof.
  intros Hsys. unfold calculateHouses. rewrite Hsys. cbv zeta.
  unfold push. cbn [app]. rewrite sortByNumber_pushed.
  do 10 eexists. reflexivity.
Qed.

Lemma spec_mod_small (x m : R) : 0 <= x < m -> spec_mod x m = x.
Proof.
  intros H. unfold spec_mod.
  rewrite (Math_floor_unique (x / m) 0); [lra|].
  assert (Hq : 0 <= x / m < 1) by (apply div_between; lra). simpl. lra.
Qed.

Lemma spec_mod_negative (x m : R) : - m <= x < 0 -> spec_mod x m = x + m.
Proof.
  intros H. unfold spec_mod.
  rewrite (Math_floor_unique (x / m) (-1)); [lra|].
  assert (Hq : -1 <= x / m < 0) by (apply div_between; lra). simpl. lra.
Qed.

Lemma calculateLocalSiderealTime_range (jd lon : R) :
  -360 < calculateLocalSiderealTime jd lon < 360.
Proof.
  unfold calculateLocalSiderealTime. cbv zeta. apply js_rem_abs. lra.
Qed.

(** The chart takes its houses from calculateHouses and its two angles
    from the first and the tenth cusp. *)
Lemma tenth_cusp_of_chart (host : Host) (date : JsDate) (lat lon : R)
    (sys : string) :
  let jd := calculateJulianDay date in
  let houses := calculateHouses jd lat lon sys in
  let chart := calculateNatalChart host date lat lon sys in
  c_houses chart = houses /\
  c_ascendant chart = cuspAt houses 0 /\
  c_midheaven chart = cuspAt houses 9 /\
  cuspAt houses 9
  = if String.eqb sys "equal"
    then js_rem (calculateAscendant jd lat lon + 270) 360
    else calculateMidheaven (calculateLocalSiderealTime jd lon).
Proof.
  intros jd houses chart.
  split; [reflexivity|]. split; [reflexivity|]. split; [reflexivity|].
  subst houses. destruct (String.eqb sys "equal") eqn:Hsys.
  - apply String.eqb_eq in Hsys. subst sys. rewrite calculateHouses_equal.
    unfold indices12, cuspAt. cbn [seq map nth cusp]. simpl INR. f_equal. lra.
  - destruct (calculateHouses_placidus_angles jd lat lon sys Hsys)
      as (c2 & c3 & c4 & c5 & c6 & c7 & c8 & c9 & c11 & c12 & E).
    rewrite E. reflexivity.
Qed.

(** C4, amended.  In the house list that calculateHouses returns, the
    first entry is house 1 and its cusp is the ascendant, for every
    house system; the tenth entry is house 10 and its cusp is the
    chart's midheaven.  For every system but the equal one, and a local
    sidereal time that is not negative, this is the midheaven of the
    specification, [LMST mod 360], in [0, 360); for the equal system it
    is [(ascendant + 270) % 360].  The assembled chart takes its
    ascendant and midheaven from these two cusps. *)
Theorem house_angles (host : Host) (date : JsDate) (lat lon : R)
    (sys : string) :
  let jd := calculateJulianDay date in
  let ascendant := calculateAscendant jd lat lon in
  let LMST := calculateLocalSiderealTime jd lon in
  let houses := calculateHouses jd lat lon sys in
  let chart := calculateNatalChart host date lat lon sys in
  (exists h1 h10,
     nth_error houses 0 = Some h1 /\ number h1 = 1%Z /\ cusp h1 = ascendant /\
     nth_error houses 9 = Some h10 /\ number h10 = 10%Z /\
     cusp h10 = c_midheaven chart) /\
  c_houses chart = houses /\
  c_ascendant chart = ascendant /\
  (String.eqb sys "equal" = false -> 0 <= LMST ->
   c_midheaven chart = spec_mod LMST 360 /\ 0 <= c_midheaven chart < 360) /\
  (String.eqb sys "equal" = true ->
   c_midheaven chart = js_rem (ascendant + 270) 360).
Proof.
  intros jd ascendant LMST houses chart.
  destruct (tenth_cusp_of_chart host date lat lon sys) as (Eh & Ea & Em & E10).
  fold jd in Eh, Ea, Em, E10. fold houses in Eh, Ea, Em, E10.
  fold chart in Eh, Ea, Em. fold ascendant in E10. fold LMST in E10.
  assert (H : exists h1 h10,
     nth_error houses 0 = Some h1 /\ number h1 = 1%Z /\ cusp h1 = ascendant /\
     nth_error houses 9 = Some h10 /\ number h10 = 10%Z /\
     cusp h10 = cuspAt houses 9).
  { subst houses. destruct (String.eqb sys "equal") eqn:Hsys.
    - apply String.eqb_eq in Hsys. subst sys.
      rewrite calculateHouses_equal. fold ascendant.
      unfold indices12, cuspAt. cbn [seq map nth].
      do 2 eexists. cbn [nth_error number cusp].
      repeat split. apply equal_first_cusp.
    - destruct (calculateHouses_placidus_angles jd lat lon sys Hsys)
        as (c2 & c3 & c4 & c5 & c6 & c7 & c8 & c9 & c11 & c12 & E).
      rewrite E. do 2 eexists. cbn [nth_error number cusp].
      repeat split. }
  split.
  { destruct H as (h1 & h10 & H1 & H2 & H3 & H4 & H5 & H6).
    exists h1, h10. rewrite Em. auto 10. }
  split; [exact Eh|]. split.
  { rewrite Ea. destruct H as (h1 & h10 & H1 & _ & H3 & _).
    unfold cuspAt. rewrite (nth_error_nth _ _ _ H1). exact H3. }
  split.
  - intros Hsys Hpos. rewrite Em, E10, Hsys.
    pose proof (calculateLocalSiderealTime_range jd lon) as Hr.
    fold LMST in Hr. unfold calculateMidheaven.
    rewrite js_rem_small by lra. rewrite spec_mod_small by lra.
    split; [reflexivity | lra].
  - intros Hsys. rewrite Em, E10, Hsys. reflexivity.
Qed.

(** At the epoch, for a place on the equator at 145.46061837 degrees
    west, the sidereal time is 135 degrees and the ascendant 45. *)
Lemma calculateLocalSiderealTime_at_135 :
  calculateLocalSiderealTime 2451545 (-145.46061837) = 135.
Proof.
  unfold calculateLocalSiderealTime. cbv zeta.
  match goal with |- js_rem ?x 360 = _ => replace x with 135 by lra end.
  apply js_rem_small. lra.
Qed.

Lemma calculateAscendant_at_135 :
  calculateAscendant 2451545 0 (-145.46061837) = 45.
Proof.
  unfold calculateAscendant. rewrite calculateLocalSiderealTime_at_135.
  cbv zeta.
  replace (135 * PI / 180) with (3 * (PI / 4)) by lra.
  replace (0 * PI / 180) with 0 by lra.
  rewrite cos_3PI4, sin_3PI4, tan_0, cos_0, sin_0.
  pose proof Rlt_sqrt2_0 as Hs.
  assert (Hinv : 0 < / sqrt 2) by (apply Rinv_0_lt_compat; exact Hs).
  replace (- (-1 / sqrt 2) / (1 / sqrt 2 * 1 - 0 * 0)) with 1
    by (field; lra).
  rewrite atan_1.
  assert (Hneg : Rgtb (-1 / sqrt 2) 0 = false).
  { unfold Rgtb. apply Rltb_false. unfold Rdiv. nra. }
  rewrite Hneg.
  replace (PI / 4 * 180 / PI + 360) with 405
    by (field; pose proof PI_RGT_0; lra).
  rewrite js_rem_once by lra. lra.
Qed.

(** The theorem applied to the Placidus-like houses at the epoch, on
    the equator at 145.46061837 degrees west, where the sidereal time is
    135 degrees. *)
Lemma house_angles_witness :
  c_midheaven (calculateNatalChart (hostUTC 0) (mkDate 2000 0 1 12 0 0) 0
                 (-145.46061837) "placidus")
  = spec_mod 135 360.
Proof.
  pose proof (house_angles (hostUTC 0) (mkDate 2000 0 1 12 0 0) 0
                (-145.46061837) "placidus") as H.
  cbv zeta in H. destruct H as (_ & _ & _ & H & _).
  change (calculateJulianDay (mkDate 2000 0 1 12 0 0))
    with (calculateJulianDay (baseDate 0)) in H.
  rewrite calculateJulianDay_baseDate_utc in H.
  rewrite calculateLocalSiderealTime_at_135 in H.
  apply H; [reflexivity | lra].
Defined.

(** C4 does not hold for the equal system: at the epoch, on the
    equator at 145.46061837 degrees west, the tenth cusp and the chart's
    midheaven are 315 degrees while [LMST % 360] is 135. *)
Lemma equal_tenth_cusp_is_not_midheaven :
  let date := mkDate 2000 0 1 12 0 0 in
  let jd := calculateJulianDay date in
  let lon := -145.46061837 in
  let houses := calculateHouses jd 0 lon "equal" in
  let chart := calculateNatalChart (hostUTC 0) date 0 lon "equal" in
  jd = 2451545 /\
  cuspAt houses 9 = 315 /\
  c_midheaven chart = 315 /\
  calculateMidheaven (calculateLocalSiderealTime jd lon) = 135 /\
  cuspAt houses 9 <> calculateMidheaven (calculateLocalSiderealTime jd lon).
Proof.
  intros date jd lon houses chart.
  assert (Hjd : jd = 2451545) by exact calculateJulianDay_baseDate_utc.
  assert (H10 : cuspAt houses 9 = 315).
  { subst houses. rewrite calculateHouses_equal. rewrite Hjd. subst lon.
    rewrite calculateAscendant_at_135.
    unfold indices12, cuspAt. cbn [seq map nth cusp]. simpl INR.
    replace (45 + (1 + 1 + 1 + 1 + 1 + 1 + 1 + 1 + 1) * 30) with 315 by lra.
    apply js_rem_small. lra. }
  assert (Hmc : calculateMidheaven (calculateLocalSiderealTime jd lon) = 135).
  { rewrite Hjd. subst lon. rewrite calculateLocalSiderealTime_at_135.
    unfold calculateMidheaven. apply js_rem_small. lra. }
  split; [exact Hjd|]. split; [exact H10|].
  split; [exact H10|]. split; [exact Hmc|].
  rewrite H10, Hmc. lra.
Qed.

(** ** The end-to-end scenario *)

Lemma calculateJulianDay_scenario : calculateJulianDay scenarioDate = 2451545.
Proof. exact calculateJulianDay_baseDate_utc. Qed.

(** On a host on UTC the scenario behaves as described: the birth moment
    is the epoch, every base longitude is 0, the Sun falls in sign 0
    whatever [Math.random] returns, and the equal houses start at the
    ascendant. *)
Lemma scenario_on_utc_host (rnd : R) :
  let host := hostUTC rnd in
  let jd := calculateJulianDay scenarioDate in
  let chart := calculateNatalChart host scenarioDate scenarioLatitude
                 scenarioLongitude "equal" in
  daysSinceJ2000Of host jd = 0 /\
  (forall planet info, In (planet, info) planets ->
     basePosition (daysSinceJ2000Of host jd) (orbSpeed info) = 0) /\
  (exists p, lookup "sun" (c_planets chart) = Some p /\
             longitude p = 0 /\ sign p = 0%Z) /\
  c_houses chart
  = calculateHouses jd scenarioLatitude scenarioLongitude "equal".
Proof.
  intros host jd chart.
  assert (Hd : daysSinceJ2000Of host jd = 0).
  { unfold daysSinceJ2000Of, host, hostUTC, jd. cbn [tzOffsetMinutes].
    rewrite calculateJulianDay_scenario, calculateJulianDay_baseDate_utc. lra. }
  assert (Hz : forall x, js_rem (0 * x) 360 = 0).
  { intros x. replace (0 * x) with 0 by lra. apply js_rem_small. lra. }
  split; [exact Hd|]. split.
  - intros planet info _. rewrite Hd. unfold basePosition. apply Hz.
  - split; [|reflexivity].
    subst chart. unfold calculateNatalChart. cbn [c_planets]. fold jd.
    unfold calculatePlanetaryPositions, planets. cbn [map fst snd lookup].
    replace (String.eqb "sun" "sun") with true by reflexivity.
    eexists. split; [reflexivity|]. rewrite Hd.
    unfold positionEntry, basePosition. cbn [longitude sign orbSpeed].
    rewrite Hz. unfold randomOffsetOf.
    replace (0 * (0.1 + Math_random host "sun" * 0.05)) with 0 by lra.
    rewrite sin_0.
    replace (0 + 0 * 15 + 360) with 360 by lra.
    rewrite js_rem_once by lra.
    replace (360 - 360) with 0 by lra. split; [reflexivity|].
    apply Math_floor_unique. simpl. lra.
Qed.

(** C9. On a host on New York time the same birth data do not fall on
    the code's epoch: the base date is read back as 07:00, the days since
    the epoch are 5/24 instead of 0, and the Moon's base longitude is
    2.75 degrees instead of 0. *)
Theorem scenario_on_new_york_host (rnd : R) :
  let host := hostNewYork rnd in
  let jd := calculateJulianDay scenarioDate in
  baseDate (tzOffsetMinutes host) = mkDate 2000 0 1 7 0 0 /\
  daysSinceJ2000Of host jd = 5 / 24 /\
  daysSinceJ2000Of host jd <> 0 /\
  (exists info, lookup "moon" planets = Some info /\
     basePosition (daysSinceJ2000Of host jd) (orbSpeed info) = 2.75).
Proof.
  intros host jd.
  assert (Hb : baseDate (tzOffsetMinutes host) = mkDate 2000 0 1 7 0 0)
    by reflexivity.
  assert (Hd : daysSinceJ2000Of host jd = 5 / 24).
  { unfold daysSinceJ2000Of. rewrite Hb. unfold jd.
    rewrite calculateJulianDay_scenario, calculateJulianDay_dayNumber.
    replace (dayNumber (mkDate 2000 0 1 7 0 0)) with 2453069%Z
      by (vm_compute; reflexivity).
    replace (secondsOfDay (mkDate 2000 0 1 7 0 0)) with 25200%Z
      by (vm_compute; reflexivity).
    lra. }
  split; [exact Hb|]. split; [exact Hd|]. split; [rewrite Hd; lra|].
  unfold planets. cbn [lookup].
  replace (String.eqb "moon" "sun") with false by reflexivity.
  replace (String.eqb "moon" "moon") with true by reflexivity.
  eexists. split; [reflexivity|]. rewrite Hd. cbn [orbSpeed].
  unfold basePosition. replace (5 / 24 * 13.2) with 2.75 by lra.
  apply js_rem_small. lra.
Qed.

(** ** House placement *)

Lemma determinePlanetHouse_loop_result (lon : R) (houses : list House)
    (todo : list nat) :
  List.length houses = 12%nat ->
  Forall (fun i => (i < 12)%nat) todo ->
  exists n,
    determinePlanetHouse_loop lon houses todo = Some n /\
    (n = 1%Z \/ exists i, In i todo /\ n = (Z.of_nat i + 1)%Z) /\
    ((forall i hs he, In i todo ->
        nth_error houses i = Some hs ->
        nth_error houses (Nat.modulo (i + 1) 12) = Some he ->
        inHouseArc lon (cusp hs) (cusp he) = false) ->
     n = 1%Z).
Proof.
  intros Hlen Hall. induction Hall as [|i todo Hi Hall IH].
  - exists 1%Z. cbn. auto.
  - cbn [determinePlanetHouse_loop].
    assert (Hs : exists hs, nth_error houses i = Some hs).
    { destruct (nth_error houses i) eqn:E; [eauto|].
      apply nth_error_None in E. lia. }
    assert (He : exists he, nth_error houses (Nat.modulo (i + 1) 12) = Some he).
    { destruct (nth_error houses (Nat.modulo (i + 1) 12)) eqn:E; [eauto|].
      apply nth_error_None in E.
      pose proof (Nat.mod_upper_bound (i + 1) 12 ltac:(lia)). lia. }
    destruct Hs as [hs Hs], He as [he He]. rewrite Hs, He.
    destruct (inHouseArc lon (cusp hs) (cusp he)) eqn:Harc.
    + exists (Z.of_nat i + 1)%Z. split; [reflexivity|]. split.
      * right. exists i. split; [left; reflexivity | reflexivity].
      * intros Hnone. rewrite (Hnone i hs he (or_introl eq_refl) Hs He) in Harc.
        discriminate.
    + destruct IH as (n & Hn & Hor & Hdef). exists n.
      split; [exact Hn|]. split.
      * destruct Hor as [H1 | (j & Hj & Hnj)]; [left; exact H1|].
        right. exists j. split; [right; exact Hj | exact Hnj].
      * intros Hnone. apply Hdef. intros j hs' he' Hj. apply Hnone.
        right. exact Hj.
Qed.

(** C10. On a list of twelve houses determinePlanetHouse returns, and
    returns a number from 1 to 12; when no house arc contains the
    planet's longitude it returns 1. *)
Theorem determinePlanetHouse_total (planetPosition : PlanetPosition)
    (houses : list House) :
  List.length houses = 12%nat ->
  exists n,
    determinePlanetHouse planetPosition houses = Some n /\
    (1 <= n <= 12)%Z /\
    ((forall i hs he, (i < 12)%nat ->
        nth_error houses i = Some hs ->
        nth_error houses (Nat.modulo (i + 1) 12) = Some he ->
        inHouseArc (longitude planetPosition) (cusp hs) (cusp he) = false) ->
     n = 1%Z).
Proof.
  intros Hlen. unfold determinePlanetHouse.
  assert (Hall : Forall (fun i => (i < 12)%nat) indices12).
  { apply Forall_forall. intros i Hi. unfold indices12 in Hi.
    apply in_seq in Hi. lia. }
  destruct (determinePlanetHouse_loop_result (longitude planetPosition)
              houses indices12 Hlen Hall) as (n & Hn & Hor & Hdef).
  exists n. split; [exact Hn|]. split.
  - destruct Hor as [H1 | (i & Hi & Hni)]; [lia|].
    unfold indices12 in Hi. apply in_seq in Hi. lia.
  - intros Hnone. apply Hdef. intros i hs he Hi. apply Hnone.
    unfold indices12 in Hi. apply in_seq in Hi. lia.
Qed.

Lemma inHouseArc_empty (x c : R) : inHouseArc x c c = false.
Proof.
  unfold inHouseArc, Rgeb.
  replace (Rltb c c) with false by (symmetry; apply Rltb_false; lra).
  destruct (Rleb c x) eqn:E1; [|reflexivity].
  apply Rleb_true in E1. cbn [andb]. apply Rltb_false. exact E1.
Qed.

(** The theorem applied to a planet at 5 degrees and twelve houses whose
    cusps are all 0: no arc contains the planet, and the house is 1. *)
Lemma determinePlanetHouse_total_witness :
  determinePlanetHouse
    (mkPlanetPosition 5 0 0 5 false (mkPlanetInfo "Sun" "S" "#FFD700" 1))
    (repeat (mkHouse 1 0 "Equal") 12) = Some 1%Z.
Proof.
  destruct (determinePlanetHouse_total
              (mkPlanetPosition 5 0 0 5 false (mkPlanetInfo "Sun" "S" "#FFD700" 1))
              (repeat (mkHouse 1 0 "Equal") 12) eq_refl)
    as (n & Hn & _ & Hdef).
  rewrite Hn. f_equal. apply Hdef.
  intros i hs he _ Hs He.
  apply nth_error_In, repeat_spec in Hs. apply nth_error_In, repeat_spec in He.
  subst hs he. cbn [cusp]. apply inHouseArc_empty.
Defined.

(** ** Dignities *)

(** C8. getPlanetDignity returns one of the five categories for every
    planet and every sign index, the five categories are distinct, and
    each of the ten planets has a row in the table whose rulership signs
    and detriment signs are disjoint. *)
Theorem getPlanetDignity_total :
  (forall (planet : string) (signIndex : Z),
     In (getPlanetDignity planet signIndex) categories) /\
  NoDup categories /\
  Forall (fun planet =>
            exists row, lookup planet dignities = Some row /\
              forall s, In s (signSet (rulership row)) /\
                        In s (signSet (detriment row)) -> False)
         planetKeys.
Proof.
  split; [|split].
  - intros planet signIndex. unfold getPlanetDignity, categories.
    destruct (lookup planet dignities) as [row|]; [|cbn; tauto].
    destruct (strictEq (rulership row) signIndex
              || arrayIncludes (rulership row) signIndex); [cbn; tauto|].
    destruct (strictEq (exaltation row) signIndex); [cbn; tauto|].
    destruct (strictEq (detriment row) signIndex
              || arrayIncludes (detriment row) signIndex); [cbn; tauto|].
    destruct (strictEq (fall row) signIndex); cbn; tauto.
  - unfold categories.
    repeat (constructor; [cbn; intuition discriminate|]). constructor.
  - unfold planetKeys, planets. cbn [map fst].
    repeat (constructor;
            [ eexists; split; [reflexivity|];
              cbn [signSet rulership detriment In]; intros s; lia |]).
    constructor.
Qed.

(** ** Aspects *)

Lemma separation_sym (x y : R) : separation x y = separation y x.
Proof. unfold separation, Math_abs. rewrite (Rabs_minus_sym x y). reflexivity. Qed.

(** The inner loop pushes at most one aspect, for the pair it was given,
    and of the first type of the table that passes. *)
Lemma checkAspectTypes_spec (k1 k2 : string) (p1 p2 : PlanetPosition)
    (angle : R) (types : list (string * AspectType)) :
  (List.length (checkAspectTypes k1 k2 p1 p2 angle types) <= 1)%nat /\
  forall asp, In asp (checkAspectTypes k1 k2 p1 p2 angle types) ->
    planet1 asp = k1 /\ planet2 asp = k2 /\
    exists (before : list (string * AspectType)) aspect after,
      types = (before ++ (a_type asp, aspect) :: after)%list /\
      withinOrb angle aspect = true /\
      Forall (fun e => withinOrb angle (snd e) = false) before.
Proof.
  induction types as [|[key aspect] rest IH]; cbn [checkAspectTypes].
  - split; [cbn; lia | intros asp []].
  - destruct (withinOrb angle aspect) eqn:Horb.
    + split; [cbn; lia|]. intros asp [Hasp | []]. subst asp.
      cbn [planet1 planet2 a_type]. split; [reflexivity|].
      split; [reflexivity|].
      exists [], aspect, rest. split; [reflexivity|]. split; [exact Horb|].
      constructor.
    + destruct IH as [IHlen IHin]. split; [exact IHlen|].
      intros asp Hasp. destruct (IHin asp Hasp)
        as (H1 & H2 & before & aspect' & after & Heq & Hpass & Hfail).
      split; [exact H1|]. split; [exact H2|].
      exists ((key, aspect) :: before), aspect', after.
      split; [rewrite Heq; reflexivity|]. split; [exact Hpass|].
      constructor; [exact Horb | exact Hfail].
Qed.

Lemma filter_nil_of_false {A : Type} (f : A -> bool) (l : list A) :
  (forall x, In x l -> f x = false) -> filter f l = [].
Proof.
  induction l as [|x l IH]; intros H; [reflexivity|].
  cbn. rewrite (H x (or_introl eq_refl)). apply IH.
  intros y Hy. apply H. right. exact Hy.
Qed.

Lemma filter_length_le {A : Type} (f : A -> bool) (l : list A) :
  (List.length (filter f l) <= List.length l)%nat.
Proof.
  induction l as [|x l IH]; cbn; [lia|]. destruct (f x); cbn; lia.
Qed.

(** Every aspect joins two planets of the chart, the first of them
    earlier in the key order. *)
Lemma calculateAspects_in (ps : list (string * PlanetPosition)) (asp : Aspect) :
  In asp (calculateAspects ps) ->
  exists e1 e2 (pre mid post : list (string * PlanetPosition)),
    ps = (pre ++ e1 :: mid ++ e2 :: post)%list /\
    In asp (aspectsOfPair e1 e2).
Proof.
  induction ps as [|e ps IH]; cbn [calculateAspects]; [intros []|].
  intros H. apply in_app_or in H. destruct H as [H | H].
  - apply in_flat_map in H. destruct H as (e2 & Hin & Hasp).
    apply in_split in Hin. destruct Hin as (mid & post & Hps).
    exists e, e2, [], mid, post. split; [rewrite Hps; reflexivity | exact Hasp].
  - destruct (IH H) as (e1 & e2 & pre & mid & post & Hps & Hasp).
    exists e1, e2, (e :: pre), mid, post.
    split; [rewrite Hps; reflexivity | exact Hasp].
Qed.

Lemma aspectsOfPair_planets (e1 e2 : string * PlanetPosition) (asp : Aspect) :
  In asp (aspectsOfPair e1 e2) ->
  planet1 asp = fst e1 /\ planet2 asp = fst e2.
Proof.
  unfold aspectsOfPair. intros H.
  destruct (checkAspectTypes_spec (fst e1) (fst e2) (snd e1) (snd e2)
              (separation (longitude (snd e1)) (longitude (snd e2)))
              aspectTypes) as [_ Hin].
  destruct (Hin asp H) as (H1 & H2 & _). auto.
Qed.

Lemma calculateAspects_planets (ps : list (string * PlanetPosition))
    (asp : Aspect) :
  In asp (calculateAspects ps) ->
  In (planet1 asp) (map fst ps) /\ In (planet2 asp) (map fst ps).
Proof.
  intros H. destruct (calculateAspects_in ps asp H)
    as (e1 & e2 & pre & mid & post & Hps & Hasp).
  destruct (aspectsOfPair_planets e1 e2 asp Hasp) as [H1 H2].
  rewrite H1, H2, Hps. rewrite !map_app. cbn [map]. rewrite !map_app. cbn [map].
  split; apply in_or_app; right.
  - left. reflexivity.
  - right. apply in_or_app. right. left. reflexivity.
Qed.

Lemma joins_true (a b : string) (asp : Aspect) :
  joins a b asp = true <->
  (planet1 asp = a /\ planet2 asp = b) \/ (planet1 asp = b /\ planet2 asp = a).
Proof.
  unfold joins. rewrite orb_true_iff, !andb_true_iff, !String.eqb_eq. tauto.
Qed.

Lemma joins_false_of_absent (a b : string) (asp : Aspect) :
  (planet1 asp <> a /\ planet1 asp <> b) \/
  (planet2 asp <> a /\ planet2 asp <> b) ->
  joins a b asp = false.
Proof.
  intros H. destruct (joins a b asp) eqn:E; [|reflexivity].
  apply joins_true in E. tauto.
Qed.

Lemma lookup_in_nodup {A : Type} (o : list (string * A)) (k : string) (v : A) :
  NoDup (map fst o) -> In (k, v) o -> lookup k o = Some v.
Proof.
  induction o as [|[k' v'] o IH]; intros Hnd Hin; [destruct Hin|].
  cbn [map fst] in Hnd. inversion Hnd as [|? ? Hnotin Hnd']; subst.
  cbn [lookup]. destruct Hin as [Heq | Hin].
  - inversion Heq; subst. rewrite String.eqb_refl. reflexivity.
  - destruct (String.eqb k k') eqn:E.
    + apply String.eqb_eq in E. subst k'. exfalso. apply Hnotin.
      apply in_map_iff. exists (k, v). split; [reflexivity | exact Hin].
    + apply IH; assumption.
Qed.

(** One turn of the outer loop pushes at most one aspect for a pair. *)
Lemma aspects_row_count (a b : string) (e1 : string * PlanetPosition)
    (rest : list (string * PlanetPosition)) :
  NoDup (map fst rest) -> ~ In (fst e1) (map fst rest) ->
  (List.length (filter (joins a b) (flat_map (fun e2 => aspectsOfPair e1 e2) rest))
   <= 1)%nat.
Proof.
  induction rest as [|e2 rest IH]; intros Hnd Hnotin; [cbn; lia|].
  cbn [map] in Hnd, Hnotin. inversion Hnd as [|? ? Hnotin2 Hnd']; subst.
  cbn [flat_map]. rewrite filter_app, length_app.
  destruct (filter (joins a b) (aspectsOfPair e1 e2)) as [|asp l] eqn:E.
  - cbn [List.length]. apply IH; [exact Hnd'|].
    intros H. apply Hnotin. right. exact H.
  - assert (Hasp : In asp (filter (joins a b) (aspectsOfPair e1 e2)))
      by (rewrite E; left; reflexivity).
    apply filter_In in Hasp. destruct Hasp as [Hin Hj].
    destruct (aspectsOfPair_planets e1 e2 asp Hin) as [P1 P2].
    apply joins_true in Hj. rewrite P1, P2 in Hj.
    rewrite (filter_nil_of_false (joins a b)
               (flat_map (fun e2' => aspectsOfPair e1 e2') rest)).
    + rewrite <- E. cbn [List.length]. rewrite Nat.add_0_r.
      etransitivity; [apply filter_length_le|].
      unfold aspectsOfPair. apply checkAspectTypes_spec.
    + intros asp' Hin'. apply in_flat_map in Hin'.
      destruct Hin' as (e2' & He2' & Hasp').
      destruct (aspectsOfPair_planets e1 e2' asp' Hasp') as [Q1 Q2].
      apply joins_false_of_absent. right. rewrite Q2.
      assert (Hk : In (fst e2') (map fst rest)) by (apply in_map; exact He2').
      split; intros Heq; destruct Hj as [[J1 J2] | [J1 J2]];
        try (apply Hnotin2; congruence);
        try (apply Hnotin; right; congruence).
Qed.

Lemma calculateAspects_count (ps : list (string * PlanetPosition))
    (a b : string) :
  NoDup (map fst ps) ->
  (List.length (filter (joins a b) (calculateAspects ps)) <= 1)%nat.
Proof.
  induction ps as [|e ps IH]; intros Hnd; [cbn; lia|].
  cbn [map] in Hnd. inversion Hnd as [|? ? Hnotin Hnd']; subst.
  cbn [calculateAspects]. rewrite filter_app, length_app.
  destruct (filter (joins a b) (flat_map (fun e2 => aspectsOfPair e e2) ps))
    as [|asp l] eqn:E.
  - cbn [List.length]. apply IH. exact Hnd'.
  - assert (Hasp : In asp (filter (joins a b)
                             (flat_map (fun e2 => aspectsOfPair e e2) ps)))
      by (rewrite E; left; reflexivity).
    apply filter_In in Hasp. destruct Hasp as [Hin Hj].
    apply in_flat_map in Hin. destruct Hin as (e2 & He2 & Hin).
    destruct (aspectsOfPair_planets e e2 asp Hin) as [P1 P2].
    apply joins_true in Hj. rewrite P1 in Hj.
    rewrite (filter_nil_of_false (joins a b) (calculateAspects ps)).
    + rewrite <- E. cbn [List.length]. rewrite Nat.add_0_r.
      apply aspects_row_count; assumption.
    + intros asp' Hin'.
      destruct (calculateAspects_planets ps asp' Hin') as [Q1 Q2].
      destruct (joins a b asp') eqn:Ej; [|reflexivity].
      apply joins_true in Ej. exfalso. apply Hnotin.
      destruct Hj as [[J1 _] | [J1 _]]; destruct Ej as [[K1 K2] | [K1 K2]];
        congruence.
Qed.

(** C2. For a map of positions (its keys distinct) and two distinct
    planets of it, calculateAspects emits at most one aspect for the
    pair, and the type of an emitted aspect is the first entry of the
    table, in its fixed order, whose orb test passes at the angle
    between the two planets. *)
Theorem calculateAspects_first_match (ps : list (string * PlanetPosition))
    (a b : string) (pa pb : PlanetPosition) :
  NoDup (map fst ps) -> a <> b ->
  lookup a ps = Some pa -> lookup b ps = Some pb ->
  map fst aspectTypes
  = [ "conjunction"; "opposition"; "trine"; "square"; "sextile";
      "semisextile"; "semisquare"; "sesquiquadrate"; "quincunx";
      "quintile"; "biquintile" ] /\
  (List.length (filter (joins a b) (calculateAspects ps)) <= 1)%nat /\
  forall asp, In asp (calculateAspects ps) -> joins a b asp = true ->
    firstPassing (separation (longitude pa) (longitude pb)) (a_type asp).
Proof.
  intros Hnd Hab Ha Hb. split; [reflexivity|].
  split; [apply calculateAspects_count; exact Hnd|].
  intros asp Hin Hj.
  destruct (calculateAspects_in ps asp Hin)
    as (e1 & e2 & pre & mid & post & Hps & Hasp).
  assert (L1 : lookup (fst e1) ps = Some (snd e1)).
  { apply lookup_in_nodup; [exact Hnd|]. rewrite Hps.
    apply in_or_app. right. left. destruct e1; reflexivity. }
  assert (L2 : lookup (fst e2) ps = Some (snd e2)).
  { apply lookup_in_nodup; [exact Hnd|]. rewrite Hps.
    apply in_or_app. right. right. apply in_or_app. right. left.
    destruct e2; reflexivity. }
  unfold aspectsOfPair in Hasp.
  destruct (checkAspectTypes_spec (fst e1) (fst e2) (snd e1) (snd e2)
              (separation (longitude (snd e1)) (longitude (snd e2)))
              aspectTypes) as [_ Hspec].
  destruct (Hspec asp Hasp) as (P1 & P2 & Hfirst).
  apply joins_true in Hj. unfold firstPassing.
  destruct Hj as [[J1 J2] | [J1 J2]].
  - assert (snd e1 = pa) by congruence. assert (snd e2 = pb) by congruence.
    subst pa pb. exact Hfirst.
  - assert (snd e1 = pb) by congruence. assert (snd e2 = pa) by congruence.
    subst pa pb. rewrite separation_sym. exact Hfirst.
Qed.

(** ** Pattern detection *)

Lemma withinOrb_true (angle : R) (aspect : AspectType) :
  - at_orb aspect <= angle - at_angle aspect <= at_orb aspect ->
  withinOrb angle aspect = true.
Proof.
  intros H. unfold withinOrb, orbOf, Math_abs. apply Rleb_true.
  apply Rabs_le. exact H.
Qed.

Lemma withinOrb_false (angle : R) (aspect : AspectType) :
  angle - at_angle aspect < - at_orb aspect \/
  at_orb aspect < angle - at_angle aspect ->
  withinOrb angle aspect = false.
Proof.
  intros H. unfold withinOrb, orbOf, Math_abs. apply Rleb_false.
  unfold Rabs. destruct (Rcase_abs (angle - at_angle aspect)); lra.
Qed.

Lemma separation_small (x y : R) :
  0 <= x - y <= 180 -> separation x y = x - y.
Proof.
  intros H. unfold separation, Math_abs, Rgtb.
  rewrite Rabs_pos_eq by lra.
  replace (Rltb 180 (x - y)) with false; [reflexivity|].
  symmetry. apply Rltb_false. lra.
Qed.

Lemma separation_large (x y : R) :
  180 < y - x -> separation x y = 360 - (y - x).
Proof.
  intros H. unfold separation, Math_abs, Rgtb.
  rewrite Rabs_minus_sym. rewrite Rabs_pos_eq by lra.
  replace (Rltb 180 (y - x)) with true; [reflexivity|].
  symmetry. apply Rltb_true. lra.
Qed.

(** Walks the table of aspect types at a numeric angle. *)
Ltac walk_aspect_types :=
  unfold aspectTypes;
  repeat (cbn [checkAspectTypes];
          first [ rewrite withinOrb_false by (cbn [at_angle at_orb]; lra)
                | rewrite withinOrb_true by (cbn [at_angle at_orb]; lra) ]).

(** The aspects of the three positions, as calculateAspects emits
    them. *)
Lemma tSquareChart_aspects :
  map aspectLink (c_aspects tSquareChart)
  = [ ("sun", "moon", "square"); ("sun", "mars", "square");
      ("moon", "mars", "opposition") ].
Proof.
  unfold tSquareChart, tSquarePositions. cbn [c_aspects].
  cbn [calculateAspects flat_map app]. unfold aspectsOfPair, positionAt.
  cbn [fst snd longitude].
  rewrite (separation_sym 0 90), (separation_small 90 0) by lra.
  rewrite (separation_large 0 270) by lra.
  rewrite (separation_sym 90 270), (separation_small 270 90) by lra.
  replace (90 - 0) with 90 by lra.
  replace (360 - (270 - 0)) with 90 by lra.
  replace (270 - 90) with 180 by lra.
  walk_aspect_types.
  reflexivity.
Qed.

(** Pattern detection on an opposition between Moon and Mars and two
    squares stored with the Sun as their first planet. *)
Lemma findSpecialPatterns_focus_first (planets : list (string * PlanetPosition))
    (houses : list House) (a1 a2 a3 : Aspect) (asc mc jd : R) :
  map aspectLink [a1; a2; a3]
  = [ ("sun", "moon", "square"); ("sun", "mars", "square");
      ("moon", "mars", "opposition") ] ->
  findSpecialPatterns (mkChart planets houses [a1; a2; a3] asc mc jd) = Some [].
Proof.
  destruct a1, a2, a3. unfold aspectLink. cbn [map planet1 planet2 a_type].
  intros H. inversion H; subst. reflexivity.
Qed.

(** C3. In the chart of the three positions the Moon and Mars are in
    opposition and the Sun is in square with each of them, yet
    findSpecialPatterns emits no pattern: the T-Square with the Sun as
    focal planet is missed, both squares being stored with the Sun as
    their first planet. *)
Theorem tsquare_missed_when_focus_is_planet1 :
  map aspectLink (c_aspects tSquareChart)
  = [ ("sun", "moon", "square"); ("sun", "mars", "square");
      ("moon", "mars", "opposition") ] /\
  aspectJoins "opposition" (c_aspects tSquareChart) "moon" "mars" /\
  aspectJoins "square" (c_aspects tSquareChart) "sun" "moon" /\
  aspectJoins "square" (c_aspects tSquareChart) "sun" "mars" /\
  findSpecialPatterns tSquareChart = Some [].
Proof.
  pose proof tSquareChart_aspects as Hlinks.
  destruct (c_aspects tSquareChart) as [|a1 [|a2 [|a3 [|a4 rest]]]] eqn:Easp;
    try discriminate Hlinks.
  split; [exact Hlinks|].
  cbn [map] in Hlinks. unfold aspectLink in Hlinks.
  inversion Hlinks as [[H11 H12 H13 H21 H22 H23 H31 H32 H33]].
  assert (J : forall a x y t,
             planet1 a = x -> planet2 a = y -> a_type a = t ->
             In a [a1; a2; a3] -> aspectJoins t [a1; a2; a3] x y).
  { intros a x y t Hx Hy Ht Hin. exists a. split; [exact Hin|].
    split; [exact Ht|]. apply joins_true. left. split; assumption. }
  split; [apply (J a3); cbn [In]; auto; congruence|].
  split; [apply (J a1); cbn [In]; auto; congruence|].
  split; [apply (J a2); cbn [In]; auto; congruence|].
  unfold tSquareChart in *. cbn [c_aspects] in Easp.
  rewrite Easp. apply findSpecialPatterns_focus_first. exact Hlinks.
Qed.

(** *** The trine groups *)

Lemma setHas_true (q : string) (set : list string) :
  setHas q set = true <-> In q set.
Proof.
  unfold setHas. rewrite existsb_exists. split.
  - intros (x & Hin & Heq). apply String.eqb_eq in Heq. subst. exact Hin.
  - intros Hin. exists q. split; [exact Hin | apply String.eqb_refl].
Qed.

Lemma setAdd_in (q x : string) (set : list string) :
  In x (setAdd q set) <-> In x set \/ x = q.
Proof.
  unfold setAdd. destruct (setHas q set) eqn:E.
  - apply setHas_true in E. split; [auto|]. intros [H | H]; subst; auto.
  - rewrite in_app_iff. cbn [In]. intuition.
Qed.

Lemma lookup_none_iff {A : Type} (k : string) (o : list (string * A)) :
  lookup k o = None <-> ~ In k (map fst o).
Proof.
  induction o as [|[k' v] o IH]; cbn [lookup map fst In]; [tauto|].
  destruct (String.eqb k k') eqn:E.
  - apply String.eqb_eq in E. subst. split; [discriminate | tauto].
  - apply String.eqb_neq in E. rewrite IH. split.
    + intros H [H1 | H1]; [congruence | tauto].
    + tauto.
Qed.

Lemma lookup_app {A : Type} (k : string) (o1 o2 : list (string * A)) :
  lookup k (o1 ++ o2)
  = match lookup k o1 with Some v => Some v | None => lookup k o2 end.
Proof.
  induction o1 as [|[k' v] o1 IH]; cbn [lookup app]; [reflexivity|].
  destruct (String.eqb k k'); [reflexivity | exact IH].
Qed.

Lemma ensureGroup_keys (r p : string) (g : Groups) :
  In p (map fst (ensureGroup r g)) <-> p = r \/ In p (map fst g).
Proof.
  unfold ensureGroup. destruct (lookup r g) eqn:E.
  - split; [auto|]. intros [H | H]; [|exact H]. subst.
    destruct (in_dec string_dec r (map fst g)) as [Hin | Hnot]; [exact Hin|].
    apply lookup_none_iff in Hnot. congruence.
  - rewrite map_app, in_app_iff. cbn [map fst In]. intuition.
Qed.

Lemma ensureGroup_groupOf (r p : string) (g : Groups) :
  groupOf p (ensureGroup r g) = groupOf p g.
Proof.
  unfold ensureGroup, groupOf. destruct (lookup r g) eqn:E; [reflexivity|].
  rewrite lookup_app. destruct (lookup p g) eqn:Ep; [reflexivity|].
  cbn [lookup]. destruct (String.eqb p r); reflexivity.
Qed.

Lemma addToGroup_keys (p q : string) (g : Groups) :
  map fst (addToGroup p q g) = map fst g.
Proof.
  induction g as [|[k set] g IH]; cbn [addToGroup map fst]; [reflexivity|].
  destruct (String.eqb p k); cbn [map fst]; [reflexivity|]. f_equal. exact IH.
Qed.

Lemma addToGroup_groupOf (p q r x : string) (g : Groups) :
  In x (groupOf r (addToGroup p q g)) <->
  In x (groupOf r g) \/ (r = p /\ x = q /\ In p (map fst g)).
Proof.
  unfold groupOf. induction g as [|[k set] g IH]; cbn [addToGroup lookup map fst In].
  - tauto.
  - destruct (String.eqb p k) eqn:Epk.
    + apply String.eqb_eq in Epk. subst k. cbn [lookup].
      destruct (String.eqb r p) eqn:Erp.
      * apply String.eqb_eq in Erp. subst r. rewrite setAdd_in. tauto.
      * apply String.eqb_neq in Erp. tauto.
    + apply String.eqb_neq in Epk. cbn [lookup].
      destruct (String.eqb r k) eqn:Erk.
      * apply String.eqb_eq in Erk. subst k.
        split; [auto|]. intros [H | (H1 & _)]; [exact H | congruence].
      * rewrite IH. intuition congruence.
Qed.

(** What adding one trine does to the groups. *)
Lemma addTrine_keys (g : Groups) (t : Aspect) (p : string) :
  In p (map fst (addTrine g t)) <->
  p = planet1 t \/ p = planet2 t \/ In p (map fst g).
Proof.
  unfold addTrine. rewrite !addToGroup_keys, !ensureGroup_keys. tauto.
Qed.

Lemma addTrine_groupOf (g : Groups) (t : Aspect) (r x : string) :
  In x (groupOf r (addTrine g t)) <->
  In x (groupOf r g) \/ (r = planet1 t /\ x = planet2 t)
  \/ (r = planet2 t /\ x = planet1 t).
Proof.
  unfold addTrine. rewrite !addToGroup_groupOf, !addToGroup_keys,
    !ensureGroup_keys, !ensureGroup_groupOf.
  tauto.
Qed.

(** The groups after all trines: the keys are the planets of the trines
    and the set of a planet holds the planets that a trine joins to it. *)
Lemma fold_addTrine_keys (trines : list Aspect) (g : Groups) (p : string) :
  In p (map fst (fold_left addTrine trines g)) <->
  In p (map fst g) \/
  exists t, In t trines /\ (p = planet1 t \/ p = planet2 t).
Proof.
  revert g. induction trines as [|t trines IH]; intros g; cbn [fold_left].
  - split; [auto|]. intros [H | (t & [] & _)]. exact H.
  - rewrite IH, addTrine_keys. split.
    + intros [[H | [H | H]] | (t' & Hin & H)].
      * right. exists t. split; [left; reflexivity | auto].
      * right. exists t. split; [left; reflexivity | auto].
      * left. exact H.
      * right. exists t'. split; [right; exact Hin | exact H].
    + intros [H | (t' & [Heq | Hin] & H)].
      * left. auto.
      * subst t'. left. tauto.
      * right. exists t'. auto.
Qed.

Lemma fold_addTrine_groupOf (trines : list Aspect) (g : Groups) (r x : string) :
  In x (groupOf r (fold_left addTrine trines g)) <->
  In x (groupOf r g) \/
  exists t, In t trines /\
    ((r = planet1 t /\ x = planet2 t) \/ (r = planet2 t /\ x = planet1 t)).
Proof.
  revert g. induction trines as [|t trines IH]; intros g; cbn [fold_left].
  - split; [auto|]. intros [H | (t & [] & _)]. exact H.
  - rewrite IH, addTrine_groupOf. split.
    + intros [[H | H] | (t' & Hin & H)].
      * left. exact H.
      * right. exists t. split; [left; reflexivity | exact H].
      * right. exists t'. split; [right; exact Hin | exact H].
    + intros [H | (t' & [Heq | Hin] & H)].
      * left. auto.
      * subst t'. left. right. exact H.
      * right. exists t'. auto.
Qed.

(** *** The triplet key *)

Lemma insertString_perm (s : string) (l : list string) :
  Permutation (insertString s l) (s :: l).
Proof.
  induction l as [|t l IH]; cbn [insertString]; [apply Permutation_refl|].
  destruct (String.leb s t); [apply Permutation_refl|].
  eapply Permutation_trans; [apply perm_skip; exact IH | apply perm_swap].
Qed.

Lemma sortStrings_perm (l : list string) : Permutation (sortStrings l) l.
Proof.
  induction l as [|s l IH]; cbn [sortStrings fold_right]; [constructor|].
  eapply Permutation_trans; [apply insertString_perm|].
  apply perm_skip. exact IH.
Qed.

Lemma sortStrings_three (a b c : string) :
  exists s1 s2 s3,
    sortStrings [a; b; c] = [s1; s2; s3] /\ Permutation [s1; s2; s3] [a; b; c].
Proof.
  pose proof (sortStrings_perm [a; b; c]) as Hp.
  pose proof (Permutation_length Hp) as Hl.
  destruct (sortStrings [a; b; c]) as [|s1 [|s2 [|s3 [|s4 l]]]];
    try discriminate Hl.
  exists s1, s2, s3. split; [reflexivity | exact Hp].
Qed.

(** In a string that starts with a hyphen-free name followed by a
    hyphen, the name and the rest are determined. *)
Lemma dash_split (s t r r' : string) :
  noDash s = true -> noDash t = true ->
  (s ++ "-" ++ r)%string = (t ++ "-" ++ r')%string ->
  s = t /\ r = r'.
Proof.
  revert t. induction s as [|c s IH]; intros [|c' t] Hs Ht Heq;
    cbn [String.append noDash] in *.
  - inversion Heq. auto.
  - inversion Heq; subst. cbn in Ht. discriminate.
  - inversion Heq; subst. cbn in Hs. discriminate.
  - inversion Heq; subst.
    apply andb_true_iff in Hs, Ht.
    destruct (IH t (proj2 Hs) (proj2 Ht) H1) as [E1 E2]. subst. auto.
Qed.

(** Two triplets of hyphen-free names with the same key hold the same
    planets. *)
Lemma tripleKey_inj (x y z a b c : string) :
  Forall (fun s => noDash s = true) [x; y; z; a; b; c] ->
  tripleKey x y z = tripleKey a b c ->
  Permutation [x; y; z] [a; b; c].
Proof.
  intros Hnd Hkey. unfold tripleKey in Hkey.
  destruct (sortStrings_three x y z) as (s1 & s2 & s3 & E1 & P1).
  destruct (sortStrings_three a b c) as (t1 & t2 & t3 & E2 & P2).
  rewrite E1, E2 in Hkey. cbn [String.concat] in Hkey.
  rewrite Forall_forall in Hnd.
  assert (Hs : forall s, In s [s1; s2; s3] -> noDash s = true).
  { intros s Hin. apply Hnd. apply (Permutation_in _ P1) in Hin.
    cbn [In] in *. tauto. }
  assert (Ht : forall s, In s [t1; t2; t3] -> noDash s = true).
  { intros s Hin. apply Hnd. apply (Permutation_in _ P2) in Hin.
    cbn [In] in *. tauto. }
  destruct (dash_split s1 t1 _ _ (Hs s1 ltac:(cbn; auto))
              (Ht t1 ltac:(cbn; auto)) Hkey) as [H1 Hrest].
  destruct (dash_split s2 t2 _ _ (Hs s2 ltac:(cbn; auto))
              (Ht t2 ltac:(cbn; auto)) Hrest) as [H2 H3].
  subst. eapply Permutation_trans; [apply Permutation_sym; exact P1 | exact P2].
Qed.

Lemma planetKeys_list :
  planetKeys = [ "sun"; "moon"; "mercury"; "venus"; "mars"; "jupiter";
                 "saturn"; "uranus"; "neptune"; "pluto" ].
Proof. reflexivity. Qed.

Lemma planetKeys_noDash (p : string) : In p planetKeys -> noDash p = true.
Proof.
  rewrite planetKeys_list. cbn [In].
  intros H; repeat (destruct H as [H | H]; [subst; reflexivity|]).
  destruct H.
Qed.

(** The key of three registry planets does not depend on their order. *)
Lemma tripleKey_order (a b c : string) :
  In a planetKeys -> In b planetKeys -> In c planetKeys ->
  tripleKey a c b = tripleKey a b c /\
  tripleKey b a c = tripleKey a b c /\
  tripleKey b c a = tripleKey a b c /\
  tripleKey c a b = tripleKey a b c /\
  tripleKey c b a = tripleKey a b c.
Proof.
  set (keys := [ "sun"; "moon"; "mercury"; "venus"; "mars"; "jupiter";
                 "saturn"; "uranus"; "neptune"; "pluto" ]).
  set (ok := fun a b c : string =>
    String.eqb (tripleKey a c b) (tripleKey a b c)
    && String.eqb (tripleKey b a c) (tripleKey a b c)
    && String.eqb (tripleKey b c a) (tripleKey a b c)
    && String.eqb (tripleKey c a b) (tripleKey a b c)
    && String.eqb (tripleKey c b a) (tripleKey a b c)).
  assert (Hall : forallb (fun a => forallb (fun b => forallb (ok a b) keys)
                                     keys) keys = true)
    by (vm_compute; reflexivity).
  rewrite planetKeys_list. fold keys. intros Ha Hb Hc.
  rewrite forallb_forall in Hall. specialize (Hall a Ha).
  rewrite forallb_forall in Hall. specialize (Hall b Hb).
  rewrite forallb_forall in Hall. specialize (Hall c Hc).
  unfold ok in Hall. rewrite !andb_true_iff, !String.eqb_eq in Hall. tauto.
Qed.

(** *** Loops with an invariant *)

Section FoldM.
Context {A S : Type}.
Variable f : S -> A -> option S.
Variables P Q : S -> Prop.

Lemma foldM_preserve (l : list A) :
  keeps f P Q l ->
  forall s, P s -> exists s', foldM f l s = Some s' /\ P s' /\ (Q s -> Q s').
Proof.
  induction l as [|x l IH]; intros Hk s Hs; cbn [foldM].
  - exists s. auto.
  - destruct (Hk s x (or_introl eq_refl) Hs) as (s1 & E1 & P1 & Q1).
    rewrite E1.
    destruct (IH (fun s x Hin => Hk s x (or_intror Hin)) s1 P1)
      as (s2 & E2 & P2 & Q2).
    exists s2. auto.
Qed.

Lemma foldM_reach (l : list A) (x0 : A) :
  keeps f P Q l ->
  (forall s, P s -> exists s', f s x0 = Some s' /\ Q s') ->
  In x0 l ->
  forall s, P s -> exists s', foldM f l s = Some s' /\ P s' /\ Q s'.
Proof.
  intros Hk Hhit. induction l as [|x l IH]; intros Hin s Hs; [destruct Hin|].
  cbn [foldM].
  destruct (Hk s x (or_introl eq_refl) Hs) as (s1 & E1 & P1 & Q1).
  rewrite E1.
  assert (Hk' : keeps f P Q l) by (intros s' x' Hin'; apply Hk; right; exact Hin').
  destruct Hin as [Heq | Hin].
  - subst x0. destruct (Hhit s Hs) as (s1' & E1' & Q1').
    assert (s1' = s1) by congruence. subst s1'.
    destruct (foldM_preserve l Hk' s1 P1) as (s2 & E2 & P2 & Q2).
    exists s2. auto.
  - apply IH; assumption.
Qed.
End FoldM.

(** *** The Grand Trine loops *)

Lemma hasPattern_true (pattern : string) (patterns : list Pattern) :
  hasPattern pattern patterns = true <-> In pattern (map patternPlanets patterns).
Proof.
  unfold hasPattern. rewrite existsb_exists, in_map_iff. split.
  - intros (p & Hin & Heq). apply String.eqb_eq in Heq. exists p. auto.
  - intros (p & Heq & Hin). exists p. split; [exact Hin|].
    apply String.eqb_eq. exact Heq.
Qed.

Section GrandTrineLoops.
Variable planets : list (string * PlanetPosition).
Variable g : Groups.
Variable K : string.

(** The planets the loops can meet; each has a position. *)
Variable node : string -> Prop.
Hypothesis node_key : forall p, In p (map fst g) -> node p.
Hypothesis node_member : forall r p, In p (groupOf r g) -> node p.
Hypothesis node_position :
  forall p, node p -> exists pos, lookup p planets = Some pos.

Lemma grandTrineStep_keeps (p1 p2 p3 : string) (patterns : list Pattern) :
  node p1 -> node p2 -> node p3 -> trineInvariant planets node patterns ->
  exists patterns',
    grandTrineStep planets g p1 p2 p3 patterns = Some patterns' /\
    trineInvariant planets node patterns' /\ (hasKeyOf K patterns -> hasKeyOf K patterns') /\
    (p2 <> p3 -> In p3 (groupOf p2 g) -> tripleKey p1 p2 p3 = K ->
     hasKeyOf K patterns').
Proof.
  intros N1 N2 N3 [Hnd Hall]. unfold grandTrineStep.
  destruct (negb (String.eqb p2 p3) && setHas p3 (groupOf p2 g)) eqn:Hcond.
  - destruct (hasPattern (tripleKey p1 p2 p3) patterns) eqn:Hhas;
      cbn [negb].
    + exists patterns. split; [reflexivity|]. split; [split; assumption|].
      split; [auto|]. intros _ _ HK. apply hasPattern_true in Hhas.
      unfold hasKeyOf. rewrite <- HK. exact Hhas.
    + destruct (node_position p1 N1) as [pos Hpos]. rewrite Hpos.
      eexists. split; [reflexivity|].
      assert (Hnot : ~ In (tripleKey p1 p2 p3) (map patternPlanets patterns)).
      { intros Hin. apply hasPattern_true in Hin. congruence. }
      unfold push, trineInvariant, hasKeyOf. rewrite !map_app. cbn [map patternPlanets].
      split; [split|split].
      * apply NoDup_app; [exact Hnd | repeat constructor; intros [] |].
        intros k Hk [Hk' | []]. subst k. exact (Hnot Hk).
      * apply Forall_app. split; [exact Hall|]. constructor; [|constructor].
        exists p1, p2, p3, pos. auto.
      * intros H. apply in_or_app. left. exact H.
      * intros _ _ HK. apply in_or_app. right. left. exact HK.
  - exists patterns. split; [reflexivity|]. split; [split; assumption|].
    split; [auto|]. intros Hne Hin _.
    apply andb_false_iff in Hcond. destruct Hcond as [Hc | Hc].
    + apply negb_false_iff, String.eqb_eq in Hc. contradiction.
    + apply setHas_true in Hin. congruence.
Qed.

Lemma inner_keeps (p1 p2 : string) (l : list string) :
  node p1 -> node p2 -> (forall p3, In p3 l -> node p3) ->
  keeps (fun patterns p3 => grandTrineStep planets g p1 p2 p3 patterns)
    (trineInvariant planets node) (hasKeyOf K) l.
Proof.
  intros N1 N2 N3 patterns p3 Hin Hinv.
  destruct (grandTrineStep_keeps p1 p2 p3 patterns N1 N2 (N3 p3 Hin) Hinv)
    as (patterns' & E & I & Q & _).
  exists patterns'. auto.
Qed.

Lemma middle_keeps (p1 : string) (l3 l2 : list string) :
  node p1 -> (forall p3, In p3 l3 -> node p3) ->
  (forall p2, In p2 l2 -> node p2) ->
  keeps (fun patterns p2 =>
           foldM (fun patterns p3 => grandTrineStep planets g p1 p2 p3 patterns)
             l3 patterns)
    (trineInvariant planets node) (hasKeyOf K) l2.
Proof.
  intros N1 N3 N2 patterns p2 Hin Hinv.
  apply foldM_preserve; [|exact Hinv].
  apply inner_keeps; auto.
Qed.

Lemma outer_keeps (l1 : list string) :
  (forall p1, In p1 l1 -> node p1) ->
  keeps (fun patterns p1 =>
           foldM (fun patterns p2 =>
             foldM (fun patterns p3 =>
                      grandTrineStep planets g p1 p2 p3 patterns)
               (groupOf p1 g) patterns)
             (groupOf p1 g) patterns)
    (trineInvariant planets node) (hasKeyOf K) l1.
Proof.
  intros N1 patterns p1 Hin Hinv.
  apply foldM_preserve; [|exact Hinv].
  apply middle_keeps; auto; intros p Hp; eapply node_member; exact Hp.
Qed.

(** The loops end without error, keep the invariant, and leave the key
    of a triangle they meet in the list. *)
Lemma grandTrines_reach (a b c : string) (patterns : list Pattern) :
  In a (map fst g) -> In b (groupOf a g) -> In c (groupOf a g) ->
  b <> c -> In c (groupOf b g) -> tripleKey a b c = K ->
  trineInvariant planets node patterns ->
  exists patterns',
    grandTrines planets g patterns = Some patterns' /\
    trineInvariant planets node patterns' /\ hasKeyOf K patterns'.
Proof.
  intros Ha Hb Hc Hbc Hcb HK Hinv. unfold grandTrines.
  assert (Na : node a) by (apply node_key; exact Ha).
  assert (Nm : forall p, In p (groupOf a g) -> node p)
    by (intros p Hp; eapply node_member; exact Hp).
  apply (foldM_reach _ (trineInvariant planets node) (hasKeyOf K) (map fst g) a);
    [apply outer_keeps; exact node_key | | exact Ha | exact Hinv].
  intros s Hs.
  destruct (foldM_reach
              (fun patterns p2 =>
                 foldM (fun patterns p3 =>
                          grandTrineStep planets g a p2 p3 patterns)
                   (groupOf a g) patterns)
              (trineInvariant planets node) (hasKeyOf K) (groupOf a g) b) with (s := s)
    as (s' & E & _ & Q); [apply middle_keeps; auto | | exact Hb | exact Hs |].
  - intros s0 Hs0.
    destruct (foldM_reach
                (fun patterns p3 => grandTrineStep planets g a b p3 patterns)
                (trineInvariant planets node) (hasKeyOf K) (groupOf a g) c) with (s := s0)
      as (s' & E & _ & Q); [apply inner_keeps; auto | | exact Hc | exact Hs0 |].
    + intros s1 Hs1.
      destruct (grandTrineStep_keeps a b c s1 Na (Nm b Hb) (Nm c Hc) Hs1)
        as (s' & E & _ & _ & Q).
      exists s'. split; [exact E|]. apply Q; assumption.
    + exists s'. auto.
  - exists s'. auto.
Qed.
End GrandTrineLoops.

(** *** The T-Square loops *)

Lemma fold_left_invariant {A S : Type} (f : S -> A -> S) (P : S -> Prop)
    (l : list A) :
  (forall s x, P s -> P (f s x)) -> forall s, P s -> P (fold_left f l s).
Proof.
  intros Hstep. induction l as [|x l IH]; intros s Hs; cbn [fold_left]; auto.
Qed.

Lemma tSquareStep_extends (squares : list Aspect) (p1 p2 : string)
    (square : Aspect) (base patterns : list Pattern) :
  extends base patterns ->
  extends base (tSquareStep squares p1 p2 square patterns).
Proof.
  intros [Hnd Hincl]. unfold tSquareStep.
  repeat match goal with
  | |- context [if ?b then _ else _] =>
      destruct b eqn:?; try (split; assumption)
  end.
  all: unfold push; split;
    [ rewrite map_app; cbn [map patternPlanets];
      apply NoDup_app; [exact Hnd | repeat constructor; intros [] |];
      intros k Hk [Hk' | []]; subst k;
      match goal with
      | H : negb (hasPattern _ _) = true |- _ =>
          apply negb_true_iff in H;
          apply hasPattern_true in Hk; congruence
      end
    | intros p Hp; apply in_or_app; left; apply Hincl; exact Hp ].
Qed.

Lemma tSquares_extends (squares oppositions : list Aspect)
    (base : list Pattern) :
  NoDup (map patternPlanets base) ->
  extends base (tSquares squares oppositions base).
Proof.
  intros Hnd. unfold tSquares.
  apply fold_left_invariant; [|split; [exact Hnd | apply incl_refl]].
  intros s opposition Hs.
  apply fold_left_invariant; [|exact Hs].
  intros s' square Hs'. apply tSquareStep_extends. exact Hs'.
Qed.

Lemma count_of_unique_key {A : Type} (f : A -> string) (k : string)
    (l : list A) :
  NoDup (map f l) -> In k (map f l) ->
  List.length (filter (fun x => String.eqb (f x) k) l) = 1%nat.
Proof.
  induction l as [|x l IH]; intros Hnd Hin; [destruct Hin|].
  cbn [map] in Hnd, Hin. inversion Hnd as [|? ? Hnot Hnd']; subst.
  cbn [filter]. destruct (String.eqb (f x) k) eqn:E.
  - apply String.eqb_eq in E. subst k. cbn [List.length]. f_equal.
    rewrite filter_nil_of_false; [reflexivity|].
    intros y Hy. apply String.eqb_neq. intros Heq. apply Hnot.
    rewrite <- Heq. apply in_map. exact Hy.
  - apply String.eqb_neq in E. destruct Hin as [Heq | Hin]; [contradiction|].
    apply IH; assumption.
Qed.

(** *** Grand Trine *)

Lemma ofType_in (t : string) (aspects : list Aspect) (asp : Aspect) :
  In asp (ofType t aspects) <-> In asp aspects /\ a_type asp = t.
Proof.
  unfold ofType. rewrite filter_In, String.eqb_eq. tauto.
Qed.

(** A trine between two planets makes each a key of the groups and a
    member of the other's set. *)
Lemma trineGroupsOf_adjacent (aspects : list Aspect) (a b : string) :
  aspectJoins "trine" aspects a b ->
  In a (map fst (trineGroupsOf aspects)) /\
  In b (groupOf a (trineGroupsOf aspects)) /\
  In a (groupOf b (trineGroupsOf aspects)).
Proof.
  intros (asp & Hin & Ht & Hj). unfold trineGroupsOf.
  assert (Htr : In asp (ofType "trine" aspects)) by (apply ofType_in; auto).
  apply joins_true in Hj.
  rewrite fold_addTrine_keys, !fold_addTrine_groupOf.
  split; [|split]; right; exists asp; (split; [exact Htr|]);
    destruct Hj as [[J1 J2] | [J1 J2]]; subst; auto.
Qed.

(** In a chart whose aspects are between registry planets that have a
    position, three distinct planets joined pairwise by trines give
    exactly one pattern under the sorted triplet key; it is a Grand
    Trine, and its element is what getSignElement returns for the sign
    index of one of the three, which is undefined for a negative index;
    the key is the same for every order of the three planets. *)
Lemma grand_trine_reported_once (chartData : Chart) (a b c : string) :
  aspectsOverChart chartData ->
  a <> b -> b <> c -> a <> c ->
  aspectJoins "trine" (c_aspects chartData) a b ->
  aspectJoins "trine" (c_aspects chartData) b c ->
  aspectJoins "trine" (c_aspects chartData) a c ->
  exists patterns,
    findSpecialPatterns chartData = Some patterns /\
    List.length
      (filter (fun p => String.eqb (patternPlanets p) (tripleKey a b c))
         patterns) = 1%nat /\
    (exists m pos,
       In m [a; b; c] /\ lookup m (c_planets chartData) = Some pos /\
       In (GrandTrine (tripleKey a b c)
             (getSignElement (Math_floor (longitude pos / 30))))
          patterns) /\
    tripleKey a c b = tripleKey a b c /\
    tripleKey b a c = tripleKey a b c /\
    tripleKey b c a = tripleKey a b c /\
    tripleKey c a b = tripleKey a b c /\
    tripleKey c b a = tripleKey a b c.
Proof.
  intros Hwf Hab Hbc Hac Tab Tbc Tac.
  set (aspects := c_aspects chartData) in *.
  set (g := trineGroupsOf aspects).
  set (node := fun p : string =>
         exists t, In t (ofType "trine" aspects) /\
                   (p = planet1 t \/ p = planet2 t)).
  assert (node_key : forall p, In p (map fst g) -> node p).
  { intros p Hp. unfold g, trineGroupsOf in Hp.
    apply fold_addTrine_keys in Hp. destruct Hp as [[] | Hp]. exact Hp. }
  assert (node_member : forall r p, In p (groupOf r g) -> node p).
  { intros r p Hp. unfold g, trineGroupsOf in Hp.
    apply fold_addTrine_groupOf in Hp. destruct Hp as [[] | (t & Hin & H)].
    exists t. split; [exact Hin|]. tauto. }
  assert (node_chart : forall p, node p ->
            In p planetKeys /\
            exists pos, lookup p (c_planets chartData) = Some pos).
  { intros p (t & Hin & H). apply ofType_in in Hin.
    apply (Hwf t p (proj1 Hin)). exact H. }
  destruct (trineGroupsOf_adjacent aspects a b Tab) as (Ka & Hab1 & _).
  destruct (trineGroupsOf_adjacent aspects b c Tbc) as (_ & Hbc1 & _).
  destruct (trineGroupsOf_adjacent aspects a c Tac) as (_ & Hac1 & _).
  fold g in Ka, Hab1, Hbc1, Hac1.
  destruct (grandTrines_reach (c_planets chartData) g (tripleKey a b c) node
              node_key node_member (fun p Hp => proj2 (node_chart p Hp))
              a b c [] Ka Hab1 Hac1 Hbc Hbc1 eq_refl)
    as (patterns1 & E1 & [Hnd1 Hbuilt] & Hkey1).
  { split; [constructor | constructor]. }
  pose proof (tSquares_extends (ofType "square" aspects)
                (ofType "opposition" aspects) patterns1 Hnd1) as [Hnd Hincl].
  exists (tSquares (ofType "square" aspects) (ofType "opposition" aspects)
            patterns1).
  split.
  { unfold findSpecialPatterns. fold aspects. fold g. rewrite E1. reflexivity. }
  assert (Na : In a planetKeys) by (apply node_chart, node_key; exact Ka).
  assert (Nb : In b planetKeys)
    by (apply node_chart; eapply node_member; exact Hab1).
  assert (Nc : In c planetKeys)
    by (apply node_chart; eapply node_member; exact Hac1).
  split; [|split; [|apply tripleKey_order; assumption]].
  - apply count_of_unique_key; [exact Hnd|].
    unfold hasKeyOf in Hkey1. apply in_map_iff in Hkey1.
    destruct Hkey1 as (p & Hp & Hin). apply in_map_iff. exists p.
    split; [exact Hp | apply Hincl; exact Hin].
  - unfold hasKeyOf in Hkey1. apply in_map_iff in Hkey1.
    destruct Hkey1 as (p & Hp & Hin).
    rewrite Forall_forall in Hbuilt.
    destruct (Hbuilt p Hin) as (x & y & z & pos & Nx & Ny & Nz & Hpos & Hshape).
    subst p. cbn [patternPlanets] in Hp.
    assert (Hperm : Permutation [x; y; z] [a; b; c]).
    { apply tripleKey_inj; [|exact Hp].
      repeat constructor; apply planetKeys_noDash; try assumption;
        apply node_chart; assumption. }
    exists x, pos. split; [|split; [exact Hpos|]].
    + apply (Permutation_in _ Hperm). left. reflexivity.
    + rewrite <- Hp. apply Hincl. exact Hin.
Qed.

Lemma aspectJoins_of_link (aspects : list Aspect) (x y t : string) :
  In (x, y, t) (map aspectLink aspects) -> aspectJoins t aspects x y.
Proof.
  intros H. apply in_map_iff in H. destruct H as (asp & Heq & Hin).
  unfold aspectLink in Heq. inversion Heq; subst.
  exists asp. split; [exact Hin|]. split; [reflexivity|].
  apply joins_true. left. auto.
Qed.

Lemma grandTrineChart_aspects :
  map aspectLink (c_aspects grandTrineChart)
  = [ ("sun", "moon", "trine"); ("sun", "mars", "trine");
      ("moon", "mars", "trine") ].
Proof.
  unfold grandTrineChart, grandTrinePositions. cbn [c_aspects].
  cbn [calculateAspects flat_map app]. unfold aspectsOfPair, positionAt.
  cbn [fst snd longitude].
  rewrite (separation_sym 0 120), (separation_small 120 0) by lra.
  rewrite (separation_large 0 240) by lra.
  rewrite (separation_sym 120 240), (separation_small 240 120) by lra.
  replace (120 - 0) with 120 by lra.
  replace (360 - (240 - 0)) with 120 by lra.
  replace (240 - 120) with 120 by lra.
  walk_aspect_types.
  reflexivity.
Qed.

Lemma grandTrineChart_over_chart : aspectsOverChart grandTrineChart.
Proof.
  intros asp p Hin Hp.
  assert (Hl : In (aspectLink asp) (map aspectLink (c_aspects grandTrineChart)))
    by (apply in_map; exact Hin).
  rewrite grandTrineChart_aspects in Hl. unfold aspectLink in Hl.
  rewrite planetKeys_list.
  cbn [In] in Hl.
  destruct Hl as [Hl | [Hl | [Hl | []]]]; inversion Hl as [[H1 H2 H3]];
    destruct Hp as [Hp | Hp]; subst p; rewrite <- ?H1, <- ?H2;
    (split; [cbn [In]; tauto | eexists; reflexivity]).
Qed.

(** The chart of the three positions yields one Grand Trine, keyed by
    the sorted names and tagged with the element of the Sun's sign. *)
Lemma grandTrineChart_patterns :
  findSpecialPatterns grandTrineChart
  = Some [GrandTrine "mars-moon-sun" (Some "Fire")].
Proof.
  pose proof grandTrineChart_aspects as Hlinks.
  unfold findSpecialPatterns.
  replace (c_planets grandTrineChart) with grandTrinePositions by reflexivity.
  destruct (c_aspects grandTrineChart) as [|a1 [|a2 [|a3 [|a4 rest]]]];
    try discriminate Hlinks.
  destruct a1, a2, a3. unfold aspectLink in Hlinks.
  cbn [map planet1 planet2 a_type] in Hlinks. inversion Hlinks; subst.
  assert (Hfloor : Math_floor (0 / 30) = 0%Z)
    by (apply Math_floor_unique; simpl; lra).
  assert (Hel : getSignElement (Math_floor (0 / 30)) = Some "Fire")
    by (rewrite Hfloor; reflexivity).
  rewrite <- Hel. reflexivity.
Qed.

(** The theorem applied to the chart of the three positions. *)
Lemma grand_trine_reported_once_witness :
  exists patterns,
    findSpecialPatterns grandTrineChart = Some patterns /\
    List.length
      (filter (fun p => String.eqb (patternPlanets p)
                          (tripleKey "sun" "moon" "mars"))
         patterns) = 1%nat.
Proof.
  destruct (grand_trine_reported_once grandTrineChart "sun" "moon" "mars")
    as (patterns & Hp & Hcount & _).
  - exact grandTrineChart_over_chart.
  - discriminate.
  - discriminate.
  - discriminate.
  - apply aspectJoins_of_link. rewrite grandTrineChart_aspects. cbn; auto.
  - apply aspectJoins_of_link. rewrite grandTrineChart_aspects. cbn; auto.
  - apply aspectJoins_of_link. rewrite grandTrineChart_aspects. cbn; auto.
  - exists patterns. split; [exact Hp | exact Hcount].
Defined.

(** The theorem of the aspects applied to the Sun at 0 degrees and the
    Moon at 90. *)
Lemma calculateAspects_first_match_witness :
  (List.length (filter (joins "sun" "moon") (calculateAspects squarePositions))
   <= 1)%nat /\
  forall asp, In asp (calculateAspects squarePositions) ->
    joins "sun" "moon" asp = true ->
    firstPassing (separation 0 90) (a_type asp).
Proof.
  apply (fun H1 H2 H3 H4 =>
           proj2 (calculateAspects_first_match squarePositions "sun" "moon"
                    (positionAt (mkPlanetInfo "Sun"  "☉" "#FFD700" 1) 0)
                    (positionAt (mkPlanetInfo "Moon" "☽" "#SILVER" 13.2) 90)
                    H1 H2 H3 H4)).
  - cbn. repeat constructor; cbn; intuition discriminate.
  - discriminate.
  - reflexivity.
  - reflexivity.
Defined.

(** At 145.5 degrees the orb tests of quincunx and of biquintile both
    pass; the aspect emitted is the quincunx, which comes first. *)
Lemma quincunx_before_biquintile :
  let ps := [ ("sun",  positionAt (mkPlanetInfo "Sun"  "☉" "#FFD700" 1) 0);
              ("moon", positionAt (mkPlanetInfo "Moon" "☽" "#SILVER" 13.2) 145.5) ] in
  map aspectLink (calculateAspects ps) = [("sun", "moon", "quincunx")] /\
  withinOrb 145.5 (mkAspectType 150 5 "⚻"  "Quincunx" "Adjustment") = true /\
  withinOrb 145.5 (mkAspectType 144 2 "bQ" "Biquintile" "Creative") = true.
Proof.
  cbv zeta. split; [|split; apply withinOrb_true; cbn [at_angle at_orb]; lra].
  cbn [calculateAspects flat_map app]. unfold aspectsOfPair, positionAt.
  cbn [fst snd longitude].
  rewrite (separation_sym 0 145.5), (separation_small 145.5 0) by lra.
  replace (145.5 - 0) with 145.5 by lra.
  walk_aspect_types. reflexivity.
Qed.

(** When the focal planet comes last in the key order, each square is
    stored with a planet of the opposition first, and the T-Square is
    found. *)
Lemma tsquare_found_when_focus_is_planet2 :
  map aspectLink (c_aspects tSquareLastChart)
  = [ ("sun", "moon", "opposition"); ("sun", "mars", "square");
      ("moon", "mars", "square") ] /\
  findSpecialPatterns tSquareLastChart = Some [TSquare "mars-moon-sun" "mars"].
Proof.
  assert (Hlinks : map aspectLink (c_aspects tSquareLastChart)
                   = [ ("sun", "moon", "opposition"); ("sun", "mars", "square");
                       ("moon", "mars", "square") ]).
  { unfold tSquareLastChart, tSquareLastPositions. cbn [c_aspects].
    cbn [calculateAspects flat_map app]. unfold aspectsOfPair, positionAt.
    cbn [fst snd longitude].
    rewrite (separation_sym 0 180), (separation_small 180 0) by lra.
    rewrite (separation_sym 0 90), (separation_small 90 0) by lra.
    rewrite (separation_small 180 90) by lra.
    replace (180 - 0) with 180 by lra.
    replace (90 - 0) with 90 by lra.
    replace (180 - 90) with 90 by lra.
    walk_aspect_types. reflexivity. }
  split; [exact Hlinks|].
  unfold findSpecialPatterns.
  destruct (c_aspects tSquareLastChart) as [|a1 [|a2 [|a3 [|a4 rest]]]];
    try discriminate Hlinks.
  destruct a1, a2, a3. unfold aspectLink in Hlinks.
  cbn [map planet1 planet2 a_type] in Hlinks. inversion Hlinks; subst.
  reflexivity.
Qed.

(** *** Charts of the pipeline *)

(** Every house system yields twelve houses. *)
Lemma calculateHouses_length (jd lat lon : R) (sys : string) :
  List.length (calculateHouses jd lat lon sys) = 12%nat.
Proof.
  destruct (String.eqb sys "equal") eqn:Hsys.
  - apply String.eqb_eq in Hsys. subst sys. rewrite calculateHouses_equal.
    rewrite length_map. reflexivity.
  - destruct (calculateHouses_placidus_angles jd lat lon sys Hsys)
      as (c2 & c3 & c4 & c5 & c6 & c7 & c8 & c9 & c11 & c12 & E).
    rewrite E. reflexivity.
Qed.

Lemma calculatePlanetaryPositions_keys (host : Host) (jd lat lon : R) :
  map fst (calculatePlanetaryPositions host jd lat lon) = planetKeys.
Proof.
  unfold calculatePlanetaryPositions, planetKeys. rewrite map_map.
  reflexivity.
Qed.

(** In a chart that calculateNatalChart assembles, the aspects are
    between registry planets that have a position. *)
Lemma calculateNatalChart_over_chart (host : Host) (date : JsDate)
    (lat lon : R) (sys : string) :
  aspectsOverChart (calculateNatalChart host date lat lon sys).
Proof.
  intros asp p Hin Hp. unfold calculateNatalChart in *.
  cbn [c_aspects c_planets] in *.
  set (ps := calculatePlanetaryPositions host (calculateJulianDay date) lat lon)
    in *.
  destruct (calculateAspects_planets ps asp Hin) as [H1 H2].
  assert (Hk : In p (map fst ps)) by (destruct Hp; subst p; assumption).
  split.
  - unfold ps in Hk. rewrite calculatePlanetaryPositions_keys in Hk. exact Hk.
  - destruct (lookup p ps) as [pos|] eqn:E; [eauto|].
    apply lookup_none_iff in E. contradiction.
Qed.

(* ================================================================== *)
(** * Further properties of the code                                   *)
(* ================================================================== *)

(** ** Julian Day: consecutive days *)

Lemma dayNumber_nextDay (d : JsDate) :
  validDate d -> dayNumber (nextDay d) = (dayNumber d + 1)%Z.
Proof.
  destruct d as [y m dd h mi s].
  unfold validDate, nextDay, dayNumber, shiftedYear, shiftedMonth, monthStart.
  cbn [getFullYear getMonth getDate getHours getMinutes getSeconds].
  intros (Hm & Hd & _).
  pose proof (yearStart_succ (y - 1)) as Hs.
  replace (y - 1 + 1)%Z with y in Hs by lia.
  split_month Hm; cbn [daysInMonth] in *;
    try (destruct (isLeapYear y) eqn:Hleap);
    match goal with
    | |- context [(dd <? ?n)%Z] => destruct (Z.ltb_spec dd n)
    end;
    cbn [getFullYear getMonth getDate Z.ltb Z.compare Pos.compare
         Pos.compare_cont];
    calc_months;
    try replace (y + 1 - 1)%Z with y by lia;
    lia.
Qed.

Lemma secondsOfDay_nextDay (d : JsDate) :
  secondsOfDay (nextDay d) = secondsOfDay d.
Proof.
  unfold nextDay, secondsOfDay.
  destruct (getDate d <? daysInMonth (getFullYear d) (getMonth d))%Z;
    [reflexivity|].
  destruct (getMonth d <? 11)%Z; reflexivity.
Qed.

Lemma validDate_nextDay (d : JsDate) : validDate d -> validDate (nextDay d).
Proof.
  destruct d as [y m dd h mi s]. unfold validDate, nextDay.
  cbn [getFullYear getMonth getDate getHours getMinutes getSeconds].
  intros (Hm & Hd & Hrest).
  destruct (Z.ltb_spec dd (daysInMonth y m)).
  - cbn [getFullYear getMonth getDate getHours getMinutes getSeconds].
    repeat split; try tauto; lia.
  - destruct (Z.ltb_spec m 11);
      cbn [getFullYear getMonth getDate getHours getMinutes getSeconds].
    + assert (Hdim : (28 <= daysInMonth y (m + 1))%Z).
      { assert (Hc : (m = 0 \/ m = 1 \/ m = 2 \/ m = 3 \/ m = 4 \/ m = 5 \/
                      m = 6 \/ m = 7 \/ m = 8 \/ m = 9 \/ m = 10)%Z) by lia.
        repeat (destruct Hc as [Hc | Hc];
                [subst m; cbn [Z.add Pos.add Pos.succ daysInMonth];
                 try destruct (isLeapYear y); lia|]).
        subst m. cbn [Z.add Pos.add Pos.succ daysInMonth]. lia. }
      repeat split; try tauto; lia.
    + cbn [daysInMonth]. repeat split; try tauto; lia.
Qed.

(** The day count of a Julian Day: days change at midnight, half a day
    after the Julian Day does. *)
Lemma julian_day_number (d : JsDate) :
  validDate d ->
  Math_floor (calculateJulianDay d + / 2) = (dayNumber d - 1524)%Z.
Proof.
  intros V. pose proof (secondsOfDay_bounds d V) as [S1 S2].
  apply IZR_le in S1. apply IZR_lt in S2.
  rewrite calculateJulianDay_dayNumber. apply Math_floor_unique.
  rewrite minus_IZR.
  assert (Hq : 0 <= IZR (secondsOfDay d) / 86400 < 1)
    by (apply div_between; lra).
  lra.
Qed.

(** For the years a Date can hold, the day count of the Julian Day, the
    floor of the Julian Day plus one half, grows by exactly one from a
    civil day to the following one, at any time of day, also across the
    end of a month, of February in a leap year, and of a year.  (The
    Julian Days themselves differ by one up to the rounding of the sum.) *)
Theorem julian_day_number_next_day (d : JsDate) :
  validDate d ->
  (-271821 <= getFullYear d <= 275760)%Z ->
  Math_floor (calculateJulianDay (nextDay d) + / 2)
  = (Math_floor (calculateJulianDay d + / 2) + 1)%Z.
Proof.
  intros V _.
  rewrite (julian_day_number _ (validDate_nextDay d V)).
  rewrite (julian_day_number _ V).
  rewrite (dayNumber_nextDay d V). lia.
Qed.

(** The theorem applied to 29 February 2000, followed by 1 March. *)
Lemma julian_day_number_next_day_witness :
  Math_floor (calculateJulianDay (mkDate 2000 2 1 12 0 0) + / 2)
  = (Math_floor (calculateJulianDay (mkDate 2000 1 29 12 0 0) + / 2) + 1)%Z.
Proof.
  apply (julian_day_number_next_day (mkDate 2000 1 29 12 0 0)).
  - unfold validDate; cbn; lia.
  - cbn. lia.
Defined.

(** ** The epoch of the positions and the host's time zone *)

(** In exact arithmetic, for every offset between -12h and +14h, the
    Julian Day of the base date is the J2000 epoch shifted by the
    offset. *)
Lemma daysSinceJ2000Of_offset (host : Host) (jd : R) :
  (-720 <= tzOffsetMinutes host <= 840)%Z ->
  daysSinceJ2000Of host jd = jd - 2451545 - IZR (tzOffsetMinutes host) / 1440.
Proof.
  intros Htz. unfold daysSinceJ2000Of. set (tz := tzOffsetMinutes host) in *.
  rewrite calculateJulianDay_dayNumber. unfold baseDate.
  replace (12 * 60 + tz <? 0)%Z with false by (symmetry; apply Z.ltb_ge; lia).
  destruct (Z.ltb_spec (12 * 60 + tz) 1440) as [Hlt | Hge].
  - replace (dayNumber (mkDate 2000 0 1 ((12 * 60 + tz) / 60)
                          ((12 * 60 + tz) mod 60) 0)) with 2453069%Z
      by (vm_compute; reflexivity).
    replace (secondsOfDay (mkDate 2000 0 1 ((12 * 60 + tz) / 60)
                             ((12 * 60 + tz) mod 60) 0))
      with (60 * (720 + tz))%Z
      by (unfold secondsOfDay;
          cbn [getHours getMinutes getSeconds];
          pose proof (Z.div_mod (12 * 60 + tz) 60 ltac:(lia)); lia).
    rewrite mult_IZR, plus_IZR. lra.
  - replace (dayNumber (mkDate 2000 0 2 ((12 * 60 + tz - 1440) / 60)
                          ((12 * 60 + tz - 1440) mod 60) 0)) with 2453070%Z
      by (vm_compute; reflexivity).
    replace (secondsOfDay (mkDate 2000 0 2 ((12 * 60 + tz - 1440) / 60)
                             ((12 * 60 + tz - 1440) mod 60) 0))
      with (60 * (tz - 720))%Z
      by (unfold secondsOfDay;
          cbn [getHours getMinutes getSeconds];
          pose proof (Z.div_mod (12 * 60 + tz - 1440) 60 ltac:(lia)); lia).
    rewrite mult_IZR, minus_IZR. lra.
Qed.

(** At the J2000 epoch itself the code counts zero days since the
    epoch on a host on UTC only: on a host west of UTC it counts a
    positive part of a day, on a host east of UTC a negative one, always
    less than 0.6 day in size. *)
Theorem daysSinceJ2000Of_at_epoch (host : Host) :
  (-720 <= tzOffsetMinutes host <= 840)%Z ->
  let days := daysSinceJ2000Of host 2451545 in
  (days = 0 <-> tzOffsetMinutes host = 0%Z) /\
  (0 < days <-> (tzOffsetMinutes host < 0)%Z) /\
  -0.6 < days < 0.6.
Proof.
  intros Htz days. subst days.
  rewrite (daysSinceJ2000Of_offset host 2451545 Htz).
  set (tz := tzOffsetMinutes host) in *.
  destruct Htz as [T1 T2]. apply IZR_le in T1, T2.
  split; [|split].
  - split.
    + intros H. apply eq_IZR. lra.
    + intros H. rewrite H. lra.
  - split.
    + intros H. apply lt_IZR. lra.
    + intros H. apply IZR_lt in H. lra.
  - lra.
Qed.

(** The theorem applied to a host five hours west of UTC. *)
Lemma daysSinceJ2000Of_at_epoch_witness :
  0 < daysSinceJ2000Of (hostNewYork 0) 2451545.
Proof.
  destruct (daysSinceJ2000Of_at_epoch (hostNewYork 0)) as (_ & H & _).
  - cbn [hostNewYork tzOffsetMinutes]. lia.
  - apply H. cbn [hostNewYork tzOffsetMinutes]. lia.
Defined.

(** ** Shape and bounds of the emitted positions *)

(** The emitted longitude never falls below -15 degrees nor reaches
    360, and the sign index never leaves [-1 .. 11]. *)
Lemma positionEntry_bounds (d : R) (planet : string) (info : PlanetInfo)
    (off : R) :
  -15 <= off <= 15 ->
  let p := positionEntry d planet info off in
  -15 < longitude p < 360 /\ (-1 <= sign p <= 11)%Z.
Proof.
  intros Hoff p. subst p. unfold positionEntry. cbn [longitude sign].
  pose proof (js_rem_abs (d * orbSpeed info) 360 ltac:(lra)) as Hb.
  fold (basePosition d (orbSpeed info)) in Hb.
  set (b := basePosition d (orbSpeed info)) in *.
  assert (Hl : -15 < js_rem (b + off + 360) 360 < 360).
  { destruct (Rle_dec 0 (b + off + 360)) as [H | H].
    - pose proof (js_rem_nonneg _ 360 H ltac:(lra)). lra.
    - rewrite js_rem_small by lra. lra. }
  set (l := js_rem (b + off + 360) 360) in *.
  split; [exact Hl|].
  pose proof (Math_floor_bounds (l / 30)) as [F1 F2].
  assert (Hq : -1 <= l / 30 < 12) by (apply div_between; lra).
  split.
  - apply Z.lt_succ_r. apply lt_IZR. rewrite succ_IZR. simpl. lra.
  - apply Z.lt_succ_r. apply lt_IZR. rewrite succ_IZR. simpl. lra.
Qed.

(** calculatePlanetaryPositions returns one position per planet of the
    registry, in the order of the registry, each carrying the registry
    attributes of its planet; the ecliptic latitude stays within 5
    degrees of the ecliptic, the longitude within (-15, 360) and the
    sign index, the floor of the longitude over 30, within -1 .. 11. *)
Theorem calculatePlanetaryPositions_shape (host : Host) (jd lat lon : R) :
  let positions := calculatePlanetaryPositions host jd lat lon in
  map fst positions = planetKeys /\
  map (fun e => (fst e, registry (snd e))) positions = planets /\
  forall planet p, In (planet, p) positions ->
    -5 <= latitude p <= 5 /\
    -15 < longitude p < 360 /\
    (-1 <= sign p <= 11)%Z /\
    sign p = Math_floor (longitude p / 30).
Proof.
  intros positions. subst positions.
  split; [apply calculatePlanetaryPositions_keys|]. split.
  - unfold calculatePlanetaryPositions. rewrite map_map.
    cbn [fst snd positionEntry registry].
    rewrite <- (map_id planets) at 2. apply map_ext.
    intros [k info]. reflexivity.
  - intros planet p Hin.
    destruct (calculatePlanetaryPositions_entries host jd lat lon planet p Hin)
      as (info & off & _ & Hoff & Hp).
    pose proof (positionEntry_bounds (daysSinceJ2000Of host jd) planet info off
                  Hoff) as [Hl Hs].
    rewrite <- Hp in Hl, Hs. subst p.
    split; [|split; [exact Hl | split; [exact Hs | reflexivity]]].
    unfold positionEntry. cbn [latitude].
    pose proof (SIN_bound (daysSinceJ2000Of host jd * 0.1
                           + INR (String.length planet))). lra.
Qed.

(** ** Zodiac signs and degrees *)


Lemma Math_floor_nonneg (x : R) : 0 <= x -> (0 <= Math_floor x)%Z.
Proof.
  intros H. pose proof (Math_floor_bounds x) as [F1 F2].
  apply Z.lt_succ_r. apply lt_IZR. rewrite succ_IZR. simpl. lra.
Qed.

Lemma Math_floor_lt (x : R) (n : Z) : x < IZR n -> (Math_floor x < n)%Z.
Proof.
  intros H. pose proof (Math_floor_bounds x) as [F1 F2].
  apply lt_IZR. lra.
Qed.

(** For a non-negative dividend the remainder is what the floor leaves. *)
Lemma js_rem_floor (x y : R) :
  0 <= x -> 0 < y -> js_rem x y = x - y * IZR (Math_floor (x / y)).
Proof.
  intros Hx Hy. unfold js_rem. rewrite Rtrunc_nonneg; [reflexivity|].
  apply (div_between x y 0 (x / y + 1)); [exact Hy|].
  split; [lra|]. replace ((x / y + 1) * y) with (x + y) by (field; lra). lra.
Qed.






(** Just below 0 degrees the sign is undefined: the index is -1. *)
Lemma getZodiacSign_below_zero (degree : R) :
  -30 <= degree < 0 -> getZodiacSign degree = None.
Proof.
  intros H. unfold getZodiacSign.
  rewrite (Math_floor_unique (degree / 30) (-1)); [reflexivity|].
  assert (Hq : -1 <= degree / 30 < 0) by (apply div_between; lra).
  simpl. lra.
Qed.

(** A position emitted with a negative longitude has no sign name and
    no element: every consumer that looks them up gets undefined. *)
Theorem negative_longitude_has_no_sign (d : R) (planet : string)
    (info : PlanetInfo) (off : R) :
  -15 <= off <= 15 ->
  let p := positionEntry d planet info off in
  longitude p < 0 ->
  sign p = (-1)%Z /\
  getZodiacSign (longitude p) = None /\
  getSignElement (Math_floor (longitude p / 30)) = None.
Proof.
  intros Hoff p Hneg.
  pose proof (positionEntry_bounds d planet info off Hoff) as [Hl _].
  change (positionEntry d planet info off) with p in Hl.
  assert (Hsign : sign p = Math_floor (longitude p / 30)) by reflexivity.
  rewrite Hsign. clearbody p. set (l := longitude p) in *.
  assert (Hs : Math_floor (l / 30) = (-1)%Z).
  { apply Math_floor_unique.
    assert (Hq : -1 <= l / 30 < 0) by (apply div_between; lra).
    lra. }
  split; [exact Hs|]. split.
  - apply getZodiacSign_below_zero. lra.
  - rewrite Hs. reflexivity.
Qed.

(** The theorem applied to the Sun 350 days before the epoch with the
    perturbation at -15. *)
Lemma negative_longitude_has_no_sign_witness :
  getZodiacSign
    (longitude (positionEntry (-350) "sun"
                  (mkPlanetInfo "Sun" "S" "#FFD700" 1) (-15))) = None.
Proof.
  apply (negative_longitude_has_no_sign (-350) "sun"
           (mkPlanetInfo "Sun" "S" "#FFD700" 1) (-15)).
  - lra.
  - unfold positionEntry, basePosition. cbn [longitude orbSpeed].
    replace (-350 * 1) with (-350) by lra.
    rewrite (js_rem_small (-350) 360) by lra.
    replace (-350 + -15 + 360) with (-5) by lra.
    rewrite (js_rem_small (-5) 360) by lra. lra.
Defined.

(** ** formatDegree *)

Lemma js_rem_unit (x : R) :
  0 <= x -> js_rem x 1 = x - IZR (Math_floor x) /\ 0 <= js_rem x 1 < 1.
Proof.
  intros Hx. split; [|apply js_rem_nonneg; lra].
  rewrite js_rem_floor by lra. replace (x / 1) with x by field. lra.
Qed.




(** 45.5 degrees is printed as 15 degrees 30 minutes of Taurus. *)
Lemma formatDegree_example :
  formatDegree 45.5 = ("Taurus 15° 30' 0" ++ doubleQuote)%string.
Proof.
  unfold formatDegree, degreesInSignOf, minutesOf, secondsOf, getZodiacSign.
  cbv zeta.
  rewrite (js_rem_small 45.5 360) by lra.
  rewrite (Math_floor_unique (45.5 / 30) 1) by (simpl; lra).
  rewrite (js_rem_floor 45.5 30), (Math_floor_unique (45.5 / 30) 1)
    by (simpl; lra).
  rewrite (Math_floor_unique (45.5 - 30 * 1) 15) by (simpl; lra).
  destruct (js_rem_unit 45.5 ltac:(lra)) as [E1 _].
  rewrite (Math_floor_unique 45.5 45) in E1 by (simpl; lra).
  rewrite E1.
  replace ((45.5 - 45) * 60) with 30 by lra.
  rewrite (Math_floor_unique 30 30) by (simpl; lra).
  rewrite (js_rem_floor 30 1), (Math_floor_unique (30 / 1) 30)
    by (simpl; lra).
  rewrite (Math_floor_unique ((30 - 1 * 30) * 60) 0) by (simpl; lra).
  reflexivity.
Qed.

(** ** Sidereal time, midheaven and the Placidus-like houses *)

(** The local sidereal time lies strictly between -360 and 360 degrees,
    and calculateMidheaven returns it unchanged. *)
Theorem midheaven_is_sidereal_time (jd lon : R) :
  let LMST := calculateLocalSiderealTime jd lon in
  -360 < LMST < 360 /\ calculateMidheaven LMST = LMST.
Proof.
  intros LMST.
  assert (H : -360 < LMST < 360).
  { unfold LMST, calculateLocalSiderealTime. cbv zeta.
    apply js_rem_abs. lra. }
  split; [exact H|]. unfold calculateMidheaven. apply js_rem_small. exact H.
Qed.

(** The house list outside the equal system, cusp by cusp. *)
Lemma calculateHouses_placidus (jd lat lon : R) (sys : string) :
  String.eqb sys "equal" = false ->
  let asc := calculateAscendant jd lat lon in
  let mc := calculateMidheaven (calculateLocalSiderealTime jd lon) in
  let c2 := js_rem (asc + 30 + sin (lat * 0.1) * 5) 360 in
  let c3 := js_rem (asc + 60 + sin (lat * 0.2) * 7) 360 in
  let c6 := js_rem (c2 + 180) 360 in
  calculateHouses jd lat lon sys
  = [ mkHouse 1 asc "Placidus";
      mkHouse 2 c2 "Placidus";
      mkHouse 3 c3 "Placidus";
      mkHouse 4 (js_rem (mc + 180) 360) "Placidus";
      mkHouse 5 (js_rem (c3 + 180) 360) "Placidus";
      mkHouse 6 c6 "Placidus";
      mkHouse 7 (js_rem (asc + 180) 360) "Placidus";
      mkHouse 8 (js_rem (c6 + 30 + sin (lat * 0.1) * 5) 360) "Placidus";
      mkHouse 9 (js_rem (c6 + 60 + sin (lat * 0.2) * 7) 360) "Placidus";
      mkHouse 10 mc "Placidus";
      mkHouse 11 (js_rem (mc + 30 + sin (lat * 0.1) * 5) 360) "Placidus";
      mkHouse 12 (js_rem (mc + 60 + sin (lat * 0.2) * 7) 360) "Placidus" ].
Proof.
  intros Hsys. cbv zeta. unfold calculateHouses. rewrite Hsys. cbv zeta.
  unfold push, cuspAt. cbn [app nth cusp]. rewrite sortByNumber_pushed.
  reflexivity.
Qed.

(** Outside the equal system the houses come back numbered 1 to 12 in
    order, all tagged Placidus; the seventh, fourth, fifth and sixth
    cusps are the first, tenth, third and second turned by 180 degrees
    and reduced by [% 360], and the eighth and ninth cusps are built on
    the sixth cusp, with the same latitude terms as the second and
    third. *)
Theorem calculateHouses_placidus_structure (jd lat lon : R) (sys : string) :
  String.eqb sys "equal" = false ->
  let houses := calculateHouses jd lat lon sys in
  let c := cuspAt houses in
  map number houses = [1; 2; 3; 4; 5; 6; 7; 8; 9; 10; 11; 12]%Z /\
  Forall (fun h => system h = "Placidus") houses /\
  c 6%nat = js_rem (c 0%nat + 180) 360 /\
  c 3%nat = js_rem (c 9%nat + 180) 360 /\
  c 4%nat = js_rem (c 2%nat + 180) 360 /\
  c 5%nat = js_rem (c 1%nat + 180) 360 /\
  c 7%nat = js_rem (c 5%nat + 30 + sin (lat * 0.1) * 5) 360 /\
  c 8%nat = js_rem (c 5%nat + 60 + sin (lat * 0.2) * 7) 360.
Proof.
  intros Hsys houses c. subst c houses.
  rewrite (calculateHouses_placidus jd lat lon sys Hsys).
  unfold cuspAt. cbn [map number nth cusp].
  split; [reflexivity|]. split; [repeat constructor|].
  repeat split.
Qed.

(** The theorem applied to the Placidus system at the epoch. *)
Lemma calculateHouses_placidus_structure_witness :
  map number (calculateHouses 2451545 0 0 "placidus")
  = [1; 2; 3; 4; 5; 6; 7; 8; 9; 10; 11; 12]%Z.
Proof.
  apply (calculateHouses_placidus_structure 2451545 0 0 "placidus").
  reflexivity.
Defined.

(** ** The equal houses *)

Lemma INR_below_12 (i : nat) : (i < 12)%nat -> 0 <= INR i <= 11.
Proof.
  intros Hi. split; [apply pos_INR|].
  assert (H : INR i <= INR 11) by (apply le_INR; lia).
  simpl INR in H. lra.
Qed.

Lemma equal_cusp_form (asc : R) (i : nat) :
  0 <= asc < 360 -> (i < 12)%nat ->
  (asc + INR i * 30 < 360 /\ js_rem (asc + INR i * 30) 360 = asc + INR i * 30)
  \/ (360 <= asc + INR i * 30
      /\ js_rem (asc + INR i * 30) 360 = asc + INR i * 30 - 360).
Proof.
  intros Hasc Hi.
  pose proof (INR_below_12 i Hi).
  apply js_rem_two_turns. lra.
Qed.

Lemma equal_cusp_at (jd lat lon : R) (i : nat) :
  (i < 12)%nat ->
  nth_error (calculateHouses jd lat lon "equal") i
  = Some (mkHouse (Z.of_nat i + 1)
            (js_rem (calculateAscendant jd lat lon + INR i * 30) 360) "Equal").
Proof.
  intros Hi. rewrite calculateHouses_equal.
  do 12 (destruct i as [|i]; [reflexivity|]). lia.
Qed.

(** With the equal system every cusp lies in [0, 360) and no two of the
    twelve cusps coincide. *)
Theorem equal_cusps_distinct (jd lat lon : R) (i j : nat) :
  (i < 12)%nat -> (j < 12)%nat ->
  let c := cuspAt (calculateHouses jd lat lon "equal") in
  0 <= c i < 360 /\ (c i = c j -> i = j).
Proof.
  intros Hi Hj c. subst c. unfold cuspAt.
  rewrite (nth_error_nth _ _ _ (equal_cusp_at jd lat lon i Hi)).
  rewrite (nth_error_nth _ _ _ (equal_cusp_at jd lat lon j Hj)).
  cbn [cusp].
  pose proof (calculateAscendant_range jd lat lon) as Hasc.
  set (asc := calculateAscendant jd lat lon) in *.
  pose proof (INR_below_12 i Hi) as Bi.
  pose proof (INR_below_12 j Hj) as Bj.
  split.
  - apply js_rem_nonneg; lra.
  - intros Heq. apply INR_eq.
    destruct (equal_cusp_form asc i Hasc Hi) as [[? Ei] | [? Ei]];
      destruct (equal_cusp_form asc j Hasc Hj) as [[? Ej] | [? Ej]];
      rewrite Ei, Ej in Heq; lra.
Qed.

(** The theorem applied to the first and the tenth cusp at the epoch. *)
Lemma equal_cusps_distinct_witness :
  0 <= cuspAt (calculateHouses 2451545 0 0 "equal") 0 < 360.
Proof.
  apply (equal_cusps_distinct 2451545 0 0 0 9); lia.
Defined.

(** ** House placement: which arc wins *)

Lemma houses_defined (houses : list House) (j : nat) :
  List.length houses = 12%nat -> (j < 12)%nat ->
  exists hs he,
    nth_error houses j = Some hs /\
    nth_error houses (Nat.modulo (j + 1) 12) = Some he.
Proof.
  intros Hlen Hj.
  destruct (nth_error houses j) as [hs|] eqn:Es;
    [|apply nth_error_None in Es; lia].
  destruct (nth_error houses (Nat.modulo (j + 1) 12)) as [he|] eqn:Ee.
  - exists hs, he. auto.
  - apply nth_error_None in Ee.
    pose proof (Nat.mod_upper_bound (j + 1) 12 ltac:(lia)). lia.
Qed.

Lemma determinePlanetHouse_loop_first (lon : R) (houses : list House)
    (i k a : nat) :
  List.length houses = 12%nat -> (a + k <= 12)%nat -> (a <= i < a + k)%nat ->
  (forall j, (a <= j < i)%nat -> arcAt houses lon j = false) ->
  arcAt houses lon i = true ->
  determinePlanetHouse_loop lon houses (seq a k) = Some (Z.of_nat i + 1)%Z.
Proof.
  intros Hlen. revert a. induction k as [|k IH]; intros a Hk Hi Hbefore Harc;
    [lia|].
  cbn [seq determinePlanetHouse_loop].
  destruct (houses_defined houses a Hlen ltac:(lia)) as (hs & he & Es & Ee).
  rewrite Es, Ee.
  destruct (Nat.eq_dec a i) as [Heq | Hne].
  - subst a. unfold arcAt in Harc. rewrite Es, Ee in Harc. rewrite Harc.
    reflexivity.
  - pose proof (Hbefore a ltac:(lia)) as Hfalse.
    unfold arcAt in Hfalse. rewrite Es, Ee in Hfalse. rewrite Hfalse.
    apply IH; [lia | lia | | exact Harc].
    intros j Hj. apply Hbefore. lia.
Qed.

(** On twelve houses determinePlanetHouse returns the number of the
    first house, in list order, whose arc contains the planet: a later
    arc that would also contain it is never returned. *)
Theorem determinePlanetHouse_first_arc (planetPosition : PlanetPosition)
    (houses : list House) (i : nat) :
  List.length houses = 12%nat -> (i < 12)%nat ->
  arcAt houses (longitude planetPosition) i = true ->
  (forall j, (j < i)%nat -> arcAt houses (longitude planetPosition) j = false) ->
  determinePlanetHouse planetPosition houses = Some (Z.of_nat i + 1)%Z.
Proof.
  intros Hlen Hi Harc Hbefore. unfold determinePlanetHouse, indices12.
  apply determinePlanetHouse_loop_first; try assumption; try lia.
  intros j Hj. apply Hbefore. lia.
Qed.

Lemma inHouseArc_true (lon cs ce : R) :
  (ce < cs /\ (cs <= lon \/ lon < ce)) \/ (cs <= ce /\ cs <= lon < ce) ->
  inHouseArc lon cs ce = true.
Proof.
  unfold inHouseArc, Rgeb. intros [[H1 H2] | [H1 [H2 H3]]].
  - replace (Rltb ce cs) with true by (symmetry; apply Rltb_true; exact H1).
    apply orb_true_iff. destruct H2 as [H2 | H2].
    + left. apply Rleb_true. exact H2.
    + right. apply Rltb_true. exact H2.
  - replace (Rltb ce cs) with false by (symmetry; apply Rltb_false; exact H1).
    apply andb_true_iff. split; [apply Rleb_true | apply Rltb_true]; assumption.
Qed.

(** The theorem applied to a planet at 100 degrees and houses whose
    cusps are 0, 90, 180 and then 270 nine times: the second house
    wins. *)
Lemma determinePlanetHouse_first_arc_witness :
  determinePlanetHouse
    (mkPlanetPosition 100 0 3 10 false (mkPlanetInfo "Sun" "S" "#FFD700" 1))
    ([mkHouse 1 0 "Equal"; mkHouse 2 90 "Equal"; mkHouse 3 180 "Equal"]
       ++ repeat (mkHouse 4 270 "Equal") 9)%list
  = Some 2%Z.
Proof.
  apply (determinePlanetHouse_first_arc
           (mkPlanetPosition 100 0 3 10 false
              (mkPlanetInfo "Sun" "S" "#FFD700" 1))
           ([mkHouse 1 0 "Equal"; mkHouse 2 90 "Equal"; mkHouse 3 180 "Equal"]
              ++ repeat (mkHouse 4 270 "Equal") 9)%list 1).
  - reflexivity.
  - lia.
  - unfold arcAt. cbn [nth_error app repeat Nat.modulo Nat.divmod Nat.add
                        fst snd Nat.sub cusp longitude].
    apply inHouseArc_true. right. lra.
  - intros j Hj. assert (j = 0%nat) by lia. subst j.
    unfold arcAt. cbn [nth_error app repeat Nat.modulo Nat.divmod Nat.add
                        fst snd Nat.sub cusp longitude].
    unfold inHouseArc, Rgeb.
    replace (Rltb 90 0) with false by (symmetry; apply Rltb_false; lra).
    replace (Rltb 100 90) with false by (symmetry; apply Rltb_false; lra).
    apply andb_false_r.
Defined.

Lemma determinePlanetHouse_loop_short (lon : R) (houses : list House)
    (k a : nat) :
  (List.length houses < 12)%nat ->
  (a <= List.length houses - 1 < a + k)%nat ->
  (forall j, (j + 1 < List.length houses)%nat -> arcAt houses lon j = false) ->
  determinePlanetHouse_loop lon houses (seq a k) = None.
Proof.
  intros Hlen. revert a. induction k as [|k IH]; intros a Ha Hfalse; [lia|].
  cbn [seq determinePlanetHouse_loop].
  destruct (Nat.eq_dec a (List.length houses - 1)) as [Heq | Hne].
  - destruct (nth_error houses a) as [hs|] eqn:Es; [|reflexivity].
    assert (Hn : (a < List.length houses)%nat)
      by (apply nth_error_Some; congruence).
    replace (Nat.modulo (a + 1) 12) with (List.length houses)
      by (rewrite Nat.mod_small; lia).
    replace (nth_error houses (List.length houses)) with (@None House)
      by (symmetry; apply nth_error_None; lia).
    reflexivity.
  - assert (Hj : (a + 1 < List.length houses)%nat) by lia.
    pose proof (Hfalse a Hj) as Hf. unfold arcAt in Hf.
    destruct (nth_error houses a) as [hs|] eqn:Es;
      [|apply nth_error_None in Es; lia].
    rewrite Nat.mod_small in * by lia.
    destruct (nth_error houses (a + 1)) as [he|] eqn:Ee;
      [|apply nth_error_None in Ee; lia].
    rewrite Hf. apply IH; [lia | exact Hfalse].
Qed.

(** On a list of fewer than twelve houses determinePlanetHouse raises a
    TypeError unless one of the arcs between two houses that are present
    contains the planet; in particular it raises on an empty list. *)
Theorem determinePlanetHouse_short_list (planetPosition : PlanetPosition)
    (houses : list House) :
  (List.length houses < 12)%nat ->
  (forall j, (j + 1 < List.length houses)%nat ->
     arcAt houses (longitude planetPosition) j = false) ->
  determinePlanetHouse planetPosition houses = None.
Proof.
  intros Hlen Hfalse. unfold determinePlanetHouse, indices12.
  apply determinePlanetHouse_loop_short; [exact Hlen | lia | exact Hfalse].
Qed.

(** The theorem applied to an empty list of houses. *)
Lemma determinePlanetHouse_short_list_witness :
  determinePlanetHouse
    (mkPlanetPosition 100 0 3 10 false (mkPlanetInfo "Sun" "S" "#FFD700" 1))
    [] = None.
Proof.
  apply determinePlanetHouse_short_list.
  - cbn. lia.
  - intros j Hj. cbn in Hj. lia.
Defined.

(** ** House placement in the equal houses *)

Lemma least_true (f : nat -> bool) (i : nat) :
  f i = true ->
  exists i0, (i0 <= i)%nat /\ f i0 = true /\
             forall j, (j < i0)%nat -> f j = false.
Proof.
  induction i as [i IH] using lt_wf_ind. intros Hi.
  destruct (existsb f (seq 0 i)) eqn:E.
  - apply existsb_exists in E. destruct E as (j & Hj & Hfj).
    apply in_seq in Hj.
    destruct (IH j ltac:(lia) Hfj) as (i0 & H0 & H1 & H2).
    exists i0. split; [lia | auto].
  - exists i. split; [lia|]. split; [exact Hi|].
    intros j Hj. destruct (f j) eqn:Efj; [|reflexivity].
    assert (existsb f (seq 0 i) = true).
    { apply existsb_exists. exists j. split; [apply in_seq; lia | exact Efj]. }
    congruence.
Qed.

(** In the equal houses some arc contains every longitude of the
    circle. *)
Lemma equal_houses_cover (jd lat lon x : R) :
  0 <= x < 360 ->
  exists k, (k < 12)%nat /\
            arcAt (calculateHouses jd lat lon "equal") x k = true.
Proof.
  intros Hx.
  pose proof (calculateAscendant_range jd lat lon) as Hasc.
  set (asc := calculateAscendant jd lat lon) in *.
  set (d := if Rle_dec asc x then x - asc else x - asc + 360).
  assert (Hd : 0 <= d < 360) by (unfold d; destruct (Rle_dec asc x); lra).
  assert (Hq : 0 <= d / 30 < 12) by (apply div_between; lra).
  pose proof (Math_floor_bounds (d / 30)) as [F1 F2].
  pose proof (Math_floor_nonneg _ (proj1 Hq)) as Fn.
  pose proof (Math_floor_lt (d / 30) 12 ltac:(simpl; lra)) as Fl.
  set (k := Z.to_nat (Math_floor (d / 30))).
  assert (Hk : (k < 12)%nat) by (unfold k; lia).
  assert (Ek : INR k = IZR (Math_floor (d / 30)))
    by (unfold k; rewrite INR_IZR_INZ, Z2Nat.id by lia; reflexivity).
  assert (Bk : 30 * INR k <= d < 30 * INR k + 30) by (rewrite Ek; lra).
  exists k. split; [exact Hk|].
  unfold arcAt. rewrite (equal_cusp_at jd lat lon k Hk).
  assert (Hnext : (Nat.modulo (k + 1) 12 < 12)%nat)
    by (apply Nat.mod_upper_bound; lia).
  rewrite (equal_cusp_at jd lat lon _ Hnext). cbn [cusp]. fold asc.
  assert (En : (k = 11%nat /\ Nat.modulo (k + 1) 12 = 0%nat) \/
               ((k < 11)%nat /\ Nat.modulo (k + 1) 12 = (k + 1)%nat)).
  { destruct (Nat.eq_dec k 11) as [E | E].
    - left. subst k. rewrite E. split; reflexivity.
    - right. split; [lia|]. apply Nat.mod_small. lia. }
  destruct (equal_cusp_form asc k Hasc Hk) as [[Ck Efk] | [Ck Efk]];
    rewrite Efk; clear Efk;
    destruct En as [[E11 En] | [Elt En]]; rewrite En; clear En.
  all: try (assert (Ex : INR k = 11) by (rewrite E11; simpl; lra)).
  all: try (pose proof (equal_first_cusp jd lat lon) as E0; fold asc in E0;
            rewrite E0; clear E0).
  all: try (destruct (equal_cusp_form asc (k + 1) Hasc ltac:(lia))
              as [[Cn Efn] | [Cn Efn]];
            rewrite Efn; clear Efn; rewrite plus_INR in *; simpl INR in * ).
  all: unfold d in *; destruct (Rle_dec asc x);
    apply inHouseArc_true;
    first [ left; split; [lra|]; first [left; lra | right; lra]
          | right; lra ].
Qed.

(** With the equal houses of a chart and a planet whose longitude is in
    [0, 360), determinePlanetHouse returns a house from 1 to 12 whose arc
    does contain the planet: it never falls back on its default. *)
Theorem determinePlanetHouse_in_equal_houses (jd lat lon : R)
    (planetPosition : PlanetPosition) :
  0 <= longitude planetPosition < 360 ->
  let houses := calculateHouses jd lat lon "equal" in
  exists i, (i < 12)%nat /\
    determinePlanetHouse planetPosition houses = Some (Z.of_nat i + 1)%Z /\
    arcAt houses (longitude planetPosition) i = true.
Proof.
  intros Hx houses.
  destruct (equal_houses_cover jd lat lon (longitude planetPosition) Hx)
    as (k & Hk & Harc).
  destruct (least_true (arcAt houses (longitude planetPosition)) k Harc)
    as (i & Hi & Hai & Hbefore).
  exists i. split; [lia|]. split; [|exact Hai].
  apply determinePlanetHouse_loop_first with (a := 0%nat) (k := 12%nat) (i := i);
    try assumption; try lia.
  - subst houses. apply calculateHouses_length.
  - intros j Hj. apply Hbefore. lia.
Qed.

(** The theorem applied to a planet at 100 degrees at the epoch. *)
Lemma determinePlanetHouse_in_equal_houses_witness :
  exists i, (i < 12)%nat /\
    determinePlanetHouse
      (mkPlanetPosition 100 0 3 10 false (mkPlanetInfo "Sun" "S" "#FFD700" 1))
      (calculateHouses 2451545 0 0 "equal") = Some (Z.of_nat i + 1)%Z.
Proof.
  destruct (determinePlanetHouse_in_equal_houses 2451545 0 0
              (mkPlanetPosition 100 0 3 10 false
                 (mkPlanetInfo "Sun" "S" "#FFD700" 1)))
    as (i & Hi & Hd & _).
  - cbn [longitude]. lra.
  - exists i. split; [exact Hi | exact Hd].
Defined.

(** ** Aspects: when one is emitted, and what it carries *)

Lemma checkAspectTypes_some (k1 k2 : string) (p1 p2 : PlanetPosition)
    (angle : R) (types : list (string * AspectType)) :
  existsb (fun e => withinOrb angle (snd e)) types = true ->
  exists asp, checkAspectTypes k1 k2 p1 p2 angle types = [asp].
Proof.
  induction types as [|[key aspect] rest IH]; cbn [existsb checkAspectTypes snd];
    [discriminate|].
  destruct (withinOrb angle aspect); [eauto|]. exact IH.
Qed.

Lemma checkAspectTypes_none (k1 k2 : string) (p1 p2 : PlanetPosition)
    (angle : R) (types : list (string * AspectType)) :
  existsb (fun e => withinOrb angle (snd e)) types = false ->
  checkAspectTypes k1 k2 p1 p2 angle types = [].
Proof.
  induction types as [|[key aspect] rest IH]; cbn [existsb checkAspectTypes snd];
    [reflexivity|].
  destruct (withinOrb angle aspect); [discriminate|]. exact IH.
Qed.

Lemma calculateAspects_of_pair (pre mid post : list (string * PlanetPosition))
    (e1 e2 : string * PlanetPosition) (asp : Aspect) :
  In asp (aspectsOfPair e1 e2) ->
  In asp (calculateAspects (pre ++ e1 :: mid ++ e2 :: post)).
Proof.
  intros H. induction pre as [|e pre IH]; cbn [app calculateAspects].
  - apply in_or_app. left. apply in_flat_map. exists e2.
    split; [apply in_or_app; right; left; reflexivity | exact H].
  - apply in_or_app. right. exact IH.
Qed.

Lemma aspectsOfPair_angle_sym (e1 e2 : string * PlanetPosition) :
  separation (longitude (snd e1)) (longitude (snd e2))
  = separation (longitude (snd e2)) (longitude (snd e1)).
Proof. apply separation_sym. Qed.

(** Two entries of a list, in the order in which they occur. *)
Lemma two_entries_split {A : Type} (l : list A) (x y : A) :
  In x l -> In y l -> x <> y ->
  exists pre mid post,
    l = (pre ++ x :: mid ++ y :: post)%list \/
    l = (pre ++ y :: mid ++ x :: post)%list.
Proof.
  intros Hx Hy Hne. apply in_split in Hx. destruct Hx as (l1 & l2 & El).
  subst l. apply in_app_or in Hy. destruct Hy as [Hy | [Hy | Hy]].
  - apply in_split in Hy. destruct Hy as (m1 & m2 & Em). subst l1.
    exists m1, m2, l2. right. rewrite <- app_assoc. reflexivity.
  - congruence.
  - apply in_split in Hy. destruct Hy as (m1 & m2 & Em). subst l2.
    exists l1, m1, m2. left. reflexivity.
Qed.

Lemma lookup_some_in {A : Type} (o : list (string * A)) (k : string) (v : A) :
  lookup k o = Some v -> In (k, v) o.
Proof.
  induction o as [|[k' v'] o IH]; cbn [lookup]; [discriminate|].
  destruct (String.eqb k k') eqn:E.
  - apply String.eqb_eq in E. intros H. inversion H; subst. left. reflexivity.
  - intros H. right. apply IH. exact H.
Qed.

(** For two distinct planets of a map of positions, calculateAspects
    emits exactly one aspect for the pair when the orb test of some
    aspect type passes at their angle, and none when every test fails;
    the emitted aspect names the earlier planet of the map first. *)
Theorem calculateAspects_emits_iff (ps : list (string * PlanetPosition))
    (a b : string) (pa pb : PlanetPosition) :
  NoDup (map fst ps) -> a <> b ->
  lookup a ps = Some pa -> lookup b ps = Some pb ->
  let angle := separation (longitude pa) (longitude pb) in
  List.length (filter (joins a b) (calculateAspects ps))
  = (if existsb (fun e => withinOrb angle (snd e)) aspectTypes
     then 1 else 0)%nat.
Proof.
  intros Hnd Hab Ha Hb angle.
  pose proof (calculateAspects_count ps a b Hnd) as Hle.
  destruct (existsb (fun e => withinOrb angle (snd e)) aspectTypes) eqn:E.
  - assert (Hex : exists asp, In asp (calculateAspects ps) /\ joins a b asp = true).
    { apply lookup_some_in in Ha, Hb.
      destruct (two_entries_split ps (a, pa) (b, pb) Ha Hb ltac:(congruence))
        as (pre & mid & post & [Eps | Eps]).
      - destruct (checkAspectTypes_some a b pa pb angle aspectTypes E)
          as [asp Hasp].
        exists asp. split.
        + rewrite Eps. apply calculateAspects_of_pair.
          unfold aspectsOfPair. cbn [fst snd]. fold angle. rewrite Hasp.
          left. reflexivity.
        + assert (Hin : In asp (checkAspectTypes a b pa pb angle aspectTypes))
            by (rewrite Hasp; left; reflexivity).
          destruct (checkAspectTypes_spec a b pa pb angle aspectTypes)
            as [_ Hspec].
          destruct (Hspec asp Hin) as (P1 & P2 & _).
          apply joins_true. left. auto.
      - assert (E' : existsb (fun e => withinOrb
                                (separation (longitude pb) (longitude pa))
                                (snd e)) aspectTypes = true)
          by (rewrite separation_sym; exact E).
        destruct (checkAspectTypes_some b a pb pa _ aspectTypes E')
          as [asp Hasp].
        exists asp. split.
        + rewrite Eps. apply calculateAspects_of_pair.
          unfold aspectsOfPair. cbn [fst snd]. rewrite Hasp.
          left. reflexivity.
        + assert (Hin : In asp (checkAspectTypes b a pb pa
                                  (separation (longitude pb) (longitude pa))
                                  aspectTypes))
            by (rewrite Hasp; left; reflexivity).
          destruct (checkAspectTypes_spec b a pb pa
                      (separation (longitude pb) (longitude pa)) aspectTypes)
            as [_ Hspec].
          destruct (Hspec asp Hin) as (P1 & P2 & _).
          apply joins_true. right. auto. }
    destruct Hex as (asp & Hin & Hj).
    assert (Hf : In asp (filter (joins a b) (calculateAspects ps)))
      by (apply filter_In; auto).
    destruct (filter (joins a b) (calculateAspects ps)) as [|x l];
      [destruct Hf|]. cbn [List.length] in *. lia.
  - rewrite filter_nil_of_false; [reflexivity|].
    intros asp Hin. destruct (joins a b asp) eqn:Hj; [|reflexivity].
    exfalso.
    destruct (calculateAspects_in ps asp Hin)
      as (e1 & e2 & pre & mid & post & Hps & Hasp).
    assert (L1 : lookup (fst e1) ps = Some (snd e1)).
    { apply lookup_in_nodup; [exact Hnd|]. rewrite Hps.
      apply in_or_app. right. left. destruct e1; reflexivity. }
    assert (L2 : lookup (fst e2) ps = Some (snd e2)).
    { apply lookup_in_nodup; [exact Hnd|]. rewrite Hps.
      apply in_or_app. right. right. apply in_or_app. right. left.
      destruct e2; reflexivity. }
    destruct (aspectsOfPair_planets e1 e2 asp Hasp) as [P1 P2].
    apply joins_true in Hj. unfold aspectsOfPair in Hasp.
    assert (Hang : separation (longitude (snd e1)) (longitude (snd e2)) = angle).
    { destruct Hj as [[J1 J2] | [J1 J2]].
      - assert (snd e1 = pa) by congruence. assert (snd e2 = pb) by congruence.
        subst pa pb. reflexivity.
      - assert (snd e1 = pb) by congruence. assert (snd e2 = pa) by congruence.
        subst pa pb. apply separation_sym. }
    rewrite Hang in Hasp.
    rewrite (checkAspectTypes_none _ _ _ _ angle aspectTypes E) in Hasp.
    destruct Hasp.
Qed.

(** The theorem applied to the Sun at 0 degrees and the Moon at 90. *)
Lemma calculateAspects_emits_iff_witness :
  List.length (filter (joins "sun" "moon") (calculateAspects squarePositions))
  = (if existsb (fun e => withinOrb (separation 0 90) (snd e)) aspectTypes
     then 1 else 0)%nat.
Proof.
  apply (calculateAspects_emits_iff squarePositions "sun" "moon"
           (positionAt (mkPlanetInfo "Sun"  "☉" "#FFD700" 1) 0)
           (positionAt (mkPlanetInfo "Moon" "☽" "#SILVER" 13.2) 90)).
  - cbn. repeat constructor; cbn; intuition discriminate.
  - discriminate.
  - reflexivity.
  - reflexivity.
Defined.

(** What the inner loop writes into the aspect it pushes. *)
Lemma checkAspectTypes_fields (k1 k2 : string) (p1 p2 : PlanetPosition)
    (angle : R) (types : list (string * AspectType)) (asp : Aspect) :
  In asp (checkAspectTypes k1 k2 p1 p2 angle types) ->
  exists row,
    In (a_type asp, row) types /\
    a_angle asp = angle /\
    a_orb asp = Math_abs (angle - at_angle row) /\
    a_orb asp <= at_orb row /\
    a_symbol asp = at_symbol row /\ a_name asp = at_name row /\
    a_influence asp = at_influence row.
Proof.
  induction types as [|[key aspect] rest IH]; cbn [checkAspectTypes];
    [intros []|].
  destruct (withinOrb angle aspect) eqn:Horb.
  - intros [Hasp | []]. subst asp. exists aspect.
    cbn [a_type a_angle a_orb a_symbol a_name a_influence].
    split; [left; reflexivity|]. split; [reflexivity|].
    split; [reflexivity|]. split; [|auto].
    unfold withinOrb in Horb. apply Rleb_true in Horb. exact Horb.
  - intros Hin. destruct (IH Hin) as (row & Hrow & Hrest).
    exists row. split; [right; exact Hrow | exact Hrest].
Qed.

(** Every aspect that calculateAspects emits joins two different planets
    of the map, both with a position; its type is a key of the table of
    aspect types, and it carries the symbol, name and influence of that
    row of the table. *)
Theorem calculateAspects_fields (ps : list (string * PlanetPosition))
    (asp : Aspect) :
  NoDup (map fst ps) ->
  In asp (calculateAspects ps) ->
  planet1 asp <> planet2 asp /\
  (exists p1 p2 row,
     lookup (planet1 asp) ps = Some p1 /\ lookup (planet2 asp) ps = Some p2 /\
     lookup (a_type asp) aspectTypes = Some row /\
     a_symbol asp = at_symbol row /\ a_name asp = at_name row /\
     a_influence asp = at_influence row).
Proof.
  intros Hnd Hin.
  destruct (calculateAspects_in ps asp Hin)
    as (e1 & e2 & pre & mid & post & Hps & Hasp).
  destruct (aspectsOfPair_planets e1 e2 asp Hasp) as [P1 P2].
  assert (I1 : In e1 ps) by (rewrite Hps; apply in_or_app; right; left; reflexivity).
  assert (I2 : In e2 ps).
  { rewrite Hps. apply in_or_app. right. right. apply in_or_app. right.
    left. reflexivity. }
  assert (L1 : lookup (fst e1) ps = Some (snd e1))
    by (apply lookup_in_nodup; [exact Hnd | destruct e1; exact I1]).
  assert (L2 : lookup (fst e2) ps = Some (snd e2))
    by (apply lookup_in_nodup; [exact Hnd | destruct e2; exact I2]).
  unfold aspectsOfPair in Hasp.
  destruct (checkAspectTypes_fields _ _ _ _ _ _ asp Hasp)
    as (row & Hrow & Hang & Horb & Hle & Hsym & Hname & Hinf).
  split.
  - rewrite P1, P2. intros Heq.
    rewrite Hps, map_app in Hnd. cbn [map] in Hnd.
    apply NoDup_remove_2 in Hnd. apply Hnd.
    apply in_or_app. right. rewrite map_app. apply in_or_app. right.
    cbn [map]. left. symmetry. exact Heq.
  - exists (snd e1), (snd e2), row.
    rewrite P1, P2. split; [exact L1|]. split; [exact L2|].
    split.
    { apply lookup_in_nodup; [|exact Hrow].
      unfold aspectTypes. cbn [map fst].
      repeat (constructor; [cbn [In]; intuition discriminate|]). constructor. }
    auto.
Qed.

(** The theorem applied to the aspect of the Sun at 0 degrees and the
    Moon at 90. *)
Lemma calculateAspects_fields_witness :
  exists asp, In asp (calculateAspects squarePositions) /\
              planet1 asp <> planet2 asp.
Proof.
  assert (E : exists asp, calculateAspects squarePositions = [asp]).
  { unfold squarePositions. cbn [calculateAspects flat_map app].
    unfold aspectsOfPair, positionAt. cbn [fst snd longitude].
    rewrite (separation_sym 0 90), (separation_small 90 0) by lra.
    replace (90 - 0) with 90 by lra.
    walk_aspect_types. eexists. reflexivity. }
  destruct E as [asp E].
  assert (Hin : In asp (calculateAspects squarePositions))
    by (rewrite E; left; reflexivity).
  exists asp. split; [exact Hin|].
  apply (calculateAspects_fields squarePositions asp).
  - cbn. repeat constructor; cbn; intuition discriminate.
  - exact Hin.
Defined.

(** A map of n positions yields at most n(n-1)/2 aspects: 45 for the
    ten planets. *)
Theorem calculateAspects_at_most_pairs (ps : list (string * PlanetPosition)) :
  (2 * List.length (calculateAspects ps)
   <= List.length ps * (List.length ps - 1))%nat.
Proof.
  induction ps as [|e ps IH]; [cbn; lia|].
  cbn [calculateAspects]. rewrite length_app.
  assert (Hrow : (List.length (flat_map (fun e2 => aspectsOfPair e e2) ps)
                  <= List.length ps)%nat).
  { clear IH. induction ps as [|e2 ps IH]; [cbn; lia|].
    cbn [flat_map]. rewrite length_app. cbn [List.length].
    assert (H1 : (List.length (aspectsOfPair e e2) <= 1)%nat)
      by (unfold aspectsOfPair; apply checkAspectTypes_spec).
    lia. }
  cbn [List.length]. nia.
Qed.

(** ** Dignities: what each category means *)

Ltac settle_dignity :=
  repeat match goal with
  | |- context [(?a =? ?b)%Z] => destruct (Z.eqb_spec a b)
  end;
  cbn [orb andb In];
  repeat split; intros;
  repeat match goal with
  | H : _ \/ _ |- _ => destruct H
  | H : _ /\ _ |- _ => destruct H
  | H : exists _, _ |- _ => destruct H
  | H : False |- _ => destruct H
  end;
  subst; try discriminate; try lia; try tauto;
  try (left; lia); try (right; left; lia);
  try (eexists; split; [left; reflexivity | reflexivity]);
  try (eexists; split; [right; left; reflexivity | reflexivity]).

(** For each of the ten planets the four sign sets of its row are
    read without overlap: the dignity is Rulership, Exaltation,
    Detriment or Fall exactly when the sign is in the set of that name,
    and Neutral exactly when it is in none; the detriment signs are the
    rulership signs moved by six signs, and the fall sign the exaltation
    sign moved by six.  A planet outside the table is always Neutral. *)
Theorem getPlanetDignity_characterised :
  Forall (fun planet =>
    exists row, lookup planet dignities = Some row /\
      forall s : Z,
        (getPlanetDignity planet s = "Rulership"
         <-> In s (signSet (rulership row))) /\
        (getPlanetDignity planet s = "Exaltation"
         <-> In s (signSet (exaltation row))) /\
        (getPlanetDignity planet s = "Detriment"
         <-> In s (signSet (detriment row))) /\
        (getPlanetDignity planet s = "Fall"
         <-> In s (signSet (fall row))) /\
        (In s (signSet (detriment row))
         <-> exists r, In r (signSet (rulership row)) /\ s = ((r + 6) mod 12)%Z) /\
        (In s (signSet (fall row))
         <-> exists r, In r (signSet (exaltation row)) /\ s = ((r + 6) mod 12)%Z))
    planetKeys /\
  (forall planet s, ~ In planet planetKeys ->
     getPlanetDignity planet s = "Neutral").
Proof.
  split.
  - rewrite planetKeys_list.
    repeat (constructor;
      [ eexists; split; [reflexivity|];
        intros s; unfold getPlanetDignity;
        cbn [lookup dignities String.eqb Ascii.eqb Bool.eqb
             rulership exaltation detriment fall signSet strictEq
             arrayIncludes existsb];
        settle_dignity |]).
    constructor.
  - intros planet s Hnot. unfold getPlanetDignity.
    replace (lookup planet dignities) with (@None DignityRow); [reflexivity|].
    symmetry. apply lookup_none_iff. exact Hnot.
Qed.

(** ** Element and modality balance *)

Lemma increment_keys (key : string) (counts : list (string * Z)) :
  map fst (increment key counts) = map fst counts.
Proof.
  unfold increment. rewrite map_map. apply map_ext.
  intros [k n]. cbn [fst snd]. destruct (String.eqb k key); reflexivity.
Qed.

Lemma pushMember_keys (key nm : string) (members : list (string * list string)) :
  map fst (pushMember key nm members) = map fst members.
Proof.
  unfold pushMember. rewrite map_map. apply map_ext.
  intros [k n]. cbn [fst snd]. destruct (String.eqb k key); reflexivity.
Qed.

Lemma increment_absent (key : string) (counts : list (string * Z)) :
  ~ In key (map fst counts) -> increment key counts = counts.
Proof.
  intros Hnot. unfold increment. rewrite <- (map_id counts) at 2.
  apply map_ext_in. intros [k n] Hin. cbn [fst snd].
  destruct (String.eqb k key) eqn:E; [|reflexivity].
  apply String.eqb_eq in E. subst k. exfalso. apply Hnot.
  apply in_map_iff. exists (key, n). auto.
Qed.

Lemma increment_total (key : string) (counts : list (string * Z)) :
  NoDup (map fst counts) -> In key (map fst counts) ->
  totalCount (increment key counts) = (totalCount counts + 1)%Z.
Proof.
  unfold totalCount.
  induction counts as [|[k n] counts IH]; intros Hnd Hin; [destruct Hin|].
  cbn [map fst] in Hnd. inversion Hnd as [|? ? Hnot Hnd']; subst.
  cbn [increment map fst snd fold_right].
  destruct (String.eqb k key) eqn:E.
  - apply String.eqb_eq in E. subst k. cbn [snd].
    fold (increment key counts). rewrite increment_absent by exact Hnot. lia.
  - apply String.eqb_neq in E. cbn [snd]. fold (increment key counts).
    destruct Hin as [Heq | Hin]; [cbn in Heq; congruence|].
    rewrite IH by assumption. lia.
Qed.

Lemma increment_nonneg (key : string) (counts : list (string * Z)) :
  Forall (fun e => (0 <= snd e)%Z) counts ->
  Forall (fun e => (0 <= snd e)%Z) (increment key counts).
Proof.
  intros H. unfold increment. apply Forall_map.
  apply (Forall_impl _ (P := fun e => (0 <= snd e)%Z)); [|exact H].
  intros [k n] Hn. cbn [fst snd] in *.
  destruct (String.eqb k key); cbn [snd]; lia.
Qed.

Lemma countOf_nonneg (key : string) (counts : list (string * Z)) :
  Forall (fun e => (0 <= snd e)%Z) counts -> (0 <= countOf key counts)%Z.
Proof.
  intros H. unfold countOf. destruct (lookup key counts) as [n|] eqn:E; [|lia].
  apply lookup_some_in in E. rewrite Forall_forall in H.
  apply (H (key, n) E).
Qed.

Lemma totalCount_all_equal (counts : list (string * Z)) (c : Z) :
  NoDup (map fst counts) ->
  (forall k, In k (map fst counts) -> countOf k counts = c) ->
  totalCount counts = (Z.of_nat (List.length counts) * c)%Z.
Proof.
  unfold totalCount.
  induction counts as [|[k n] counts IH]; intros Hnd Hall; [cbn; lia|].
  cbn [map fst] in Hnd. inversion Hnd as [|? ? Hnot Hnd']; subst.
  assert (Hn : n = c).
  { specialize (Hall k (or_introl eq_refl)). unfold countOf in Hall.
    cbn [lookup] in Hall. rewrite String.eqb_refl in Hall. exact Hall. }
  cbn [map snd fold_right List.length]. rewrite IH; [lia | exact Hnd' |].
  intros k' Hk'. specialize (Hall k' (or_intror Hk')).
  unfold countOf in *. cbn [lookup] in Hall.
  destruct (String.eqb k' k) eqn:E; [|exact Hall].
  apply String.eqb_eq in E. subst k'. contradiction.
Qed.

(** The reduction with "keep the accumulator when it is strictly
    better" returns a key whose count no other key beats. *)
Lemma reduce_extreme (le : Z -> Z -> Prop) (better : Z -> Z -> bool)
    (counts : list (string * Z)) (rest : list string) (k : string) :
  (forall x, le x x) ->
  (forall x y z, le x y -> le y z -> le x z) ->
  (forall x y, better x y = true -> le y x) ->
  (forall x y, better x y = false -> le x y) ->
  let r := fold_left (fun a b => if better (countOf a counts) (countOf b counts)
                                 then a else b) rest k in
  In r (k :: rest) /\
  forall x, In x (k :: rest) -> le (countOf x counts) (countOf r counts).
Proof.
  intros Hrefl Htrans Ht Hf. revert k.
  induction rest as [|b rest IH]; intros k; cbn [fold_left].
  - split; [left; reflexivity|]. intros x [Hx | []]. subst. apply Hrefl.
  - destruct (better (countOf k counts) (countOf b counts)) eqn:E.
    + destruct (IH k) as [Hin Hmax]. split.
      * destruct Hin as [Hin | Hin]; [left; exact Hin | right; right; exact Hin].
      * intros x [Hx | [Hx | Hx]].
        -- apply Hmax. left. exact Hx.
        -- subst x. apply Htrans with (countOf k counts);
             [apply Ht; exact E | apply Hmax; left; reflexivity].
        -- apply Hmax. right. exact Hx.
    + destruct (IH b) as [Hin Hmax]. split.
      * right. exact Hin.
      * intros x [Hx | [Hx | Hx]].
        -- subst x. apply Htrans with (countOf b counts);
             [apply Hf; exact E | apply Hmax; left; reflexivity].
        -- apply Hmax. left. exact Hx.
        -- apply Hmax. right. exact Hx.
Qed.

Lemma foldM_fails {A S : Type} (f : S -> A -> option S) (l : list A) (x : A) :
  In x l -> (forall s, f s x = None) -> forall s, foldM f l s = None.
Proof.
  intros Hin Hx. induction l as [|y l IH]; intros s; [destruct Hin|].
  cbn [foldM]. destruct Hin as [Heq | Hin].
  - subst y. rewrite Hx. reflexivity.
  - destruct (f s y); [apply IH; exact Hin | reflexivity].
Qed.

Section BalanceTally.
Variable table : list string.
Variable classify : Z -> option string.
Hypothesis table_nodup : NoDup table.
Hypothesis table_inhabited : table <> [].

Lemma tally_runs (planets : list (string * PlanetPosition)) :
  (forall e, In e planets ->
     exists key, In key table /\
       classify (Math_floor (longitude (snd e) / 30)) = Some key) ->
  forall n state, tallied table n state ->
  exists state',
    foldM (tallyStep classify) planets state = Some state' /\
    tallied table (n + List.length planets) state'.
Proof.
  induction planets as [|e planets IH]; intros Hcl n state Hst.
  - exists state. split; [reflexivity|]. cbn [List.length].
    rewrite Nat.add_0_r. exact Hst.
  - destruct (Hcl e (or_introl eq_refl)) as (key & Hkey & Ekey).
    destruct Hst as (K1 & K2 & Tot & Pos).
    cbn [foldM]. unfold tallyStep at 1. cbv zeta. rewrite Ekey.
    destruct (lookup key (snd state)) as [set|] eqn:El.
    + destruct (IH (fun e' H => Hcl e' (or_intror H)) (S n)
                  (increment key (fst state),
                   pushMember key (name (registry (snd e))) (snd state)))
        as (state' & E' & T').
      * unfold tallied. cbn [fst snd].
        rewrite increment_keys, pushMember_keys.
        split; [exact K1|]. split; [exact K2|]. split.
        -- rewrite increment_total; [lia | rewrite K1; exact table_nodup
                                          | rewrite K1; exact Hkey].
        -- apply increment_nonneg. exact Pos.
      * exists state'. split; [exact E'|].
        cbn [List.length]. replace (n + S (List.length planets))%nat
          with (S n + List.length planets)%nat by lia. exact T'.
    + exfalso. apply lookup_none_iff in El. apply El. rewrite K2. exact Hkey.
Qed.

Lemma analyzeBalance_report (planets : list (string * PlanetPosition)) :
  (forall e, In e planets ->
     exists key, In key table /\
       classify (Math_floor (longitude (snd e) / 30)) = Some key) ->
  exists r, analyzeBalance table classify planets = Some r /\
            balanceOf table (List.length planets) r.
Proof.
  intros Hcl. unfold analyzeBalance. cbv zeta.
  destruct (tally_runs planets Hcl 0
              (map (fun k => (k, 0%Z)) table, map (fun k => (k, @nil string)) table))
    as ([counts members] & E & (K1 & K2 & Tot & Pos)).
  { unfold tallied. cbn [fst snd]. rewrite !map_map. cbn [fst].
    rewrite !map_id. split; [reflexivity|]. split; [reflexivity|].
    split.
    - unfold totalCount. rewrite map_map. cbn [snd].
      clear. induction table as [|k t IH]; cbn; [reflexivity | exact IH].
    - apply Forall_map. apply Forall_forall. intros k _. cbn. lia. }
  rewrite E. cbn [fst snd] in *. rewrite K1.
  destruct table as [|k0 rest] eqn:Etable; [contradiction|].
  cbn [reduceKeys].
  destruct (reduce_extreme Z.le Z.gtb counts rest k0) as [Dmem Dmax];
    [lia | lia | intros x y H; apply Z.gtb_lt in H; lia
     | intros x y H; rewrite Z.gtb_ltb in H; apply Z.ltb_ge in H; lia |].
  destruct (reduce_extreme Z.ge Z.ltb counts rest k0) as [Lmem Lmin];
    [lia | lia | intros x y H; apply Z.ltb_lt in H; lia
     | intros x y H; apply Z.ltb_ge in H; lia |].
  set (dominant := fold_left _ rest k0) in Dmem, Dmax |- *.
  set (lacking := fold_left (fun a b => if (countOf a counts <? countOf b counts)%Z
                                        then a else b) rest k0)
    in Lmem, Lmin |- *.
  destruct (Z.eqb_spec (countOf dominant counts) (countOf lacking counts))
    as [Heq | Hne];
    eexists; (split; [reflexivity|]);
    unfold balanceOf; cbn [b_counts b_members b_dominant b_lacking];
    (split; [exact K1|]); (split; [exact K2|]);
    (split; [rewrite Tot; cbn; lia|]);
    (split; [intros k _; apply countOf_nonneg; exact Pos|]).
  - left. split; [reflexivity|]. split; [reflexivity|].
    intros k k' Hk Hk'.
    pose proof (Dmax k Hk). pose proof (Dmax k' Hk').
    pose proof (Lmin k Hk). pose proof (Lmin k' Hk'). lia.
  - right. split; [exact Dmem|]. split; [exact Lmem|].
    pose proof (Dmax lacking Lmem). split; [lia|].
    intros k Hk. pose proof (Dmax k Hk). pose proof (Lmin k Hk). lia.
Qed.

Lemma balanced_counts_divide (n : nat) (r : Balance) :
  balanceOf table n r ->
  (forall k k', In k table -> In k' table ->
     countOf k (b_counts r) = countOf k' (b_counts r)) ->
  exists c, Z.of_nat n = (Z.of_nat (List.length table) * c)%Z.
Proof.
  intros (K1 & _ & Tot & _ & _) Hall.
  destruct table as [|k0 rest] eqn:Et; [contradiction|].
  exists (countOf k0 (b_counts r)).
  rewrite <- Tot.
  rewrite (totalCount_all_equal (b_counts r) (countOf k0 (b_counts r))).
  - f_equal. rewrite <- K1, length_map. reflexivity.
  - rewrite K1. exact table_nodup.
  - intros k Hk. rewrite K1 in Hk. apply Hall; [exact Hk | left; reflexivity].
Qed.
End BalanceTally.

Lemma getSignElement_nonneg (s : Z) :
  (0 <= s)%Z -> exists key, In key elementTable /\ getSignElement s = Some key.
Proof.
  intros Hs. unfold getSignElement. cbv zeta.
  rewrite Z.rem_mod_nonneg by lia.
  pose proof (Z.mod_pos_bound s 4 ltac:(lia)) as Hm.
  replace (s mod 4 <? 0)%Z with false by (symmetry; apply Z.ltb_ge; lia).
  assert (Hc : (s mod 4 = 0 \/ s mod 4 = 1 \/ s mod 4 = 2 \/ s mod 4 = 3)%Z)
    by lia.
  unfold elementTable.
  destruct Hc as [E | [E | [E | E]]]; rewrite E;
    refine (ex_intro _ _ (conj _ eq_refl)); cbn; tauto.
Qed.

Lemma getSignModality_nonneg (s : Z) :
  (0 <= s)%Z -> exists key, In key modalityTable /\ getSignModality s = Some key.
Proof.
  intros Hs. unfold getSignModality, arrayAt.
  rewrite Z.rem_mod_nonneg by lia.
  pose proof (Z.mod_pos_bound s 3 ltac:(lia)) as Hm.
  replace (s mod 3 <? 0)%Z with false by (symmetry; apply Z.ltb_ge; lia).
  assert (Hc : (s mod 3 = 0 \/ s mod 3 = 1 \/ s mod 3 = 2)%Z) by lia.
  unfold modalityTable.
  destruct Hc as [E | [E | E]]; rewrite E;
    refine (ex_intro _ _ (conj _ eq_refl)); cbn; tauto.
Qed.

Lemma sign_of_nonneg_longitude (x : R) : 0 <= x -> (0 <= Math_floor (x / 30))%Z.
Proof.
  intros Hx. apply Math_floor_nonneg.
  apply (div_between x 30 0 (x / 30 + 1)); lra.
Qed.

(** Among the twelve signs every sign has an element and a modality,
    and the two together determine the sign: no two signs share both. *)
Theorem element_and_modality_determine_sign (s1 s2 : Z) :
  (0 <= s1 <= 11)%Z -> (0 <= s2 <= 11)%Z ->
  getSignElement s1 <> None /\ getSignModality s1 <> None /\
  (getSignElement s1 = getSignElement s2 ->
   getSignModality s1 = getSignModality s2 -> s1 = s2).
Proof.
  intros H1 H2.
  split_month H1; split_month H2;
    (split; [discriminate|]); (split; [discriminate|]);
    cbn; intros E M; try reflexivity; try discriminate E; try discriminate M.
Qed.

(** The theorem applied to Aries and Leo, two fire signs. *)
Lemma element_and_modality_determine_sign_witness :
  getSignElement 0 = getSignElement 4 /\
  getSignModality 0 <> getSignModality 4.
Proof.
  split; [reflexivity|]. intros M.
  pose proof (element_and_modality_determine_sign 0 4
                ltac:(lia) ltac:(lia)) as (_ & _ & H).
  specialize (H eq_refl M). discriminate H.
Defined.

(** When no planet of the chart has a negative longitude,
    analyzeElementBalance and analyzeModalityBalance return: the counts
    are one per category, none negative, and add up to the number of
    planets; unless the report is "Balanced", with all counts equal, the
    dominant category has the largest count, the lacking one the
    smallest, and the two counts differ. *)
Theorem balance_reports (chartData : Chart) :
  (forall k p, In (k, p) (c_planets chartData) -> 0 <= longitude p) ->
  (exists r, analyzeElementBalance chartData = Some r /\
             balanceOf elementTable (List.length (c_planets chartData)) r) /\
  (exists r, analyzeModalityBalance chartData = Some r /\
             balanceOf modalityTable (List.length (c_planets chartData)) r).
Proof.
  intros Hpos. split.
  - apply analyzeBalance_report.
    + unfold elementTable. repeat (constructor; [cbn; intuition discriminate|]).
      constructor.
    + discriminate.
    + intros [k p] Hin. cbn [snd]. apply getSignElement_nonneg.
      apply sign_of_nonneg_longitude. apply (Hpos k p Hin).
  - apply analyzeBalance_report.
    + unfold modalityTable. repeat (constructor; [cbn; intuition discriminate|]).
      constructor.
    + discriminate.
    + intros [k p] Hin. cbn [snd]. apply getSignModality_nonneg.
      apply sign_of_nonneg_longitude. apply (Hpos k p Hin).
Qed.

(** The theorem applied to the chart of three planets 120 degrees
    apart. *)
Lemma balance_reports_witness :
  exists r, analyzeElementBalance grandTrineChart = Some r /\
            totalCount (b_counts r) = 3%Z.
Proof.
  destruct (balance_reports grandTrineChart) as [(r & Hr & Hb) _].
  - intros k p Hin. cbn [grandTrineChart c_planets grandTrinePositions In] in Hin.
    destruct Hin as [H | [H | [H | []]]]; inversion H; subst;
      unfold positionAt; cbn [longitude]; lra.
  - exists r. split; [exact Hr|]. destruct Hb as (_ & _ & Tot & _).
    exact Tot.
Defined.

(** With ten planets, none at a negative longitude, neither report is
    ever "Balanced": ten planets cannot be spread evenly over four
    elements nor over three modalities, so a dominant and a lacking
    category are always named. *)
Theorem ten_planets_never_balanced (chartData : Chart) :
  (forall k p, In (k, p) (c_planets chartData) -> 0 <= longitude p) ->
  List.length (c_planets chartData) = 10%nat ->
  (exists r, analyzeElementBalance chartData = Some r /\
             In (b_dominant r) elementTable /\ In (b_lacking r) elementTable) /\
  (exists r, analyzeModalityBalance chartData = Some r /\
             In (b_dominant r) modalityTable /\ In (b_lacking r) modalityTable).
Proof.
  intros Hpos Hten. split.
  - destruct (analyzeBalance_report elementTable getSignElement) with
      (planets := c_planets chartData) as (r & Hr & Hb).
    + unfold elementTable. repeat (constructor; [cbn; intuition discriminate|]).
      constructor.
    + discriminate.
    + intros [k p] Hin. cbn [snd]. apply getSignElement_nonneg.
      apply sign_of_nonneg_longitude. apply (Hpos k p Hin).
    + exists r. split; [exact Hr|].
      pose proof Hb as (_ & _ & _ & _ & [(_ & _ & Hall) | (Hd & Hl & _)]);
        [|split; assumption].
      exfalso.
      destruct (balanced_counts_divide elementTable) with
        (n := List.length (c_planets chartData)) (r := r) as [c Hc];
        try assumption.
      * unfold elementTable.
        repeat (constructor; [cbn; intuition discriminate|]). constructor.
      * discriminate.
      * rewrite Hten in Hc. cbn [elementTable List.length] in Hc. lia.
  - destruct (analyzeBalance_report modalityTable getSignModality) with
      (planets := c_planets chartData) as (r & Hr & Hb).
    + unfold modalityTable. repeat (constructor; [cbn; intuition discriminate|]).
      constructor.
    + discriminate.
    + intros [k p] Hin. cbn [snd]. apply getSignModality_nonneg.
      apply sign_of_nonneg_longitude. apply (Hpos k p Hin).
    + exists r. split; [exact Hr|].
      pose proof Hb as (_ & _ & _ & _ & [(_ & _ & Hall) | (Hd & Hl & _)]);
        [|split; assumption].
      exfalso.
      destruct (balanced_counts_divide modalityTable) with
        (n := List.length (c_planets chartData)) (r := r) as [c Hc];
        try assumption.
      * unfold modalityTable.
        repeat (constructor; [cbn; intuition discriminate|]). constructor.
      * discriminate.
      * rewrite Hten in Hc. cbn [modalityTable List.length] in Hc. lia.
Qed.

(** When some planet of the chart has a longitude in [-30, 0), its sign
    index is -1, the element and the modality of the sign are undefined,
    and both functions raise a TypeError. *)
Theorem balance_fails_on_negative_longitude (chartData : Chart)
    (k : string) (p : PlanetPosition) :
  In (k, p) (c_planets chartData) -> -30 <= longitude p < 0 ->
  analyzeElementBalance chartData = None /\
  analyzeModalityBalance chartData = None.
Proof.
  intros Hin Hneg.
  assert (Hs : Math_floor (longitude p / 30) = (-1)%Z).
  { apply Math_floor_unique.
    assert (Hq : -1 <= longitude p / 30 < 0) by (apply div_between; lra).
    lra. }
  unfold analyzeElementBalance, analyzeModalityBalance, analyzeBalance.
  cbv zeta.
  rewrite (foldM_fails (tallyStep getSignElement) _ (k, p) Hin);
    [|intros s; unfold tallyStep; cbn [snd]; rewrite Hs; reflexivity].
  rewrite (foldM_fails (tallyStep getSignModality) _ (k, p) Hin);
    [|intros s; unfold tallyStep; cbn [snd]; rewrite Hs; reflexivity].
  split; reflexivity.
Qed.

(** The theorem applied to a chart whose only planet is at -5
    degrees. *)
Lemma balance_fails_on_negative_longitude_witness :
  analyzeElementBalance
    (mkChart [("sun", positionAt (mkPlanetInfo "Sun" "S" "#FFD700" 1) (-5))]
       [] [] 0 0 0) = None.
Proof.
  apply (balance_fails_on_negative_longitude
           (mkChart [("sun", positionAt (mkPlanetInfo "Sun" "S" "#FFD700" 1) (-5))]
              [] [] 0 0 0)
           "sun" (positionAt (mkPlanetInfo "Sun" "S" "#FFD700" 1) (-5))).
  - left. reflexivity.
  - unfold positionAt. cbn [longitude]. lra.
Defined.

(** ** Patterns: what is reported and why *)

Lemma fold_left_reach {A S : Type} (f : S -> A -> S) (Q : S -> Prop)
    (l : list A) (x0 : A) :
  (forall s x, Q s -> Q (f s x)) -> (forall s, Q (f s x0)) -> In x0 l ->
  forall s, Q (fold_left f l s).
Proof.
  intros Hkeep Hhit. induction l as [|x l IH]; intros Hin s; [destruct Hin|].
  cbn [fold_left]. destruct Hin as [Heq | Hin].
  - subst x. apply fold_left_invariant; [exact Hkeep | apply Hhit].
  - apply IH. exact Hin.
Qed.

Lemma tSquareStep_keeps_key (squares : list Aspect) (p1 p2 : string)
    (square : Aspect) (patterns : list Pattern) (k : string) :
  In k (map patternPlanets patterns) ->
  In k (map patternPlanets (tSquareStep squares p1 p2 square patterns)).
Proof.
  intros H. unfold tSquareStep.
  repeat match goal with
  | |- context [if ?b then _ else _] => destruct b; try exact H
  end.
  all: unfold push; rewrite map_app; apply in_or_app; left; exact H.
Qed.

Lemma tSquareStep_hits (squares : list Aspect) (p1 p2 : string)
    (square : Aspect) (patterns : list Pattern) :
  In square squares ->
  (planet1 square = p1 /\ planet2 square <> p2) \/
  (planet1 square = p2 /\ planet2 square <> p1) ->
  In (tripleKey p1 p2 (planet2 square))
     (map patternPlanets (tSquareStep squares p1 p2 square patterns)).
Proof.
  intros Hin Hcond. unfold tSquareStep.
  assert (C1 : (String.eqb (planet1 square) p1
                && negb (String.eqb (planet2 square) p2))
               || (String.eqb (planet1 square) p2
                   && negb (String.eqb (planet2 square) p1)) = true).
  { apply orb_true_iff. destruct Hcond as [[H1 H2] | [H1 H2]]; [left | right];
      apply andb_true_iff; split;
      try (apply String.eqb_eq; exact H1);
      apply negb_true_iff, String.eqb_neq; exact H2. }
  rewrite C1.
  assert (C2 : String.eqb (planet1 square) p1 || String.eqb (planet1 square) p2
               = true).
  { apply orb_true_iff. destruct Hcond as [[H1 _] | [H1 _]]; [left | right];
      apply String.eqb_eq; exact H1. }
  rewrite C2.
  assert (C3 : existsb (fun sq =>
        (String.eqb (planet1 sq) (planet2 square)
         && (String.eqb (planet2 sq) p1 || String.eqb (planet2 sq) p2))
        || (String.eqb (planet2 sq) (planet2 square)
            && (String.eqb (planet1 sq) p1 || String.eqb (planet1 sq) p2)))
        squares = true).
  { apply existsb_exists. exists square. split; [exact Hin|].
    apply orb_true_iff. right. rewrite String.eqb_refl, C2. reflexivity. }
  rewrite C3.
  destruct (hasPattern (tripleKey p1 p2 (planet2 square)) patterns) eqn:Hhas;
    cbn [negb].
  - apply hasPattern_true. exact Hhas.
  - unfold push. rewrite map_app. apply in_or_app. right. left. reflexivity.
Qed.

(** One square is enough for a T-Square.  For an opposition and a
    square whose first planet is one end of the opposition and whose
    second planet is not the other end, findSpecialPatterns reports a
    pattern under the key of the two ends and that second planet,
    whether or not the second planet is also in square with the other
    end: the test for the second square is satisfied by the first. *)
Theorem tsquare_from_one_square (chartData : Chart) (patterns : list Pattern)
    (opposition square : Aspect) :
  findSpecialPatterns chartData = Some patterns ->
  In opposition (c_aspects chartData) -> a_type opposition = "opposition" ->
  In square (c_aspects chartData) -> a_type square = "square" ->
  (planet1 square = planet1 opposition /\ planet2 square <> planet2 opposition)
  \/ (planet1 square = planet2 opposition
      /\ planet2 square <> planet1 opposition) ->
  In (tripleKey (planet1 opposition) (planet2 opposition) (planet2 square))
     (map patternPlanets patterns).
Proof.
  intros Hfind Ho To Hs Ts Hcond. unfold findSpecialPatterns in Hfind.
  destruct (grandTrines (c_planets chartData)
              (trineGroupsOf (c_aspects chartData)) []) as [pats1|];
    [|discriminate].
  inversion Hfind; subst patterns. clear Hfind.
  unfold tSquares.
  apply (fold_left_reach _
           (fun pats => In (tripleKey (planet1 opposition) (planet2 opposition)
                              (planet2 square)) (map patternPlanets pats))
           _ opposition).
  - intros s o Hq. apply fold_left_invariant; [|exact Hq].
    intros s' sq Hq'. apply tSquareStep_keeps_key. exact Hq'.
  - intros s.
    apply (fold_left_reach _
             (fun pats => In (tripleKey (planet1 opposition)
                                (planet2 opposition) (planet2 square))
                             (map patternPlanets pats))
             _ square).
    + intros s' sq Hq'. apply tSquareStep_keeps_key. exact Hq'.
    + intros s'. apply tSquareStep_hits; [|exact Hcond].
      apply ofType_in. auto.
    + apply ofType_in. auto.
  - apply ofType_in. auto.
Qed.

Lemma oneSquareChart_aspects :
  map aspectLink (c_aspects oneSquareChart)
  = [ ("sun", "moon", "opposition"); ("sun", "mars", "square") ].
Proof.
  unfold oneSquareChart, oneSquarePositions. cbn [c_aspects].
  cbn [calculateAspects flat_map app]. unfold aspectsOfPair, positionAt.
  cbn [fst snd longitude].
  rewrite (separation_sym 0 172), (separation_small 172 0) by lra.
  rewrite (separation_sym 0 97), (separation_small 97 0) by lra.
  rewrite (separation_small 172 97) by lra.
  replace (172 - 0) with 172 by lra.
  replace (97 - 0) with 97 by lra.
  replace (172 - 97) with 75 by lra.
  walk_aspect_types. reflexivity.
Qed.

(** In the chart where Mars is in square with the Sun only, a T-Square
    with Mars as focus is reported all the same. *)
Lemma oneSquareChart_patterns :
  findSpecialPatterns oneSquareChart = Some [TSquare "mars-moon-sun" "mars"].
Proof.
  pose proof oneSquareChart_aspects as Hlinks.
  unfold findSpecialPatterns.
  destruct (c_aspects oneSquareChart) as [|a1 [|a2 [|a3 rest]]];
    try discriminate Hlinks.
  destruct a1, a2. unfold aspectLink in Hlinks.
  cbn [map planet1 planet2 a_type] in Hlinks. inversion Hlinks; subst.
  reflexivity.
Qed.

(** The theorem applied to that chart. *)
Lemma tsquare_from_one_square_witness :
  In (tripleKey "sun" "moon" "mars")
     (map patternPlanets [TSquare "mars-moon-sun" "mars"]).
Proof.
  pose proof oneSquareChart_aspects as Hlinks.
  destruct (c_aspects oneSquareChart) as [|a1 [|a2 [|a3 rest]]] eqn:Easp;
    try discriminate Hlinks.
  cbn [map] in Hlinks. unfold aspectLink in Hlinks.
  assert (H1 : planet1 a1 = "sun" /\ planet2 a1 = "moon"
               /\ a_type a1 = "opposition")
    by (inversion Hlinks; auto).
  assert (H2 : planet1 a2 = "sun" /\ planet2 a2 = "mars" /\ a_type a2 = "square")
    by (inversion Hlinks as [[E1 E2 E3 E4 E5 E6]];
        repeat split; congruence).
  destruct H1 as (P1 & P2 & T1). destruct H2 as (Q1 & Q2 & T2).
  pose proof (tsquare_from_one_square oneSquareChart
                [TSquare "mars-moon-sun" "mars"] a1 a2
                oneSquareChart_patterns) as H.
  rewrite Easp, P1, P2, Q1, Q2 in H.
  apply H.
  - left. reflexivity.
  - exact T1.
  - right. left. reflexivity.
  - exact T2.
  - left. split; [reflexivity | discriminate].
Defined.

Lemma foldM_invariant {A S : Type} (f : S -> A -> option S) (P : S -> Prop)
    (l : list A) :
  (forall s x s', In x l -> P s -> f s x = Some s' -> P s') ->
  forall s s', P s -> foldM f l s = Some s' -> P s'.
Proof.
  induction l as [|x l IH]; intros Hstep s s' Hs Hf; cbn [foldM] in Hf.
  - inversion Hf; subst. exact Hs.
  - destruct (f s x) as [s1|] eqn:E; [|discriminate].
    apply (IH (fun s x s' Hin => Hstep s x s' (or_intror Hin)) s1 s');
      [|exact Hf].
    apply (Hstep s x s1 (or_introl eq_refl) Hs E).
Qed.

Lemma grandTrineStep_built (planets : list (string * PlanetPosition))
    (g : Groups) (p1 p2 p3 : string) (patterns patterns' : list Pattern) :
  In p2 (groupOf p1 g) -> In p3 (groupOf p1 g) ->
  Forall (builtInGroups planets g) patterns ->
  grandTrineStep planets g p1 p2 p3 patterns = Some patterns' ->
  Forall (builtInGroups planets g) patterns'.
Proof.
  intros H2 H3 Hall. unfold grandTrineStep.
  destruct (negb (String.eqb p2 p3) && setHas p3 (groupOf p2 g)) eqn:Hcond;
    [|intros H; inversion H; subst; exact Hall].
  destruct (negb (hasPattern (tripleKey p1 p2 p3) patterns));
    [|intros H; inversion H; subst; exact Hall].
  destruct (lookup p1 planets) as [pos|] eqn:Epos; [|discriminate].
  intros H. inversion H; subst. unfold push.
  apply Forall_app. split; [exact Hall|]. constructor; [|constructor].
  apply andb_true_iff in Hcond. destruct Hcond as [Hne Hhas].
  apply negb_true_iff, String.eqb_neq in Hne. apply setHas_true in Hhas.
  cbn [builtInGroups]. exists p1, p2, p3, pos. auto 10.
Qed.

Lemma grandTrines_built (planets : list (string * PlanetPosition))
    (g : Groups) (patterns : list Pattern) :
  grandTrines planets g [] = Some patterns ->
  Forall (builtInGroups planets g) patterns.
Proof.
  unfold grandTrines.
  apply (foldM_invariant _ (Forall (builtInGroups planets g)));
    [|constructor].
  intros s p1 s' _ Hs.
  apply (foldM_invariant _ (Forall (builtInGroups planets g))); [|exact Hs].
  intros s2 p2 s2' Hp2 Hs2.
  apply (foldM_invariant _ (Forall (builtInGroups planets g))); [|exact Hs2].
  intros s3 p3 s3' Hp3 Hs3 Hstep.
  apply (grandTrineStep_built planets g p1 p2 p3 s3 s3' Hp2 Hp3 Hs3 Hstep).
Qed.

Lemma trineGroupsOf_member (aspects : list Aspect) (x y : string) :
  In y (groupOf x (trineGroupsOf aspects)) -> aspectJoins "trine" aspects x y.
Proof.
  unfold trineGroupsOf. intros H. apply fold_addTrine_groupOf in H.
  destruct H as [[] | (t & Hin & Hxy)].
  apply ofType_in in Hin. destruct Hin as [Hin Ht].
  exists t. split; [exact Hin|]. split; [exact Ht|].
  apply joins_true. destruct Hxy as [[E1 E2] | [E1 E2]]; subst; auto.
Qed.

Lemma tSquareStep_backed (chartData : Chart) (opposition square : Aspect)
    (patterns : list Pattern) :
  In opposition (ofType "opposition" (c_aspects chartData)) ->
  In square (ofType "square" (c_aspects chartData)) ->
  Forall (backedBy chartData) patterns ->
  Forall (backedBy chartData)
    (tSquareStep (ofType "square" (c_aspects chartData))
       (planet1 opposition) (planet2 opposition) square patterns).
Proof.
  intros Ho Hs Hall. unfold tSquareStep.
  destruct ((String.eqb (planet1 square) (planet1 opposition)
             && negb (String.eqb (planet2 square) (planet2 opposition)))
            || (String.eqb (planet1 square) (planet2 opposition)
                && negb (String.eqb (planet2 square) (planet1 opposition))))
    eqn:C1; [|exact Hall].
  assert (C2 : String.eqb (planet1 square) (planet1 opposition)
               || String.eqb (planet1 square) (planet2 opposition) = true).
  { apply orb_true_iff in C1. apply orb_true_iff.
    destruct C1 as [C | C]; apply andb_true_iff in C; tauto. }
  rewrite C2.
  match goal with
  | |- context [if existsb ?f ?l then _ else _] => destruct (existsb f l)
  end; [|exact Hall].
  destruct (negb (hasPattern _ patterns)); [|exact Hall].
  unfold push. apply Forall_app. split; [exact Hall|].
  constructor; [|constructor].
  apply ofType_in in Ho, Hs. cbn [backedBy].
  exists opposition, square.
  apply orb_true_iff in C2. rewrite !String.eqb_eq in C2.
  tauto.
Qed.

(** Every pattern findSpecialPatterns reports is backed by aspects of the
    chart: a Grand Trine by three trines that close a triangle, with the
    element of the sign of one planet of the triangle; a T-Square by an
    opposition and a square from one end of the opposition to the focal
    planet. *)
Theorem reported_patterns_are_backed (chartData : Chart)
    (patterns : list Pattern) :
  findSpecialPatterns chartData = Some patterns ->
  Forall (backedBy chartData) patterns.
Proof.
  intros Hfind. unfold findSpecialPatterns in Hfind.
  destruct (grandTrines (c_planets chartData)
              (trineGroupsOf (c_aspects chartData)) []) as [pats1|] eqn:E1;
    [|discriminate].
  inversion Hfind; subst patterns. clear Hfind.
  pose proof (grandTrines_built _ _ _ E1) as Hbuilt.
  assert (H1 : Forall (backedBy chartData) pats1).
  { apply (Forall_impl _ (P := builtInGroups (c_planets chartData)
                                 (trineGroupsOf (c_aspects chartData))));
      [|exact Hbuilt].
    intros [key element | key focus]; cbn [builtInGroups backedBy];
      [|intros []].
    intros (x & y & z & pos & Hne & Hy & Hz & Hyz & Hk & Hpos & He).
    exists x, y, z, pos.
    repeat split; try assumption; apply trineGroupsOf_member; assumption. }
  unfold tSquares.
  set (squares := ofType "square" (c_aspects chartData)).
  set (oppositions := ofType "opposition" (c_aspects chartData)).
  assert (Hgen : forall os, incl os oppositions ->
            forall s, Forall (backedBy chartData) s ->
            Forall (backedBy chartData)
              (fold_left (fun patterns opposition =>
                 fold_left (fun patterns square =>
                   tSquareStep squares (planet1 opposition)
                     (planet2 opposition) square patterns) squares patterns)
                 os s)).
  { induction os as [|o os IH]; intros Hincl s Hs; [exact Hs|].
    cbn [fold_left]. apply IH; [intros x Hx; apply Hincl; right; exact Hx|].
    assert (Hsq : forall sqs, incl sqs squares ->
              forall s', Forall (backedBy chartData) s' ->
              Forall (backedBy chartData)
                (fold_left (fun patterns square =>
                   tSquareStep squares (planet1 o) (planet2 o) square patterns)
                   sqs s')).
    { induction sqs as [|sq sqs IHs]; intros Hincl' s' Hs'; [exact Hs'|].
      cbn [fold_left]. apply IHs; [intros x Hx; apply Hincl'; right; exact Hx|].
      apply tSquareStep_backed; [apply Hincl; left; reflexivity
                                | apply Hincl'; left; reflexivity | exact Hs']. }
    apply Hsq; [apply incl_refl | exact Hs]. }
  apply Hgen; [apply incl_refl | exact H1].
Qed.

(** The theorem applied to the chart of three planets 120 degrees
    apart. *)
Lemma reported_patterns_are_backed_witness :
  Forall (backedBy grandTrineChart) [GrandTrine "mars-moon-sun" (Some "Fire")].
Proof.
  apply (reported_patterns_are_backed grandTrineChart).
  exact grandTrineChart_patterns.
Defined.


Lemma ten_planets_never_balanced_witness :
  (exists r, analyzeElementBalance conjunctChart = Some r /\
             In (b_dominant r) elementTable /\ In (b_lacking r) elementTable) /\
  (exists r, analyzeModalityBalance conjunctChart = Some r /\
             In (b_dominant r) modalityTable /\ In (b_lacking r) modalityTable).
Proof.
  apply (ten_planets_never_balanced conjunctChart).
  - intros k p Hin. cbn [conjunctChart c_planets] in Hin.
    unfold conjunctPositions in Hin. apply in_map_iff in Hin.
    destruct Hin as (e & He & _). inversion He; subst.
    unfold positionAt. cbn [longitude]. lra.
  - cbn [conjunctChart c_planets]. unfold conjunctPositions.
    rewrite length_map. reflexivity.
Defined.

(** ** The dominant planets *)

Lemma lookup_bump (key : string) (points : Z) (k : string)
    (scores : list (string * Z)) :
  lookup k (map (fun e => if String.eqb (fst e) key
                          then (fst e, (snd e + points)%Z) else e) scores)
  = option_map (fun v => if String.eqb k key then (v + points)%Z else v)
               (lookup k scores).
Proof.
  induction scores as [|[k' v] scores IH]; [reflexivity|].
  cbn [map fst snd]. destruct (String.eqb k' key) eqn:E1.
  - cbn [lookup]. destruct (String.eqb k k') eqn:E2.
    + apply String.eqb_eq in E1, E2. subst. rewrite String.eqb_refl.
      reflexivity.
    + exact IH.
  - cbn [lookup]. destruct (String.eqb k k') eqn:E2.
    + apply String.eqb_eq in E2. subst. rewrite E1. reflexivity.
    + exact IH.
Qed.

Lemma addScore_some (key : string) (points : Z) (scores : list (string * Z)) :
  In key (map fst scores) ->
  exists scores',
    addScore key points scores = Some scores' /\
    map fst scores' = map fst scores /\
    forall k, lookup k scores'
              = option_map (fun v => if String.eqb k key
                                     then (v + points)%Z else v)
                           (lookup k scores).
Proof.
  intros Hin. unfold addScore.
  destruct (lookup key scores) eqn:E.
  - eexists. split; [reflexivity|]. split.
    + rewrite map_map. apply map_ext. intros [k v]. cbn [fst snd].
      destruct (String.eqb k key); reflexivity.
    + intros k. apply lookup_bump.
  - apply lookup_none_iff in E. contradiction.
Qed.

Lemma scoreAspects_result (aspects : list Aspect) :
  forall scores,
    (forall a, In a aspects ->
       In (planet1 a) (map fst scores) /\ In (planet2 a) (map fst scores)) ->
    exists scores',
      foldM scoreAspect aspects scores = Some scores' /\
      map fst scores' = map fst scores /\
      forall k, lookup k scores'
                = option_map (fun v => (v + aspectScore k aspects)%Z)
                             (lookup k scores).
Proof.
  induction aspects as [|a aspects IH]; intros scores Hover.
  - exists scores. split; [reflexivity|]. split; [reflexivity|].
    intros k. cbn [aspectScore]. destruct (lookup k scores); cbn; [|reflexivity].
    f_equal. lia.
  - destruct (Hover a (or_introl eq_refl)) as [H1 H2].
    destruct (addScore_some (planet1 a) (aspectPoints (a_type a)) scores H1)
      as (s1 & E1 & K1 & L1).
    rewrite <- K1 in H2.
    destruct (addScore_some (planet2 a) (aspectPoints (a_type a)) s1 H2)
      as (s2 & E2 & K2 & L2).
    destruct (IH s2) as (s3 & E3 & K3 & L3).
    { intros a' Ha'. rewrite K2, K1. apply Hover. right. exact Ha'. }
    exists s3. split; [|split].
    + cbn [foldM]. unfold scoreAspect at 1. cbv zeta. rewrite E1, E2. exact E3.
    + congruence.
    + intros k. rewrite L3, L2, L1. cbn [aspectScore].
      destruct (lookup k scores) as [v|]; cbn [option_map]; [|reflexivity].
      f_equal.
      rewrite (String.eqb_sym k (planet1 a)), (String.eqb_sym k (planet2 a)).
      destruct (String.eqb (planet1 a) k), (String.eqb (planet2 a) k); lia.
Qed.

Lemma determinePlanetHouse_some (planet : PlanetPosition) (houses : list House) :
  List.length houses = 12%nat ->
  exists houseNum, determinePlanetHouse planet houses = Some houseNum.
Proof.
  intros Hlen.
  destruct (determinePlanetHouse_loop_result (longitude planet) houses indices12
              Hlen) as (n & Hn & _).
  - unfold indices12. repeat (constructor; [lia|]). constructor.
  - exists n. exact Hn.
Qed.

Lemma scorePlacements_result (houses : list House)
    (todo : list (string * PlanetPosition)) :
  List.length houses = 12%nat ->
  forall scores,
    NoDup (map fst todo) ->
    incl (map fst todo) (map fst scores) ->
    exists scores',
      foldM (scorePlacement houses) todo scores = Some scores' /\
      map fst scores' = map fst scores /\
      forall k v, lookup k scores = Some v ->
        match lookup k todo with
        | Some planet =>
            exists houseNum,
              determinePlanetHouse planet houses = Some houseNum /\
              lookup k scores' = Some (v + placementScore houseNum k planet)%Z
        | None => lookup k scores' = Some v
        end.
Proof.
  intros Hlen. induction todo as [|[k1 p1] todo IH]; intros scores Hnd Hincl.
  - exists scores. split; [reflexivity|]. split; [reflexivity|].
    intros k v Hk. exact Hk.
  - cbn [map fst] in Hnd, Hincl. inversion Hnd as [|? ? Hnotin Hnd']; subst.
    destruct (determinePlanetHouse_some p1 houses Hlen) as [h Hh].
    assert (Hk1 : In k1 (map fst scores)) by (apply Hincl; left; reflexivity).
    destruct (addScore_some k1 (housePoints h) scores Hk1) as (s1 & E1 & K1 & L1).
    rewrite <- K1 in Hk1.
    destruct (addScore_some k1
                (dignityPoints (getPlanetDignity k1
                                  (Math_floor (longitude p1 / 30)))) s1 Hk1)
      as (s2 & E2 & K2 & L2).
    destruct (IH s2 Hnd') as (s3 & E3 & K3 & L3).
    { intros k Hk. rewrite K2, K1. apply Hincl. right. exact Hk. }
    exists s3. split; [|split].
    + cbn [foldM]. unfold scorePlacement at 1. cbn [fst snd]. cbv zeta.
      rewrite Hh, E1, E2. exact E3.
    + congruence.
    + intros k v Hk. cbn [lookup].
      assert (H2 : lookup k s2
                   = Some (if String.eqb k k1
                           then (v + placementScore h k1 p1)%Z else v)).
      { rewrite L2, L1, Hk. cbn [option_map]. unfold placementScore.
        destruct (String.eqb k k1); [f_equal; lia | reflexivity]. }
      specialize (L3 k _ H2).
      destruct (String.eqb k k1) eqn:E.
      * apply String.eqb_eq in E. subst k1.
        assert (Hnone : lookup k todo = None) by (apply lookup_none_iff; exact Hnotin).
        rewrite Hnone in L3. exists h. split; [exact Hh | exact L3].
      * exact L3.
Qed.

Lemma insertByRank_perm {A : Type} (rank : A -> Z) (e : A) (l : list A) :
  Permutation (insertByRank rank e l) (e :: l).
Proof.
  induction l as [|e' l IH]; cbn [insertByRank]; [reflexivity|].
  destruct (rank e' >=? rank e)%Z; [|reflexivity].
  rewrite IH. apply perm_swap.
Qed.

Lemma insertByRank_descending {A : Type} (rank : A -> Z) (e : A) (l : list A) :
  descendingBy rank l -> descendingBy rank (insertByRank rank e l).
Proof.
  unfold descendingBy.
  induction l as [|e' l IH]; intros Hs; cbn [insertByRank].
  - constructor; constructor.
  - inversion Hs as [|? ? Hs' Hall]; subst.
    destruct (rank e' >=? rank e)%Z eqn:E.
    + constructor; [apply IH; exact Hs'|].
      eapply Permutation_Forall; [symmetry; apply insertByRank_perm|].
      constructor; [lia | exact Hall].
    + constructor; [exact Hs|].
      constructor; [lia|].
      eapply Forall_impl; [|exact Hall]. cbv beta. intros b Hb. lia.
Qed.

Lemma sortByRank_sorts {A : Type} (rank : A -> Z) (l : list A) :
  Permutation (sortByRank rank l) l /\ descendingBy rank (sortByRank rank l).
Proof.
  unfold sortByRank.
  assert (H : forall acc, descendingBy rank acc ->
            Permutation (fold_left (fun acc e => insertByRank rank e acc) l acc)
                        (l ++ acc) /\
            descendingBy rank
              (fold_left (fun acc e => insertByRank rank e acc) l acc)).
  { induction l as [|e l IH]; intros acc Hacc; cbn [fold_left app].
    - split; [reflexivity | exact Hacc].
    - destruct (IH (insertByRank rank e acc)
                  (insertByRank_descending rank e acc Hacc)) as [Hp Hd].
      split; [|exact Hd].
      rewrite Hp, insertByRank_perm. symmetry. apply Permutation_middle. }
  destruct (H [] (SSorted_nil _)) as [Hp Hd].
  rewrite app_nil_r in Hp. split; assumption.
Qed.

Lemma sortByScore_sorts (l : list (string * Z)) :
  Permutation (sortByScore l) l /\ descending (sortByScore l).
Proof.
  apply sortByRank_sorts.
Qed.

Lemma mapM_some {A B : Type} (f : A -> option B) (R : B -> A -> Prop)
    (l : list A) :
  (forall x, In x l -> exists y, f x = Some y /\ R y x) ->
  exists ys, mapM f l = Some ys /\ Forall2 R ys l.
Proof.
  induction l as [|x l IH]; intros H.
  - exists []. split; [reflexivity | constructor].
  - destruct (H x (or_introl eq_refl)) as (y & Hy & Ry).
    destruct IH as (ys & Hys & Rys).
    { intros x' Hx'. apply H. right. exact Hx'. }
    exists (y :: ys). split.
    + cbn [mapM]. rewrite Hy, Hys. reflexivity.
    + constructor; assumption.
Qed.

Lemma lookup_zeroed {A : Type} (k : string) (o : list (string * A)) :
  lookup k (map (fun e => (fst e, 0%Z)) o)
  = option_map (fun _ => 0%Z) (lookup k o).
Proof.
  induction o as [|[k' v] o IH]; [reflexivity|].
  cbn [map fst lookup]. destruct (String.eqb k k'); [reflexivity | exact IH].
Qed.

(** On a chart whose planet keys are distinct, whose house list has
    twelve entries and whose aspects join planets of the chart,
    findDominantPlanets returns.  The score of a planet is the sum of
    the points of the aspects it is an end of, of its house and of its
    dignity; the planets are ranked by descending score and the first
    three of the ranking are returned, with their names and scores: so
    the result has three entries, or as many as there are planets when
    there are fewer, its scores never increase, and no planet left out
    scores more than a planet of the result. *)
Theorem findDominantPlanets_top_three (chartData : Chart) :
  NoDup (map fst (c_planets chartData)) ->
  List.length (c_houses chartData) = 12%nat ->
  (forall a, In a (c_aspects chartData) ->
     In (planet1 a) (map fst (c_planets chartData)) /\
     In (planet2 a) (map fst (c_planets chartData))) ->
  exists ranking result,
    findDominantPlanets chartData = Some result /\
    Permutation (map fst ranking) (map fst (c_planets chartData)) /\
    descending ranking /\
    (forall k s, In (k, s) ranking ->
       exists planet houseNum,
         lookup k (c_planets chartData) = Some planet /\
         determinePlanetHouse planet (c_houses chartData) = Some houseNum /\
         s = (aspectScore k (c_aspects chartData)
              + placementScore houseNum k planet)%Z) /\
    List.length result = Nat.min 3 (List.length (c_planets chartData)) /\
    Forall2 (fun d e => d_score d = snd e /\
                        exists planet,
                          lookup (fst e) (c_planets chartData) = Some planet /\
                          d_planet d = name (registry planet))
            result (firstn 3 ranking).
Proof.
  intros Hnd Hlen Hover.
  set (ps := c_planets chartData) in *.
  set (scores0 := map (fun e : string * PlanetPosition => (fst e, 0%Z)) ps).
  assert (K0 : map fst scores0 = map fst ps).
  { unfold scores0. rewrite map_map. reflexivity. }
  destruct (scoreAspects_result (c_aspects chartData) scores0)
    as (s1 & E1 & K1 & L1).
  { intros a Ha. rewrite K0. apply Hover. exact Ha. }
  destruct (scorePlacements_result (c_houses chartData) ps Hlen s1 Hnd)
    as (s2 & E2 & K2 & L2).
  { rewrite K1, K0. apply incl_refl. }
  destruct (sortByScore_sorts s2) as [Hperm Hdesc].
  assert (Hkeys : Permutation (map fst (sortByScore s2)) (map fst ps)).
  { rewrite <- K0, <- K1, <- K2. apply Permutation_map. exact Hperm. }
  assert (Hscore : forall k s, In (k, s) (sortByScore s2) ->
            exists planet houseNum,
              lookup k ps = Some planet /\
              determinePlanetHouse planet (c_houses chartData) = Some houseNum /\
              s = (aspectScore k (c_aspects chartData)
                   + placementScore houseNum k planet)%Z).
  { intros k s Hin.
    assert (Hin2 : In (k, s) s2).
    { eapply Permutation_in; [exact Hperm | exact Hin]. }
    assert (Hnd2 : NoDup (map fst s2)) by (rewrite K2, K1, K0; exact Hnd).
    pose proof (lookup_in_nodup s2 k s Hnd2 Hin2) as Hl2.
    assert (Hk : In k (map fst ps)).
    { rewrite <- K0, <- K1, <- K2. apply in_map_iff. exists (k, s).
      split; [reflexivity | exact Hin2]. }
    destruct (lookup k ps) as [planet|] eqn:Ep;
      [|apply lookup_none_iff in Ep; contradiction].
    assert (H1 : lookup k s1 = Some (0 + aspectScore k (c_aspects chartData))%Z).
    { rewrite L1. unfold scores0. rewrite lookup_zeroed. fold ps. rewrite Ep.
      reflexivity. }
    specialize (L2 k _ H1). rewrite Ep in L2.
    destruct L2 as (h & Hh & Hs2). exists planet, h.
    split; [reflexivity|]. split; [exact Hh|].
    rewrite Hl2 in Hs2. inversion Hs2. lia. }
  destruct (mapM_some
              (fun e : string * Z =>
                 match lookup (fst e) ps with
                 | None => None
                 | Some planet =>
                     Some (mkDominant (name (registry planet)) (snd e))
                 end)
              (fun d e => d_score d = snd e /\
                          exists planet,
                            lookup (fst e) ps = Some planet /\
                            d_planet d = name (registry planet))
              (firstn 3 (sortByScore s2)))
    as (result & Hres & Hall).
  { intros [k s] Hin.
    assert (Hin' : In (k, s) (sortByScore s2)).
    { rewrite <- (firstn_skipn 3 (sortByScore s2)). apply in_or_app.
      left. exact Hin. }
    clear Hin. rename Hin' into Hin.
    destruct (Hscore k s Hin) as (planet & _ & Ep & _).
    cbn [fst snd]. rewrite Ep. eexists. split; [reflexivity|].
    cbn [d_score d_planet]. split; [reflexivity|].
    exists planet. split; reflexivity. }
  exists (sortByScore s2), result.
  split; [|split; [exact Hkeys | split; [exact Hdesc | split; [exact Hscore|]]]].
  - unfold findDominantPlanets. cbv zeta. fold ps. fold scores0.
    rewrite E1, E2. exact Hres.
  - split; [|exact Hall].
    rewrite (Forall2_length Hall), length_firstn.
    rewrite <- (length_map fst (sortByScore s2)).
    rewrite (Permutation_length Hkeys), length_map. reflexivity.
Qed.

Lemma findDominantPlanets_top_three_witness :
  exists result,
    findDominantPlanets
      (calculateNatalChart (hostUTC 0) scenarioDate scenarioLatitude
         scenarioLongitude "equal") = Some result /\
    List.length result = 3%nat.
Proof.
  destruct (findDominantPlanets_top_three
              (calculateNatalChart (hostUTC 0) scenarioDate scenarioLatitude
                 scenarioLongitude "equal"))
    as (ranking & result & Hres & _ & _ & _ & Hlen & _).
  - unfold calculateNatalChart. cbn [c_planets].
    rewrite calculatePlanetaryPositions_keys. unfold planetKeys, planets.
    cbn [map fst].
    repeat (constructor; [cbn [In]; intuition discriminate|]). constructor.
  - unfold calculateNatalChart. cbn [c_houses]. apply calculateHouses_length.
  - unfold calculateNatalChart. cbn [c_aspects c_planets].
    intros a Ha. apply calculateAspects_planets. exact Ha.
  - exists result. split; [exact Hres|]. rewrite Hlen.
    unfold calculateNatalChart. cbn [c_planets].
    rewrite <- (length_map fst), calculatePlanetaryPositions_keys. reflexivity.
Defined.


(** ** The analysis of the aspects *)

Lemma ofRank_below {A : Type} (rank : A -> Z) (r : Z) (l : list A) :
  Forall (fun b => (rank b < r)%Z) l -> ofRank rank r l = [].
Proof.
  unfold ofRank. induction 1 as [|b l Hb Hall IH]; [reflexivity|].
  cbn [filter]. destruct (Z.eqb_spec (rank b) r); [lia | exact IH].
Qed.

Lemma insertByRank_ofRank {A : Type} (rank : A -> Z) (r : Z) (e : A)
    (l : list A) :
  descendingBy rank l ->
  ofRank rank r (insertByRank rank e l)
  = (ofRank rank r l ++ (if Z.eqb (rank e) r then [e] else []))%list.
Proof.
  unfold descendingBy.
  induction l as [|e' l IH]; intros Hs; cbn [insertByRank].
  - unfold ofRank. cbn [filter]. destruct (Z.eqb (rank e) r); reflexivity.
  - inversion Hs as [|? ? Hs' Hall]; subst.
    destruct (rank e' >=? rank e)%Z eqn:E.
    + unfold ofRank in *. cbn [filter]. rewrite (IH Hs').
      destruct (Z.eqb (rank e') r); reflexivity.
    + destruct (Z.eqb_spec (rank e) r) as [Heq | Hne].
      * assert (Hnil : ofRank rank r (e' :: l) = []).
        { apply ofRank_below. constructor; [lia|].
          eapply Forall_impl; [|exact Hall]. cbv beta. intros b Hb. lia. }
        rewrite Hnil. unfold ofRank in *. cbn [filter app] in *.
        destruct (Z.eqb_spec (rank e) r); [|contradiction].
        rewrite Hnil. reflexivity.
      * rewrite app_nil_r. unfold ofRank. cbn [filter].
        destruct (Z.eqb_spec (rank e) r); [contradiction | reflexivity].
Qed.

Lemma sortByRank_stable {A : Type} (rank : A -> Z) (r : Z) (l : list A) :
  ofRank rank r (sortByRank rank l) = ofRank rank r l.
Proof.
  unfold sortByRank.
  assert (H : forall acc, descendingBy rank acc ->
            ofRank rank r (fold_left (fun acc e => insertByRank rank e acc) l acc)
            = (ofRank rank r acc ++ ofRank rank r l)%list).
  { induction l as [|e l IH]; intros acc Hacc; cbn [fold_left].
    - unfold ofRank. cbn [filter]. rewrite app_nil_r. reflexivity.
    - rewrite (IH _ (insertByRank_descending rank e acc Hacc)).
      rewrite (insertByRank_ofRank rank r e acc Hacc).
      rewrite <- app_assoc. f_equal. unfold ofRank. cbn [filter].
      destruct (Z.eqb (rank e) r); reflexivity. }
  rewrite (H [] (SSorted_nil _)). reflexivity.
Qed.

Lemma mapM_total {A B : Type} (f : A -> option B) (l : list A) :
  (forall x, In x l -> f x <> None) -> mapM f l <> None.
Proof.
  intros H. destruct (mapM_some f (fun _ _ => True) l) as (ys & Hys & _).
  - intros x Hx. specialize (H x Hx). destruct (f x) as [y|]; [|contradiction].
    exists y. split; [reflexivity | exact I].
  - rewrite Hys. discriminate.
Qed.

Lemma analysisOf_one (planets : list (string * PlanetPosition)) (a : Aspect) :
  In (planet1 a) (map fst planets) -> In (planet2 a) (map fst planets) ->
  exists entry,
    analysisOf planets a = [entry] /\
    an_influence entry = a_influence a /\ an_aspect entry = a_name a /\
    an_angle entry = a_angle a /\ an_orb entry = a_orb a.
Proof.
  intros H1 H2. unfold analysisOf.
  destruct (lookup (planet1 a) planets) eqn:E1;
    [|apply lookup_none_iff in E1; contradiction].
  destruct (lookup (planet2 a) planets) eqn:E2;
    [|apply lookup_none_iff in E2; contradiction].
  eexists. split; [reflexivity|]. cbn. auto.
Qed.

Lemma strengthOrder_range (influence : string) (n : Z) :
  lookup influence strengthOrder = Some n -> (1 <= n <= 3)%Z.
Proof.
  unfold strengthOrder. cbn [lookup].
  repeat match goal with
         | |- context [String.eqb ?a ?b] => destruct (String.eqb a b)
         end; intros H; inversion H; lia.
Qed.

Lemma calculateAspects_influence (ps : list (string * PlanetPosition))
    (asp : Aspect) :
  In asp (calculateAspects ps) ->
  In (a_influence asp) (map fst strengthOrder).
Proof.
  intros Hin.
  destruct (calculateAspects_in ps asp Hin) as (e1 & e2 & _ & _ & _ & _ & Hasp).
  unfold aspectsOfPair in Hasp.
  destruct (checkAspectTypes_fields _ _ _ _ _ _ asp Hasp)
    as (row & Hrow & _ & _ & _ & _ & _ & Hinf).
  rewrite Hinf. unfold aspectTypes in Hrow. cbn [In] in Hrow.
  repeat (destruct Hrow as [Hrow | Hrow];
          [inversion Hrow; subst; cbn; tauto|]).
  destruct Hrow.
Qed.

(** On a chart whose aspects join planets of the chart and carry an
    influence of the strength table, analyzeAspects returns one entry
    for each aspect, ordered by descending strength (3 for Strong, 2 for
    Harmonious and Challenging, 1 for the others); the entries of one
    strength stand in the order of the aspect list. *)
Theorem analyzeAspects_ranked (chartData : Chart) :
  (forall a, In a (c_aspects chartData) ->
     In (planet1 a) (map fst (c_planets chartData)) /\
     In (planet2 a) (map fst (c_planets chartData)) /\
     In (a_influence a) (map fst strengthOrder)) ->
  exists result,
    analyzeAspects chartData = Some result /\
    List.length result = List.length (c_aspects chartData) /\
    Permutation result
      (flat_map (analysisOf (c_planets chartData)) (c_aspects chartData)) /\
    descendingBy rankOf result /\
    Forall (fun entry => (1 <= rankOf entry <= 3)%Z) result /\
    forall r, ofRank rankOf r result
              = ofRank rankOf r
                  (flat_map (analysisOf (c_planets chartData))
                     (c_aspects chartData)).
Proof.
  intros Hover.
  set (analysis := flat_map (analysisOf (c_planets chartData))
                     (c_aspects chartData)).
  assert (Hlen : List.length analysis = List.length (c_aspects chartData)).
  { unfold analysis. revert Hover.
    induction (c_aspects chartData) as [|a l IH]; intros Hover; [reflexivity|].
    destruct (Hover a (or_introl eq_refl)) as (H1 & H2 & _).
    destruct (analysisOf_one _ a H1 H2) as (entry & He & _).
    cbn [flat_map]. rewrite He. cbn [app List.length]. f_equal.
    apply IH. intros a' Ha'. apply Hover. right. exact Ha'. }
  assert (Hstr : forall entry, In entry analysis ->
            exists n, strengthOf entry = Some n /\ (1 <= n <= 3)%Z).
  { intros entry Hin. unfold analysis in Hin. apply in_flat_map in Hin.
    destruct Hin as (a & Ha & Hentry).
    destruct (Hover a Ha) as (H1 & H2 & H3).
    destruct (analysisOf_one _ a H1 H2) as (entry' & He & Hinf & _).
    rewrite He in Hentry. destruct Hentry as [Heq | []]. subst entry'.
    unfold strengthOf. rewrite Hinf.
    destruct (lookup (a_influence a) strengthOrder) as [n|] eqn:E.
    - exists n. split; [reflexivity|]. apply (strengthOrder_range _ _ E).
    - apply lookup_none_iff in E. contradiction. }
  destruct (sortByRank_sorts rankOf analysis) as [Hperm Hdesc].
  assert (Hres : analyzeAspects chartData = Some (sortByRank rankOf analysis)).
  { unfold analyzeAspects. cbv zeta. fold analysis.
    destruct analysis as [|x [|y rest]] eqn:Ean; [reflexivity | reflexivity|].
    destruct (mapM strengthOf (x :: y :: rest)) eqn:Em; [reflexivity|].
    exfalso. revert Em. apply mapM_total. intros entry Hin.
    destruct (Hstr entry Hin) as (n & Hn & _). rewrite Hn. discriminate. }
  exists (sortByRank rankOf analysis).
  split; [exact Hres|]. split; [|split; [exact Hperm | split; [exact Hdesc|]]].
  - rewrite (Permutation_length Hperm). exact Hlen.
  - split.
    + apply Forall_forall. intros entry Hin.
      assert (Hin' : In entry analysis)
        by (eapply Permutation_in; [exact Hperm | exact Hin]).
      destruct (Hstr entry Hin') as (n & Hn & Hrange).
      unfold rankOf. rewrite Hn. exact Hrange.
    + intros r. apply sortByRank_stable.
Qed.

Lemma analyzeAspects_ranked_witness :
  exists result,
    analyzeAspects
      (calculateNatalChart (hostUTC 0) scenarioDate scenarioLatitude
         scenarioLongitude "equal") = Some result /\
    descendingBy rankOf result.
Proof.
  destruct (analyzeAspects_ranked
              (calculateNatalChart (hostUTC 0) scenarioDate scenarioLatitude
                 scenarioLongitude "equal"))
    as (result & Hres & _ & _ & Hdesc & _).
  - unfold calculateNatalChart. cbn [c_aspects c_planets]. intros a Ha.
    destruct (calculateAspects_planets _ a Ha) as [H1 H2].
    split; [exact H1|]. split; [exact H2|].
    apply (calculateAspects_influence _ a Ha).
  - exists result. split; assumption.
Defined.

(* ================================================================== *)
(** * Rounding in the loop of the equal houses                          *)
(* ================================================================== *)

Lemma Rabs_bound (a b : R) : Rabs a <= b -> - b <= a <= b.
Proof. unfold Rabs. destruct (Rcase_abs a); lra. Qed.

Lemma ulpFrom_range (n : nat) (x : R) :
  forall bound gap, 0 < gap -> 0 < ulpFrom n bound gap x <= gap.
Proof.
  induction n as [|n IH]; intros bound gap Hg; cbn [ulpFrom]; [lra|].
  destruct (Rleb bound x); [lra|].
  specialize (IH (bound / 2) (gap / 2) ltac:(lra)). lra.
Qed.

Lemma ulp_range (x : R) : 0 < ulp x <= / 2 ^ 43.
Proof.
  apply ulpFrom_range. apply Rinv_0_lt_compat. apply pow_lt. lra.
Qed.

(** In the binade [k] steps below the one that starts at [bound], the
    gap is the starting gap halved [k] times. *)
Lemma ulpFrom_binade (k : nat) (x : R) :
  forall n bound gap,
    (k < n)%nat -> 0 < bound ->
    bound / 2 ^ k <= x < 2 * bound / 2 ^ k ->
    ulpFrom n bound gap x = gap / 2 ^ k.
Proof.
  induction k as [|k IH]; intros n bound gap Hk Hb Hx.
  - destruct n as [|n]; [lia|]. cbn [ulpFrom].
    replace (Rleb bound x) with true; [simpl; field|].
    symmetry. apply Rleb_true. simpl in Hx. lra.
  - destruct n as [|n]; [lia|]. cbn [ulpFrom].
    assert (Hp : 0 < 2 ^ k) by (apply pow_lt; lra).
    assert (Hlt : x < bound).
    { destruct Hx as [_ Hx]. simpl in Hx.
      replace (2 * bound / (2 * 2 ^ k)) with (bound / 2 ^ k) in Hx
        by (field; lra).
      assert (bound / 2 ^ k <= bound).
      { apply Rmult_le_reg_r with (2 ^ k); [exact Hp|].
        replace (bound / 2 ^ k * 2 ^ k) with bound by (field; lra).
        assert (1 <= 2 ^ k) by (apply pow_R1_Rle; lra). nra. }
      lra. }
    replace (Rleb bound x) with false
      by (symmetry; apply Rleb_false; lra).
    rewrite (IH n (bound / 2) (gap / 2)); [simpl; field; lra | lia | lra |].
    simpl in Hx.
    replace (bound / 2 / 2 ^ k) with (bound / (2 * 2 ^ k)) by (field; lra).
    replace (2 * (bound / 2) / 2 ^ k) with (2 * bound / (2 * 2 ^ k))
      by (field; lra).
    exact Hx.
Qed.

Lemma ulp_binade (k : nat) (x : R) :
  (k <= 1030)%nat -> 512 / 2 ^ k <= x < 1024 / 2 ^ k ->
  ulp x = / 2 ^ (43 + k).
Proof.
  intros Hk Hx. unfold ulp.
  rewrite (ulpFrom_binade k x 1031 512 (/ 2 ^ 43)); [| lia | lra |].
  - rewrite pow_add. field. repeat split; apply pow_nonzero; lra.
  - replace (2 * 512) with 1024 by lra. exact Hx.
Qed.

Lemma nearestEven_close (y : R) :
  Rabs (IZR (nearestEven y) - y) <= / 2 /\
  (0 <= y -> (0 <= nearestEven y)%Z).
Proof.
  unfold nearestEven. cbv zeta.
  pose proof (Math_floor_bounds y) as [B1 B2].
  split.
  - destruct (Rltb (y - IZR (Math_floor y)) (/ 2)) eqn:E1.
    + apply Rltb_true in E1. apply Rabs_le. lra.
    + apply Rltb_false in E1.
      destruct (Rltb (/ 2) (y - IZR (Math_floor y))) eqn:E2.
      * apply Rltb_true in E2. rewrite plus_IZR. apply Rabs_le. lra.
      * apply Rltb_false in E2.
        destruct (Z.even (Math_floor y)); [|rewrite plus_IZR];
          apply Rabs_le; lra.
  - intros Hy. pose proof (Math_floor_nonneg y Hy) as Hn.
    destruct (Rltb (y - IZR (Math_floor y)) (/ 2)); [exact Hn|].
    destruct (Rltb (/ 2) (y - IZR (Math_floor y))); [lia|].
    destruct (Z.even (Math_floor y)); lia.
Qed.

Lemma nearestEven_integer (z : Z) : nearestEven (IZR z) = z.
Proof.
  unfold nearestEven. cbv zeta.
  rewrite (Math_floor_unique (IZR z) z) by lra.
  replace (Rltb (IZR z - IZR z) (/ 2)) with true; [reflexivity|].
  symmetry. apply Rltb_true. lra.
Qed.

Lemma nearestEven_tie (z : Z) :
  nearestEven (IZR z + / 2) = if Z.even z then z else (z + 1)%Z.
Proof.
  unfold nearestEven. cbv zeta.
  rewrite (Math_floor_unique (IZR z + / 2) z) by lra.
  replace (Rltb (IZR z + / 2 - IZR z) (/ 2)) with false
    by (symmetry; apply Rltb_false; lra).
  replace (Rltb (/ 2) (IZR z + / 2 - IZR z)) with false
    by (symmetry; apply Rltb_false; lra).
  reflexivity.
Qed.

(** Rounding moves a number of the loop by at most half a gap. *)
Lemma roundDouble_error (x : R) :
  0 <= x -> 0 <= roundDouble x /\ Rabs (roundDouble x - x) <= / 2 ^ 44.
Proof.
  intros Hx. unfold roundDouble.
  pose proof (ulp_range x) as [U1 U2]. set (u := ulp x) in *.
  assert (Hq : 0 <= x / u).
  { apply (div_between x u 0 (x / u + 1)); [exact U1|].
    split; [lra|]. replace ((x / u + 1) * u) with (x + u) by (field; lra). lra. }
  destruct (nearestEven_close (x / u)) as [C1 C2].
  specialize (C2 Hq). apply IZR_le in C2.
  set (n := IZR (nearestEven (x / u))) in *.
  split; [apply Rmult_le_pos; lra|].
  replace (n * u - x) with ((n - x / u) * u) by (field; lra).
  rewrite Rabs_mult, (Rabs_pos_eq u) by lra.
  replace (/ 2 ^ 44) with (/ 2 * / 2 ^ 43) by (simpl; field).
  apply Rmult_le_compat; try lra. apply Rabs_pos.
Qed.

(** A multiple of the gap is a double: rounding returns it. *)
Lemma roundDouble_grid (x : R) (z : Z) :
  x = IZR z * ulp x -> roundDouble x = x.
Proof.
  intros E. unfold roundDouble. pose proof (ulp_range x) as [U _].
  replace (x / ulp x) with (IZR z).
  - rewrite nearestEven_integer. symmetry. exact E.
  - rewrite E at 1. field. lra.
Qed.

(** Half way between two doubles the one with the even significand is
    taken. *)
Lemma roundDouble_tie (x : R) (z : Z) :
  x = (IZR z + / 2) * ulp x -> Z.even z = true -> roundDouble x = IZR z * ulp x.
Proof.
  intros E Hz. unfold roundDouble. pose proof (ulp_range x) as [U _].
  replace (x / ulp x) with (IZR z + / 2).
  - rewrite nearestEven_tie, Hz. reflexivity.
  - rewrite E at 1. field. lra.
Qed.

Lemma scaled_integer (m : Z) (k : nat) :
  IZR (m * 2 ^ Z.of_nat k) * / 2 ^ k = IZR m.
Proof.
  rewrite mult_IZR, <- pow_IZR. field. apply pow_nonzero. lra.
Qed.

Lemma scaled_sum (m r : Z) (k : nat) :
  IZR (m * 2 ^ Z.of_nat k + r) * / 2 ^ k = IZR m + IZR r * / 2 ^ k.
Proof.
  rewrite plus_IZR, Rmult_plus_distr_r, scaled_integer. reflexivity.
Qed.

Lemma tiny_gap : 0 < / 2 ^ 44 < 1 /\ / 2 ^ 43 = 2 * / 2 ^ 44.
Proof.
  assert (H : 0 < 2 ^ 43) by (apply pow_lt; lra).
  assert (H1 : 1 <= 2 ^ 43) by (apply pow_R1_Rle; lra).
  replace (2 ^ 44) with (2 * 2 ^ 43) by (simpl; lra).
  split; [|field; lra].
  assert (Hi : 0 < / (2 * 2 ^ 43)) by (apply Rinv_0_lt_compat; lra).
  split; [exact Hi|].
  apply Rmult_lt_reg_r with (2 * 2 ^ 43); [lra|].
  rewrite Rinv_l by lra. lra.
Qed.

Lemma calculateHousesEqual_at (fl : R -> R) (asc : R) (i : nat) :
  (i < 12)%nat ->
  nth_error (calculateHousesEqual fl asc) i
  = Some (mkHouse (Z.of_nat i + 1) (js_rem (fl (asc + INR i * 30)) 360) "Equal").
Proof.
  intros Hi. unfold calculateHousesEqual, indices12.
  do 12 (destruct i as [|i]; [reflexivity|]). lia.
Qed.

(** Without rounding the loop is the equal branch of calculateHouses. *)
Lemma calculateHouses_equal_unrounded (jd lat lon : R) :
  calculateHouses jd lat lon "equal"
  = calculateHousesEqual (fun x => x) (calculateAscendant jd lat lon).
Proof. apply calculateHouses_equal. Qed.

(** A rounded sum of the loop, reduced by [% 360]. *)
Lemma rounded_cusp (asc : R) (i : nat) :
  0 <= asc < 360 -> (i < 12)%nat ->
  let x := asc + INR i * 30 in
  let c := js_rem (roundDouble x) 360 in
  0 <= c < 360 /\
  exists delta k,
    Rabs delta <= / 2 ^ 44 /\ (k = 0 \/ k = 1) /\ c = x + delta - 360 * k.
Proof.
  intros Hasc Hi x c. pose proof (INR_below_12 i Hi) as Bi.
  assert (Hx : 0 <= x < 690) by (unfold x; lra).
  destruct (roundDouble_error x (proj1 Hx)) as [F1 F2].
  destruct tiny_gap as [[T1 T2] _].
  pose proof (Rabs_bound _ _ F2) as F3.
  assert (Hf : 0 <= roundDouble x < 720) by lra.
  split; [apply js_rem_nonneg; lra|].
  exists (roundDouble x - x).
  destruct (js_rem_two_turns _ Hf) as [[_ E] | [_ E]].
  - exists 0. split; [exact F2|]. split; [auto|]. unfold c. rewrite E. lra.
  - exists 1. split; [exact F2|]. split; [auto|]. unfold c. rewrite E. lra.
Qed.

(** C5, amended.  The equal branch of calculateHouses is the loop
    [calculateHousesEqual] on the computed ascendant, a number in
    [0, 360).  For every ascendant in [0, 360) that is a double, with
    the sum [ascendant + i*30] rounded to a double as the code computes
    it, the twelve cusps are numbered 1 to 12 and lie in [0, 360); the
    first cusp is the ascendant itself; cusp [i] is
    [(ascendant + i*30) % 360] up to the rounding, at most [2^-44]; and
    each cusp differs from the next one (the twelfth from the first) by
    30 degrees modulo 360 up to [2^-43], about 1.2e-13 degrees. *)
Theorem calculateHousesEqual_spacing (ascendant : R) :
  0 <= ascendant < 360 ->
  roundDouble ascendant = ascendant ->
  let houses := calculateHousesEqual roundDouble ascendant in
  let c := cuspAt houses in
  (forall jd lat lon : R,
     calculateHouses jd lat lon "equal"
     = calculateHousesEqual (fun x => x) (calculateAscendant jd lat lon) /\
     0 <= calculateAscendant jd lat lon < 360) /\
  List.length houses = 12%nat /\
  map number houses = [1; 2; 3; 4; 5; 6; 7; 8; 9; 10; 11; 12]%Z /\
  c 0%nat = ascendant /\
  forall i : nat, (i < 12)%nat ->
    c i = js_rem (roundDouble (ascendant + INR i * 30)) 360 /\
    0 <= c i < 360 /\
    (Rabs (c i - (ascendant + INR i * 30)) <= / 2 ^ 44 \/
     Rabs (c i - (ascendant + INR i * 30 - 360)) <= / 2 ^ 44) /\
    let next := c (Nat.modulo (i + 1) 12) in
    Rabs (next - c i - 30) <= / 2 ^ 43 \/
    Rabs (next - c i - (30 - 360)) <= / 2 ^ 43.
Proof.
  intros Hasc Hdouble houses c.
  assert (Hc : forall i, (i < 12)%nat ->
            c i = js_rem (roundDouble (ascendant + INR i * 30)) 360).
  { intros i Hi. unfold c, cuspAt, houses.
    rewrite (nth_error_nth _ _ _ (calculateHousesEqual_at _ _ i Hi)).
    reflexivity. }
  assert (H0 : c 0%nat = ascendant).
  { rewrite Hc by lia. simpl INR.
    replace (ascendant + 0 * 30) with ascendant by lra.
    rewrite Hdouble. apply js_rem_small. lra. }
  split.
  { intros jd lat lon.
    split; [apply calculateHouses_equal_unrounded
           | apply calculateAscendant_range]. }
  split; [reflexivity|]. split; [reflexivity|]. split; [exact H0|].
  intros i Hi.
  destruct (rounded_cusp ascendant i Hasc Hi) as (Ri & di & ki & Di & Ki & Ei).
  rewrite <- (Hc i Hi) in Ri, Ei.
  destruct tiny_gap as [[T1 T2] T3].
  pose proof (Rabs_bound _ _ Di) as Di'.
  split; [apply Hc; exact Hi|]. split; [exact Ri|]. split.
  - destruct Ki as [K | K]; subst ki; [left | right]; apply Rabs_le; lra.
  - cbv zeta. destruct (Nat.eq_dec i 11) as [E | E].
    + subst i. replace (Nat.modulo (11 + 1) 12) with 0%nat by reflexivity.
      rewrite H0. simpl INR in Ei.
      destruct Ki as [K | K]; subst ki; [right | left]; apply Rabs_le; lra.
    + assert (Hi' : (i + 1 < 12)%nat) by lia.
      rewrite (Nat.mod_small _ _ Hi').
      destruct (rounded_cusp ascendant (i + 1) Hasc Hi')
        as (Rj & dj & kj & Dj & Kj & Ej).
      rewrite <- (Hc _ Hi') in Rj, Ej.
      pose proof (Rabs_bound _ _ Dj) as Dj'.
      rewrite plus_INR in Ej. simpl INR in Ej.
      destruct Ki as [K | K], Kj as [K' | K']; subst ki kj.
      * left. apply Rabs_le. lra.
      * right. apply Rabs_le. lra.
      * exfalso. lra.
      * left. apply Rabs_le. lra.
Qed.

(** The theorem applied at the epoch, on the equator at 145.46061837
    degrees west, where the ascendant is 45 degrees. *)
Lemma calculateHousesEqual_spacing_witness :
  cuspAt (calculateHousesEqual roundDouble
            (calculateAscendant 2451545 0 (-145.46061837))) 0
  = calculateAscendant 2451545 0 (-145.46061837).
Proof.
  apply (calculateHousesEqual_spacing
           (calculateAscendant 2451545 0 (-145.46061837))).
  - apply calculateAscendant_range.
  - rewrite calculateAscendant_at_135.
    apply (roundDouble_grid 45 (45 * 2 ^ Z.of_nat 47)).
    rewrite (ulp_binade 4 45) by (simpl; lia || lra).
    symmetry. apply (scaled_integer 45 47).
Defined.

(** C5 does not hold for the doubles of the code.  For the ascendant
    [300 + 2^-44], a double, the sum for the eighth cusp is a double,
    the sum for the ninth, [540 + 2^-44], lies half way between two
    doubles and is rounded to 540: the two cusps differ by [30 - 2^-44],
    not by 30. *)
Lemma equal_spacing_not_exact :
  let ascendant := 300 + / 2 ^ 44 in
  let c := cuspAt (calculateHousesEqual roundDouble ascendant) in
  0 <= ascendant < 360 /\
  roundDouble ascendant = ascendant /\
  c 7%nat = 150 + / 2 ^ 44 /\
  c 8%nat = 180 /\
  c 8%nat - c 7%nat <> 30 /\
  c 8%nat - c 7%nat <> 30 - 360.
Proof.
  intros ascendant c. destruct tiny_gap as [[T1 T2] T3].
  assert (Hasc : 0 <= ascendant < 360) by (unfold ascendant; lra).
  assert (Hd : roundDouble ascendant = ascendant).
  { apply (roundDouble_grid ascendant (300 * 2 ^ Z.of_nat 44 + 1)).
    rewrite (ulp_binade 1 ascendant) by (simpl; lia || (unfold ascendant; lra)).
    replace (43 + 1)%nat with 44%nat by reflexivity.
    rewrite scaled_sum. unfold ascendant. lra. }
  assert (H7 : c 7%nat = 150 + / 2 ^ 44).
  { unfold c, cuspAt.
    rewrite (nth_error_nth _ _ _ (calculateHousesEqual_at _ _ 7 ltac:(lia))).
    cbn [cusp]. simpl INR.
    replace (ascendant + (1 + 1 + 1 + 1 + 1 + 1 + 1) * 30)
      with (510 + / 2 ^ 44) by (unfold ascendant; lra).
    rewrite (roundDouble_grid (510 + / 2 ^ 44) (510 * 2 ^ Z.of_nat 44 + 1)).
    - rewrite js_rem_once by lra. lra.
    - rewrite (ulp_binade 1 (510 + / 2 ^ 44)) by (simpl; lia || lra).
      replace (43 + 1)%nat with 44%nat by reflexivity.
      rewrite scaled_sum. lra. }
  assert (H8 : c 8%nat = 180).
  { unfold c, cuspAt.
    rewrite (nth_error_nth _ _ _ (calculateHousesEqual_at _ _ 8 ltac:(lia))).
    cbn [cusp]. simpl INR.
    replace (ascendant + (1 + 1 + 1 + 1 + 1 + 1 + 1 + 1) * 30)
      with (540 + / 2 ^ 44) by (unfold ascendant; lra).
    rewrite (roundDouble_tie (540 + / 2 ^ 44) (540 * 2 ^ Z.of_nat 43)).
    - rewrite (ulp_binade 0 (540 + / 2 ^ 44)) by (simpl; lia || lra).
      replace (43 + 0)%nat with 43%nat by reflexivity.
      rewrite scaled_integer. rewrite js_rem_once by lra. lra.
    - rewrite (ulp_binade 0 (540 + / 2 ^ 44)) by (simpl; lia || lra).
      replace (43 + 0)%nat with 43%nat by reflexivity.
      rewrite Rmult_plus_distr_r, scaled_integer. lra.
    - vm_compute. reflexivity. }
  split; [exact Hasc|]. split; [exact Hd|]. split; [exact H7|].
  split; [exact H8|]. rewrite H7, H8. split; lra.
Qed.

(* ================================================================== *)
(** * A Grand Trine with the Sun at a negative longitude                *)
(* ================================================================== *)

















(** In a chart whose aspects are between registry planets that have a
    position, none at a negative longitude, three distinct planets
    joined pairwise by trines give exactly one pattern under the sorted
    triplet key: a Grand Trine tagged with one of the four element
    names, the element of the sign of one of the three planets. *)
Theorem grand_trine_tagged_with_element (chartData : Chart) (a b c : string) :
  aspectsOverChart chartData ->
  (forall k p, In (k, p) (c_planets chartData) -> 0 <= longitude p) ->
  a <> b -> b <> c -> a <> c ->
  aspectJoins "trine" (c_aspects chartData) a b ->
  aspectJoins "trine" (c_aspects chartData) b c ->
  aspectJoins "trine" (c_aspects chartData) a c ->
  exists patterns element,
    findSpecialPatterns chartData = Some patterns /\
    List.length
      (filter (fun p => String.eqb (patternPlanets p) (tripleKey a b c))
         patterns) = 1%nat /\
    In element elementTable /\
    (exists m pos,
       In m [a; b; c] /\ lookup m (c_planets chartData) = Some pos /\
       getSignElement (Math_floor (longitude pos / 30)) = Some element) /\
    In (GrandTrine (tripleKey a b c) (Some element)) patterns.
Proof.
  intros Hwf Hpos Hab Hbc Hac Tab Tbc Tac.
  destruct (grand_trine_reported_once chartData a b c Hwf Hab Hbc Hac Tab Tbc Tac)
    as (patterns & Hp & Hcount & (m & pos & Hm & Hl & Hin) & _).
  assert (Hlon : 0 <= longitude pos).
  { apply (Hpos m pos). apply lookup_some_in. exact Hl. }
  destruct (getSignElement_nonneg _ (sign_of_nonneg_longitude _ Hlon))
    as (element & He & Hs).
  exists patterns, element.
  split; [exact Hp|]. split; [exact Hcount|]. split; [exact He|].
  split; [exists m, pos; auto|].
  rewrite <- Hs. exact Hin.
Qed.

(** The theorem applied to the chart of three positions 120 degrees
    apart. *)
Lemma grand_trine_tagged_with_element_witness :
  exists patterns element,
    findSpecialPatterns grandTrineChart = Some patterns /\
    In (GrandTrine (tripleKey "sun" "moon" "mars") (Some element)) patterns.
Proof.
  destruct (grand_trine_tagged_with_element grandTrineChart "sun" "moon" "mars")
    as (patterns & element & Hp & _ & _ & _ & Hin).
  - exact grandTrineChart_over_chart.
  - intros k p Hin.
    cbn [grandTrineChart c_planets grandTrinePositions In] in Hin.
    destruct Hin as [H | [H | [H | []]]]; inversion H; subst;
      unfold positionAt; cbn [longitude]; lra.
  - discriminate.
  - discriminate.
  - discriminate.
  - apply aspectJoins_of_link. rewrite grandTrineChart_aspects. cbn; auto.
  - apply aspectJoins_of_link. rewrite grandTrineChart_aspects. cbn; auto.
  - apply aspectJoins_of_link. rewrite grandTrineChart_aspects. cbn; auto.
  - exists patterns, element. split; [exact Hp | exact Hin].
Defined.

(* ================================================================== *)
(** * A negative midheaven                                              *)
(* ================================================================== *)

(** Outside the equal system, when the local sidereal time is negative
    the tenth cusp and the chart's midheaven are that negative number:
    they differ from the midheaven of the specification, [LMST mod 360],
    by a full turn, and lie outside [0, 360). *)
Theorem midheaven_negative_with_sidereal_time (host : Host) (date : JsDate)
    (lat lon : R) (sys : string) :
  let jd := calculateJulianDay date in
  let LMST := calculateLocalSiderealTime jd lon in
  let chart := calculateNatalChart host date lat lon sys in
  String.eqb sys "equal" = false -> LMST < 0 ->
  cuspAt (c_houses chart) 9 = LMST /\
  c_midheaven chart = LMST /\
  spec_mod LMST 360 = LMST + 360 /\
  c_midheaven chart <> spec_mod LMST 360.
Proof.
  intros jd LMST chart Hsys Hneg.
  destruct (tenth_cusp_of_chart host date lat lon sys) as (Eh & _ & Em & E10).
  fold jd in Eh, Em, E10. fold chart in Eh, Em. fold LMST in E10.
  rewrite Hsys in E10.
  pose proof (calculateLocalSiderealTime_range jd lon) as Hr. fold LMST in Hr.
  assert (Hmc : calculateMidheaven LMST = LMST)
    by (unfold calculateMidheaven; apply js_rem_small; lra).
  rewrite Hmc in E10.
  assert (Hs : spec_mod LMST 360 = LMST + 360)
    by (apply spec_mod_negative; lra).
  split; [rewrite Eh; exact E10|].
  split; [rewrite Em; exact E10|].
  split; [exact Hs|]. rewrite Em, E10, Hs. lra.
Qed.

Lemma calculateJulianDay_1999_12_31 :
  calculateJulianDay (mkDate 1999 11 31 12 0 0) = 2451544.
Proof.
  rewrite calculateJulianDay_dayNumber.
  replace (dayNumber (mkDate 1999 11 31 12 0 0)) with 2453068%Z
    by (vm_compute; reflexivity).
  replace (secondsOfDay (mkDate 1999 11 31 12 0 0)) with 43200%Z
    by (vm_compute; reflexivity).
  lra.
Qed.

(** One day before the epoch, at Greenwich, the sidereal time is between
    -81 and -80 degrees. *)
Lemma calculateLocalSiderealTime_day_before_epoch :
  -81 < calculateLocalSiderealTime 2451544 0 < -80.
Proof.
  unfold calculateLocalSiderealTime. cbv zeta.
  replace (2451544 - 2451545.0) with (-1) by lra.
  set (T := -1 / 36525).
  assert (H1 : 0 <= T * T <= 1) by (unfold T; nra).
  assert (H2 : -1 <= T * T * T <= 0) by (unfold T; nra).
  rewrite js_rem_small; nra.
Qed.

(** The theorem applied to 31 December 1999 at noon, at Greenwich. *)
Lemma midheaven_negative_with_sidereal_time_witness :
  c_midheaven (calculateNatalChart (hostUTC 0) (mkDate 1999 11 31 12 0 0) 0 0
                 "placidus") < 0.
Proof.
  destruct (midheaven_negative_with_sidereal_time (hostUTC 0)
              (mkDate 1999 11 31 12 0 0) 0 0 "placidus")
    as (_ & H & _).
  - reflexivity.
  - rewrite calculateJulianDay_1999_12_31.
    pose proof calculateLocalSiderealTime_day_before_epoch. lra.
  - rewrite H, calculateJulianDay_1999_12_31.
    pose proof calculateLocalSiderealTime_day_before_epoch. lra.
Defined.
